(** * hoff: the node system (nodesystem.go)

    A shallow embedding of [NodeSystem] and of its builder, validation,
    activation and query operations, followed by the properties proved
    about them.

    Conventions of the embedding.
    - A Go method with a pointer receiver that mutates the system is a
      function returning the new system next to the Go results.
    - A [Node] is an interface value: [None] is the nil interface, [Some r]
      a non-nil node [r].  Nodes are compared with Go's [==], that is by
      identity, which is equality on [NodeRef].
    - Calling a method on a nil interface panics, and so does [cmp.Equal]
      on a comparer it finds not to be symmetric; the model makes both
      explicit with the [Panic] outcome.
    - [[]nodeLink] values built by [findCycle] share backing arrays, so they
      are modelled as slice headers over a heap of arrays.  All other
      slices of the file have a single live reference and are lists.
    - Go maps are [gmap]s.  Go leaves the iteration order of [range] over a
      map unspecified; the model enumerates with [map_to_list] and the
      theorems only speak about membership.
    - A branch is a [*bool].  The indices of an activated system are
      [map[*bool]]s, keyed by the pointers themselves: [branchPointer] tells
      the pointers that links hold from pointers made elsewhere. *)

From Stdlib Require Import ZArith Lia.
From stdpp Require Import base option list gmap strings.

Open Scope string_scope.
Open Scope list_scope.

(** ** Results of fallible computations *)

Inductive outcome (A : Type) : Type :=
| Ret (a : A)       (* normal return *)
| Panic             (* the call panics *)
| Timeout.          (* the recursion budget of the model was exhausted *)
Arguments Ret {A} a.
Arguments Panic {A}.
Arguments Timeout {A}.

Definition obind {A B} (m : outcome A) (f : A -> outcome B) : outcome B :=
  match m with
  | Ret a => f a
  | Panic => Panic
  | Timeout => Timeout
  end.

Definition outcome_map {A B} (f : A -> B) (m : outcome A) : outcome B :=
  obind m (fun a => Ret (f a)).

(** ** go-cmp

    [cmp.Equal(x, y, cmp.Comparer(f))], for [x] and [y] of the type [f]
    compares, is decided by [f].  The package asks [f] to be symmetric and
    checks it: the first comparer call of every [Equal] is also made with
    the arguments swapped, and [Equal] panics ("non-deterministic or
    non-symmetric function detected") when the two results differ. *)
Definition cmp_Equal {A} (comparer : A -> A -> bool) (x y : A) : outcome bool :=
  if Bool.eqb (comparer x y) (comparer y x) then Ret (comparer x y) else Panic.

(** ** Go's [int] (64 bits, two's complement) *)

Definition int_min : Z := - 2 ^ 63.
Definition int_max : Z := 2 ^ 63 - 1.
Definition int_wrap (z : Z) : Z := (z + 2 ^ 63) mod 2 ^ 64 - 2 ^ 63.

(** [c++] on an [int]. *)
Definition int_incr (c : Z) : Z := int_wrap (c + 1).

(** Modelled from the spec: the [JoinMode] enumeration ("One of None, And,
    Or"; stable names JoinNone, JoinAnd, JoinOr); its declaration is not in
    nodesystem.go. *)
Inductive JoinMode : Type := JoinNone | JoinAnd | JoinOr.

Global Instance JoinMode_eq_dec : EqDecision JoinMode.
Proof. solve_decision. Defined.

(** ** Branch pointers

    Modelled from the spec: a branch is passed as a [*bool], and the indices
    of an activated system are maps "keyed by the identity of the branch
    option (nil for action nodes, pointer to true/false for decisions).
    Links with the same from and same branch label share a bucket": the
    links of one label hold one pointer, the one the package keeps for that
    boolean ([boolPointer], outside nodesystem.go).  A [*bool] is then nil,
    one of those two pointers, or a pointer made elsewhere, told apart by
    its address whatever boolean it points to. *)
Inductive branchPointer : Type :=
| nilPointer
| boolPointer (b : bool)
| otherPointer (address : nat) (pointee : bool).

Global Instance branchPointer_eq_dec : EqDecision branchPointer.
Proof. solve_decision. Defined.

Global Instance branchPointer_countable : Countable branchPointer.
Proof.
  refine (inj_countable'
            (fun pointer => match pointer with
                            | nilPointer => inl tt
                            | boolPointer b => inr (inl b)
                            | otherPointer address pointee => inr (inr (address, pointee))
                            end)
            (fun x => match x with
                      | inl _ => nilPointer
                      | inr (inl b) => boolPointer b
                      | inr (inr (address, pointee)) => otherPointer address pointee
                      end) _).
  by intros [].
Defined.

(** The boolean a pointer points to; nil points to none. *)
Definition pointee (pointer : branchPointer) : option bool :=
  match pointer with
  | nilPointer => None
  | boolPointer b => Some b
  | otherPointer _ b => Some b
  end.

(** The pointer that a link of the given label holds. *)
Definition pointerOf (label : option bool) : branchPointer :=
  match label with
  | None => nilPointer
  | Some b => boolPointer b
  end.

(** A substring test for the error messages. *)
Definition Contains (s sub : string) : Prop :=
  exists pre post : string, s = (pre ++ sub ++ post)%string.

Section NodeSystem.

(** Modelled from the spec: the [Node] interface is declared outside
    nodesystem.go.  A non-nil node is a [NodeRef], compared by identity, and
    [DecideCapability] tells decision nodes from action nodes. *)
Context {NodeRef : Type} `{Countable NodeRef}.
Variable DecideCapability : NodeRef -> bool.

Definition Node : Type := option NodeRef.

(** Modelled from the spec: [nodeLink] is "a triple (from, to, branch:
    Option<bool>)"; [Branch] is the label of the link, None | true | false,
    and [pointerOf] of it the pointer the link holds.  [newNodeLink],
    [newNodeLinkOnBranch] and [nodeLinkComparator] are declared outside
    nodesystem.go; two links are the same when the three components are.
    That comparison is symmetric, so
    [cmp.Equal(xItem, yItem, nodeLinkComparator)] is its result. *)
Record nodeLink : Type := mkLink {
  From : Node;
  To : Node;
  Branch : option bool;
}.

Global Instance nodeLink_eq_dec : EqDecision nodeLink.
Proof. solve_decision. Defined.

Definition newNodeLink (from to : Node) : nodeLink :=
  {| From := from; To := to; Branch := None |}.

Definition newNodeLinkOnBranch (from to : Node) (branch : bool) : nodeLink :=
  {| From := from; To := to; Branch := Some branch |}.

Definition nodeLinkComparator (x y : nodeLink) : bool := bool_decide (x = y).

(** ** Errors

    [errors.New] and [fmt.Errorf] without verbs carry their message; a
    formatted error is kept as its format and its arguments. *)
Inductive error : Type :=
| errors_New (msg : string)
| ErrOrphanDecision (node : Node)
| ErrCycle (cycle : list nodeLink)
| ErrUndeclaredFrom (from : Node) (link : nodeLink)
| ErrUndeclaredTo (to : Node) (link : nodeLink)
| ErrMultipleInstances (c : Z) (n : Node)
| ErrMultipleLinks (c : Z) (n : Node).

(** The message, up to the first formatting verb. *)
Definition error_text (e : error) : string :=
  match e with
  | errors_New msg => msg
  | ErrOrphanDecision _ => "can't have decision node without link from it: "
  | ErrCycle _ => "Can't have cycle in links between nodes: "
  | ErrUndeclaredFrom _ _ => "can't have undeclared node '"
  | ErrUndeclaredTo _ _ => "can't have undeclared node '"
  | ErrMultipleInstances _ _ => "can't have multiple instances ("
  | ErrMultipleLinks _ _ => "can't have multiple links ("
  end.

(** ** The node system *)

Record NodeSystem : Type := mkNodeSystem {
  activated : bool;
  nodes : list Node;
  nodesJoinModes : gmap Node JoinMode;
  links : list nodeLink;
  initialNodes : list Node;
  followingNodesTree : gmap Node (gmap branchPointer (list Node));
  ancestorsNodesTree : gmap Node (gmap branchPointer (list Node));
}.

Definition NewNodeSystem : NodeSystem :=
  {| activated := false;
     nodes := [];
     nodesJoinModes := ∅;
     links := [];
     initialNodes := [];
     followingNodesTree := ∅;
     ancestorsNodesTree := ∅ |}.

Definition set_nodes (s : NodeSystem) (ns : list Node) : NodeSystem :=
  {| activated := activated s;
     nodes := ns;
     nodesJoinModes := nodesJoinModes s;
     links := links s;
     initialNodes := initialNodes s;
     followingNodesTree := followingNodesTree s;
     ancestorsNodesTree := ancestorsNodesTree s |}.

Definition set_nodesJoinModes (s : NodeSystem) (m : gmap Node JoinMode) : NodeSystem :=
  {| activated := activated s;
     nodes := nodes s;
     nodesJoinModes := m;
     links := links s;
     initialNodes := initialNodes s;
     followingNodesTree := followingNodesTree s;
     ancestorsNodesTree := ancestorsNodesTree s |}.

Definition set_links (s : NodeSystem) (ls : list nodeLink) : NodeSystem :=
  {| activated := activated s;
     nodes := nodes s;
     nodesJoinModes := nodesJoinModes s;
     links := ls;
     initialNodes := initialNodes s;
     followingNodesTree := followingNodesTree s;
     ancestorsNodesTree := ancestorsNodesTree s |}.

(** ** Builder operations *)

Definition AddNode (s : NodeSystem) (n : Node) : NodeSystem * (bool * option error) :=
  if activated s then
    (s, (false, Some (errors_New "can't add node, node system is freeze due to activation")))
  else
    (set_nodes s (nodes s ++ [n]), (true, None)).

Definition ConfigureJoinModeOnNode (s : NodeSystem) (n : Node) (m : JoinMode)
  : NodeSystem * (bool * option error) :=
  if activated s then
    (s, (false, Some (errors_New "can't add node join mode, node system is freeze due to activation")))
  else
    (set_nodesJoinModes s (<[n := m]> (nodesJoinModes s)), (true, None)).

Definition addLink (s : NodeSystem) (from to : Node) (branch : option bool)
  : NodeSystem * (bool * option error) :=
  if activated s then
    (s, (false, Some (errors_New "can't add branch link, node system is freeze due to activation")))
  else
    match from with
    | None => (s, (false, Some (errors_New "can't have missing 'from' attribute")))
    | Some f =>
      if bool_decide (branch = None) && DecideCapability f then
        (s, (false, Some (errors_New "can't have missing branch")))
      else if bool_decide (branch <> None) && negb (DecideCapability f) then
        (s, (false, Some (errors_New "can't have not needed branch")))
      else if bool_decide (to = None) then
        (s, (false, Some (errors_New "can't have missing 'to' attribute")))
      else if bool_decide (from = to) then
        (s, (false, Some (errors_New "can't have link on from and to the same node")))
      else
        match branch with
        | None => (set_links s (links s ++ [newNodeLink from to]), (true, None))
        | Some b => (set_links s (links s ++ [newNodeLinkOnBranch from to b]), (true, None))
        end
    end.

Definition AddLink (s : NodeSystem) (from to : Node) : NodeSystem * (bool * option error) :=
  addLink s from to None.

Definition AddLinkOnBranch (s : NodeSystem) (from to : Node) (branch : bool)
  : NodeSystem * (bool * option error) :=
  addLink s from to (Some branch).

(** ** Queries that need no activation *)

Definition JoinModeOfNode (s : NodeSystem) (n : Node) : JoinMode :=
  match nodesJoinModes s !! n with
  | Some mode => mode
  | None => JoinNone
  end.

Definition InitialNodes (s : NodeSystem) : list Node := initialNodes s.

Definition IsActivated (s : NodeSystem) : bool := activated s.

Definition haveNode (s : NodeSystem) (n : Node) : bool :=
  existsb (fun node => bool_decide (node = n)) (nodes s).

(** ** Slices of links over a heap of backing arrays

    [findCycle] grows its walk with [append(walkednodeLinks, link)] inside a
    loop and keeps the resulting slices, so two slices can share one backing
    array.  A slice header is the array it points into, its length and its
    capacity (the offset is always 0 here); the heap, a list of arrays of
    links, lists the arrays in allocation order. *)

Record slice : Type := mkSlice {
  s_arr : nat;
  s_len : nat;
  s_cap : nat;
}.

(** The nil slice: no array is read or written through it. *)
Definition nil_slice : slice := {| s_arr := 0; s_len := 0; s_cap := 0 |}.

Definition zero_link : nodeLink := {| From := None; To := None; Branch := None |}.

Definition heap_array (h : list (list nodeLink)) (a : nat) : list nodeLink := default [] (h !! a).

Definition slice_read (h : list (list nodeLink)) (w : slice) : list nodeLink :=
  take (s_len w) (heap_array h (s_arr w)).

(** The capacity the runtime picks when [append] has to reallocate, from
    the old capacity and the needed length.  The language only promises
    that the new array is large enough; the properties below assume no
    more. *)
Variable growslice : nat -> nat -> nat.

(** [append(w, x)]: in place when the capacity allows it, otherwise into a
    fresh array that starts with a copy of [w]. *)
Definition slice_append (h : list (list nodeLink)) (w : slice) (x : nodeLink) : list (list nodeLink) * slice :=
  if bool_decide (s_len w < s_cap w) then
    (alter (fun a => <[s_len w := x]> a) (s_arr w) h,
     {| s_arr := s_arr w; s_len := S (s_len w); s_cap := s_cap w |})
  else
    let c := growslice (s_cap w) (S (s_len w)) in
    (h ++ [slice_read h w ++ x :: replicate (c - S (s_len w)) zero_link],
     {| s_arr := length h; s_len := S (s_len w); s_cap := c |}).

(** ** Invariants of the slice heap *)

(** A slice header stays within its capacity and its array. *)
Definition slice_wf (h : list (list nodeLink)) (w : slice) : Prop :=
  s_len w <= s_cap w /\ s_cap w <= length (heap_array h (s_arr w)).

(** [frame h w h']: going from [h] to [h'], arrays were only added, and an
    existing cell was only written if it lies in the array of [w] between
    its length and its capacity, where [append(w, _)] writes in place. *)
Definition frame (h : list (list nodeLink)) (w : slice) (h' : list (list nodeLink)) : Prop :=
  length h <= length h'
  /\ forall i a, h !! i = Some a ->
       exists a', h' !! i = Some a' /\ length a' = length a
                  /\ forall j, (i <> s_arr w \/ j < s_len w \/ s_cap w <= j) ->
                               a' !! j = a !! j.

(** The distinct nodes that are the [From] of a link. *)
Definition linkSources (s : NodeSystem) : list Node := remove_dups (From <$> links s).

(** The link sources that a walk has not left yet. *)
Definition remaining (s : NodeSystem) (walk : list nodeLink) : nat :=
  length (filter (fun n => n ∉ (From <$> walk)) (linkSources s)).

(** The link graph has no cycle: the nodes can be ranked so that every link
    goes up. *)
Definition acyclic (s : NodeSystem) : Prop :=
  exists rank : Node -> nat, forall link, link ∈ links s -> rank (From link) < rank (To link).

(** The number of links into [n]. *)
Definition inboundLinks (s : NodeSystem) (n : Node) : nat :=
  length (filter (fun link => To link = n) (links s)).

(** ** Validation *)

Definition hasLinkFrom (s : NodeSystem) (node : Node) : bool :=
  existsb (fun link => bool_decide (From link = node)) (links s).

Fixpoint orphanLoop (s : NodeSystem) (ns : list Node) (errors : list error)
  : outcome (list error) :=
  match ns with
  | [] => Ret errors
  | node :: rest =>
    match node with
    | None => Panic
    | Some r =>
      if DecideCapability r then
        if hasLinkFrom s node then orphanLoop s rest errors
        else orphanLoop s rest (errors ++ [ErrOrphanDecision node])
      else orphanLoop s rest errors
    end
  end.

Definition checkForOrphanMultiBranchesNode (s : NodeSystem) : outcome (list error) :=
  orphanLoop s (nodes s) [].

(** The loop of [findCycle] over the selected links; [rec] is the recursive
    call. *)
Fixpoint walkLinks (rec : list (list nodeLink) -> Node -> slice -> option (list (list nodeLink) * list slice))
    (selectedLinks : list nodeLink) (h : list (list nodeLink)) (walkednodeLinks : slice)
    (cycles : list slice) : option (list (list nodeLink) * list slice) :=
  match selectedLinks with
  | [] => Some (h, cycles)
  | link :: rest =>
    let '(h1, newWalkednodeLinks) := slice_append h walkednodeLinks link in
    match rec h1 (To link) newWalkednodeLinks with
    | None => None
    | Some (h2, linkCycles) => walkLinks rec rest h2 walkednodeLinks (cycles ++ linkCycles)
    end
  end.

(** [findCycle]; [None] when the budget [fuel] of nested calls runs out.
    A nil slice has length 0, so the guard [walkednodeLinks != nil &&
    len(walkednodeLinks) > 0] is the test on the length. *)
Fixpoint findCycle (fuel : nat) (s : NodeSystem) (h : list (list nodeLink))
    (topNode currentNode : Node) (walkednodeLinks : slice) {struct fuel}
  : option (list (list nodeLink) * list slice) :=
  match fuel with
  | 0 => None
  | S fuel' =>
    if bool_decide (0 < s_len walkednodeLinks) && bool_decide (topNode = currentNode) then
      Some (h, [walkednodeLinks])
    else if bool_decide (0 < s_len walkednodeLinks)
            && existsb (fun link => bool_decide (currentNode = From link))
                       (slice_read h walkednodeLinks) then
      Some (h, [])
    else
      let selectedLinks := filter (fun link => From link = currentNode) (links s) in
      if bool_decide (length selectedLinks = 0) then Some (h, [])
      else walkLinks (fun h' n w => findCycle fuel' s h' topNode n w)
                     selectedLinks h walkednodeLinks []
  end.

(** The budget given to each top-level [findCycle]. *)
Definition cycleFuel (s : NodeSystem) : nat := S (length (links s)).

Fixpoint cyclesLoop (s : NodeSystem) (ns : list Node) (h : list (list nodeLink)) (cycles : list slice)
  : option (list (list nodeLink) * list slice) :=
  match ns with
  | [] => Some (h, cycles)
  | node :: rest =>
    match findCycle (cycleFuel s) s h node node nil_slice with
    | None => None
    | Some (h', possibleCycles) => cyclesLoop s rest h' (cycles ++ possibleCycles)
    end
  end.

(** The comparer of [checkForCyclicRedundancyInNodeLinks]: every link of
    [x] is found in [y]. *)
Definition nodeLinkSliceComparator (x y : list nodeLink) : bool :=
  let sameLinkCount :=
    length (List.filter (fun xItem => existsb (fun yItem => nodeLinkComparator xItem yItem) y) x) in
  bool_decide (sameLinkCount = length x).

(** The deduplication loops, over cycles whose links are read with
    [content]: slices read from the heap in the code. *)
Fixpoint alreadyTrimmedLoop {A} (content : A -> list nodeLink) (cycle : A)
    (trimmedCycles : list A) (alreadyTrimmed : bool) : outcome bool :=
  match trimmedCycles with
  | [] => Ret alreadyTrimmed
  | trimmedCycle :: rest =>
    obind (cmp_Equal nodeLinkSliceComparator (content cycle) (content trimmedCycle))
      (fun equal =>
         alreadyTrimmedLoop content cycle rest (if equal then true else alreadyTrimmed))
  end.

Fixpoint trimLoop {A} (content : A -> list nodeLink) (cycles trimmedCycles : list A)
  : outcome (list A) :=
  match cycles with
  | [] => Ret trimmedCycles
  | cycle :: rest =>
    obind (alreadyTrimmedLoop content cycle trimmedCycles false)
      (fun alreadyTrimmed =>
         trimLoop content rest
           (if alreadyTrimmed then trimmedCycles else trimmedCycles ++ [cycle]))
  end.

Definition trimCycles (h : list (list nodeLink)) (cycles : list slice) : outcome (list slice) :=
  trimLoop (slice_read h) cycles [].

Definition checkForCyclicRedundancyInNodeLinks (s : NodeSystem) : outcome (list error) :=
  match cyclesLoop s (nodes s) [] [] with
  | None => Timeout
  | Some (h, cycles) =>
    obind (trimCycles h cycles) (fun trimmedCycles =>
      Ret ((fun cycle => ErrCycle (slice_read h cycle)) <$> trimmedCycles))
  end.

Definition checkForUndeclaredNodeInNodeLink (s : NodeSystem) : list error :=
  flat_map (fun link =>
      (if bool_decide (From link <> None) && negb (haveNode s (From link))
       then [ErrUndeclaredFrom (From link) link] else [])
      ++
      (if bool_decide (To link <> None) && negb (haveNode s (To link))
       then [ErrUndeclaredTo (To link) link] else []))
    (links s).

(** [count[k]++] on a [map[Node]int]; a missing key reads as 0. *)
Definition count_incr (count : gmap Node Z) (k : Node) : gmap Node Z :=
  <[k := int_incr (default 0%Z (count !! k))]> count.

(** The body of the inner loop of [checkForMultipleInstanceOfSameNode], the
    inner loop for one [i], and the two loops. *)
Definition countPair (ns : list Node) (i : nat) (count : gmap Node Z) (j : nat)
  : gmap Node Z :=
  if bool_decide (i <> j) && bool_decide (ns !! i = ns !! j)
  then count_incr count (default (None : Node) (ns !! i))
  else count.

Definition countRow (ns : list Node) (count : gmap Node Z) (i : nat) : gmap Node Z :=
  foldl (countPair ns i) count (seq 0 (length ns)).

Definition countInstances (ns : list Node) : gmap Node Z :=
  foldl (countRow ns) ∅ (seq 0 (length ns)).

(** The entry of a counter that was incremented [t] times without
    wrapping. *)
Definition count_repr (t : nat) : option Z :=
  match t with
  | 0 => None
  | S _ => Some (Z.of_nat t)
  end.

(** The number of times [v] is declared. *)
Definition instancesOf (s : NodeSystem) (v : Node) : nat :=
  length (filter (fun n => n = v) (nodes s)).

Definition checkForMultipleInstanceOfSameNode (s : NodeSystem) : list error :=
  flat_map (fun '(n, c) => if bool_decide (1 < c)%Z then [ErrMultipleInstances c n] else [])
    (map_to_list (countInstances (nodes s))).

Definition countLinksTo (ls : list nodeLink) : gmap Node Z :=
  foldl (fun count link => count_incr count (To link)) ∅ ls.

Definition checkForMultipleLinksToNodeWithoutJoinMode (s : NodeSystem) : list error :=
  flat_map (fun '(n, c) =>
              if bool_decide (1 < c)%Z && bool_decide (JoinModeOfNode s n = JoinNone)
              then [ErrMultipleLinks c n] else [])
    (map_to_list (countLinksTo (links s))).

Definition IsValid (s : NodeSystem) : outcome (bool * list error) :=
  obind (checkForOrphanMultiBranchesNode s) (fun e1 =>
  obind (checkForCyclicRedundancyInNodeLinks s) (fun e2 =>
    let errors := e1 ++ e2
                  ++ checkForUndeclaredNodeInNodeLink s
                  ++ checkForMultipleInstanceOfSameNode s
                  ++ checkForMultipleLinksToNodeWithoutJoinMode s in
    if bool_decide (length errors = 0) then Ret (true, [])
    else Ret (false, errors))).

(** ** Walks as lists

    When no node on the way has two outbound links, [findCycle] never
    appends twice to the same slice, and its walks can be followed as
    lists.  [findCycleLinear] does so and gives up ([None]) at a node with
    several outbound links, or when the budget runs out. *)

Fixpoint findCycleLinear (fuel : nat) (s : NodeSystem) (topNode currentNode : Node)
    (walk : list nodeLink) {struct fuel} : option (list (list nodeLink)) :=
  match fuel with
  | 0 => None
  | S fuel' =>
    if bool_decide (0 < length walk) && bool_decide (topNode = currentNode) then Some [walk]
    else if bool_decide (0 < length walk)
            && existsb (fun link => bool_decide (currentNode = From link)) walk then
      Some []
    else
      match filter (fun link => From link = currentNode) (links s) with
      | [] => Some []
      | [link] => findCycleLinear fuel' s topNode (To link) (walk ++ [link])
      | _ => None
      end
  end.

Fixpoint cyclesLinear (s : NodeSystem) (ns : list Node) : option (list (list nodeLink)) :=
  match ns with
  | [] => Some []
  | node :: rest =>
    match findCycleLinear (cycleFuel s) s node node [], cyclesLinear s rest with
    | Some walks, Some more => Some (walks ++ more)
    | _, _ => None
    end
  end.

(** The deduplication of [checkForCyclicRedundancyInNodeLinks] on the
    contents of the cycles. *)
Definition trimWalks (cycles : list (list nodeLink)) : outcome (list (list nodeLink)) :=
  trimLoop id cycles [].

(** The system of three nodes [a], [b], [c], each added once, with the links
    [a -> b], [b -> c] and [c -> a]. *)
Definition triangleSystem (a b c : NodeRef) : NodeSystem :=
  let s1 := (AddNode NewNodeSystem (Some a)).1 in
  let s2 := (AddNode s1 (Some b)).1 in
  let s3 := (AddNode s2 (Some c)).1 in
  let s4 := (AddLink s3 (Some a) (Some b)).1 in
  let s5 := (AddLink s4 (Some b) (Some c)).1 in
  (AddLink s5 (Some c) (Some a)).1.

(** ** Activation *)

(** [tree[key][branch] = append(tree[key][branch], n)], creating the inner
    map when [key] is new.  The inner map and the bucket are only reachable
    through [tree].  The inner map is a [map[*bool]]: its keys are pointers,
    compared by identity. *)
Definition tree_add (tree : gmap Node (gmap branchPointer (list Node)))
    (key : Node) (branch : branchPointer) (n : Node)
  : gmap Node (gmap branchPointer (list Node)) :=
  let onBranch := default ∅ (tree !! key) in
  <[key := <[branch := default [] (onBranch !! branch) ++ [n]]> onBranch]> tree.

(** The loop over the links; [link.Branch] is the pointer the link holds. *)
Definition buildFollowing (ls : list nodeLink) : gmap Node (gmap branchPointer (list Node)) :=
  foldl (fun tree link => tree_add tree (From link) (pointerOf (Branch link)) (To link)) ∅ ls.

Definition buildAncestors (ls : list nodeLink) : gmap Node (gmap branchPointer (list Node)) :=
  foldl (fun tree link => tree_add tree (To link) (pointerOf (Branch link)) (From link)) ∅ ls.

Definition buildToNodes (ls : list nodeLink) : list Node :=
  foldl (fun toNodes link => toNodes ++ [To link]) [] ls.

Definition isInitialNode (toNodes : list Node) (node : Node) : bool :=
  negb (existsb (fun toNode => bool_decide (node = toNode)) toNodes).

Definition buildInitialNodes (ns toNodes : list Node) : list Node :=
  foldl (fun initial node => if isInitialNode toNodes node then initial ++ [node] else initial)
        [] ns.

Definition Activate (s : NodeSystem) : outcome (NodeSystem * option error) :=
  if activated s then Ret (s, None)
  else
    obind (IsValid s) (fun '(validity, _) =>
      if negb validity then
        Ret (s, Some (errors_New "can't activate a unvalidated node system"))
      else
        Ret ({| activated := true;
                nodes := nodes s;
                nodesJoinModes := nodesJoinModes s;
                links := links s;
                initialNodes := buildInitialNodes (nodes s) (buildToNodes (links s));
                followingNodesTree := buildFollowing (links s);
                ancestorsNodesTree := buildAncestors (links s) |}, None)).

(** ** Queries on an activated system

    A returned [[]Node] is [None] for the nil slice.  The branch is the
    caller's [*bool], looked up in the [map[*bool]] as it is: only a pointer
    that a link holds finds a bucket. *)

Definition Follow (s : NodeSystem) (n : Node) (branch : branchPointer)
  : option (list Node) * option error :=
  if negb (activated s) then
    (None, Some (errors_New "can't follow a node if system is not activated"))
  else
    match followingNodesTree s !! n with
    | Some links =>
      match links !! branch with
      | Some nodes => (Some nodes, None)
      | None => (None, None)
      end
    | None => (None, None)
    end.

Definition Ancestors (s : NodeSystem) (n : Node) (branch : branchPointer)
  : option (list Node) * option error :=
  if negb (activated s) then
    (None, Some (errors_New "can't get ancestors of a node if system is not activated"))
  else
    match ancestorsNodesTree s !! n with
    | Some links =>
      match links !! branch with
      | Some nodes => (Some nodes, None)
      | None => (None, None)
      end
    | None => (None, None)
    end.

(** The elements of a returned slice; nil has none. *)
Definition slice_elems {A} (r : option (list A)) : list A := default [] r.

(** The bucket of [key] and [branch] in an index. *)
Definition bucket (tree : gmap (Node) (gmap branchPointer (list (Node))))
    (key : Node) (branch : branchPointer) : option (list (Node)) :=
  match tree !! key with
  | Some onBranch => onBranch !! branch
  | None => None
  end.

(** What activation establishes, and every later operation keeps. *)
Definition indexed (s : NodeSystem) : Prop :=
  initialNodes s = buildInitialNodes (nodes s) (buildToNodes (links s))
  /\ followingNodesTree s = buildFollowing (links s)
  /\ ancestorsNodesTree s = buildAncestors (links s).

(** The systems a client can build: from [NewNodeSystem] through the
    exported operations. *)
Inductive reachable : NodeSystem -> Prop :=
| reach_New : reachable NewNodeSystem
| reach_AddNode s n : reachable s -> reachable (AddNode s n).1
| reach_ConfigureJoinModeOnNode s n m :
    reachable s -> reachable (ConfigureJoinModeOnNode s n m).1
| reach_AddLink s from to : reachable s -> reachable (AddLink s from to).1
| reach_AddLinkOnBranch s from to branch :
    reachable s -> reachable (AddLinkOnBranch s from to branch).1
| reach_Activate s s' e : reachable s -> Activate s = Ret (s', e) -> reachable s'.

(** ** Vocabulary for the properties of the builder and of the checks *)

(** A link as [addLink] accepts it: two different non-nil endpoints, and a
    branch exactly when the source is a decision node. *)
Definition wellFormedLink (link : nodeLink) : Prop :=
  exists f t, From link = Some f /\ To link = Some t /\ f <> t
              /\ (Branch link = None <-> DecideCapability f = false).

(** [evolves s s']: [s'] is [s] after any number of exported operations. *)
Inductive evolves : NodeSystem -> NodeSystem -> Prop :=
| evolves_refl s : evolves s s
| evolves_AddNode s s' n : evolves s s' -> evolves s (AddNode s' n).1
| evolves_ConfigureJoinModeOnNode s s' n m :
    evolves s s' -> evolves s (ConfigureJoinModeOnNode s' n m).1
| evolves_AddLink s s' from to : evolves s s' -> evolves s (AddLink s' from to).1
| evolves_AddLinkOnBranch s s' from to branch :
    evolves s s' -> evolves s (AddLinkOnBranch s' from to branch).1
| evolves_Activate s s' s'' e :
    evolves s s' -> Activate s' = Ret (s'', e) -> evolves s s''.

(** [isPath cur p target]: the links of [p] lead from [cur] to [target], each
    one starting where the one before ends. *)
Fixpoint isPath (cur : Node) (p : list nodeLink) (target : Node) : Prop :=
  match p with
  | [] => cur = target
  | link :: rest => From link = cur /\ isPath (To link) rest target
  end.

(** A cycle of links of the system through [top] that leaves no node
    twice. *)
Definition simpleCycle (s : NodeSystem) (top : Node) (p : list nodeLink) : Prop :=
  p <> [] /\ isPath top p top /\ (forall link, link ∈ p -> link ∈ links s)
  /\ NoDup (From <$> p).

(** Whether a node is a decision node; the nil node is none. *)
Definition decisionNode (n : Node) : bool :=
  match n with
  | Some r => DecideCapability r
  | None => false
  end.

(** What the five checks of [IsValid] ask of a system: no nil node declared,
    a link out of every declared decision node, no cycle through a declared
    node, every endpoint of a link declared, no node declared twice, and a
    join mode on every node with several inbound links. *)
Definition wellBuilt (s : NodeSystem) : Prop :=
  (None ∉ nodes s)
  /\ (forall node, node ∈ nodes s -> decisionNode node = true ->
        exists link, link ∈ links s /\ From link = node)
  /\ (forall top p, top ∈ nodes s -> ~ simpleCycle s top p)
  /\ (forall link, link ∈ links s ->
        (From link = None \/ From link ∈ nodes s) /\ (To link = None \/ To link ∈ nodes s))
  /\ NoDup (nodes s)
  /\ (forall n, 2 <= inboundLinks s n -> JoinModeOfNode s n <> JoinNone).

(** The state of a walk of [findCycle]: its links lead from [top] to [cur],
    are links of the system, and leave no node twice. *)
Definition walkTo (s : NodeSystem) (top cur : Node) (walk : list nodeLink) : Prop :=
  isPath top walk cur /\ (forall link, link ∈ walk -> link ∈ links s)
  /\ NoDup (From <$> walk).

(** The walk can be continued into a cycle through [top]. *)
Definition closes (s : NodeSystem) (top : Node) (walk : list nodeLink) : Prop :=
  exists q, simpleCycle s top (walk ++ q).

End NodeSystem.

(** ** A concrete instance

    Nodes are numbered; the even ones are decision nodes.  The runtime
    doubles the capacity of a slice that has to grow, as Go's does for
    short slices. *)
Module Example.

Definition decides (n : nat) : bool := Nat.even n.
Definition grow (oldcap needed : nat) : nat := Nat.max needed (2 * oldcap).

Definition A : @Node nat := Some 1.
Definition B : @Node nat := Some 3.
Definition C : @Node nat := Some 5.
Definition D : @Node nat := Some 2.

(** [A -> B], both declared. *)
Definition line : @NodeSystem nat _ _ :=
  (AddLink decides (AddNode (AddNode NewNodeSystem A).1 B).1 A B).1.

(** [line] after a successful activation. *)
Definition line_activated : @NodeSystem nat _ _ :=
  match Activate decides grow line with
  | Ret (s, _) => s
  | _ => line
  end.

(** [A -> C] and [B -> C], all declared, no join mode on [C]. *)
Definition fan_in : @NodeSystem nat _ _ :=
  (AddLink decides
     (AddLink decides (AddNode (AddNode (AddNode NewNodeSystem A).1 B).1 C).1 A C).1 B C).1.

(** The cycle [A -> B -> C -> A]. *)
Definition triangle : @NodeSystem nat _ _ := triangleSystem decides 1 3 5.

(** [A] declared three times. *)
Definition tripled : @NodeSystem nat _ _ :=
  (AddNode (AddNode (AddNode NewNodeSystem A).1 A).1 A).1.

(** [A] declared, [B] not, and the cycle [A -> B -> A]. *)
Definition undeclared_cycle : @NodeSystem nat _ _ :=
  (AddLink decides (AddLink decides (AddNode NewNodeSystem A).1 A B).1 B A).1.

(** [fan_in] with a nil node declared as well. *)
Definition fan_in_nil : @NodeSystem nat _ _ := (AddNode fan_in None).1.

Definition E : @Node nat := Some 7.
Definition F : @Node nat := Some 9.

(** [A -> B -> C -> E], then [E -> A] and [E -> F -> A]: two cycles through
    [A] that share their first three links. *)
Definition shared_path : @NodeSystem nat _ _ :=
  let s := (AddNode (AddNode (AddNode (AddNode (AddNode NewNodeSystem A).1 B).1 C).1 E).1 F).1 in
  let s := (AddLink decides s A B).1 in
  let s := (AddLink decides s B C).1 in
  let s := (AddLink decides s C E).1 in
  let s := (AddLink decides s E A).1 in
  let s := (AddLink decides s E F).1 in
  (AddLink decides s F A).1.

(** A runtime that grows a slice to exactly the needed length. *)
Definition grow_exact (oldcap needed : nat) : nat := needed.

(** The decision node [D] leads to [A] on true and to [B] on false, both
    lead to [C], which joins them with JoinOr. *)
Definition diamond : @NodeSystem nat _ _ :=
  let s := (AddNode (AddNode (AddNode (AddNode NewNodeSystem D).1 A).1 B).1 C).1 in
  let s := (ConfigureJoinModeOnNode s C JoinOr).1 in
  let s := (AddLinkOnBranch decides s D A true).1 in
  let s := (AddLinkOnBranch decides s D B false).1 in
  let s := (AddLink decides s A C).1 in
  (AddLink decides s B C).1.

(** [diamond] after a successful activation. *)
Definition diamond_activated : @NodeSystem nat _ _ :=
  match Activate decides grow diamond with
  | Ret (s, _) => s
  | _ => diamond
  end.

(** [diamond] declared backwards: the links first, then the join mode and
    the nodes, each list in the reverse order. *)
Definition diamond_reordered : @NodeSystem nat _ _ :=
  let s := (AddLink decides NewNodeSystem B C).1 in
  let s := (AddLink decides s A C).1 in
  let s := (AddLinkOnBranch decides s D B false).1 in
  let s := (AddLinkOnBranch decides s D A true).1 in
  let s := (ConfigureJoinModeOnNode s C JoinOr).1 in
  (AddNode (AddNode (AddNode (AddNode s C).1 B).1 A).1 D).1.

End Example.

(** * The comparer of run states (package flow)

    [runStateEqualOpts] compares two [RunState]s field by field.  The
    declaration of [RunState] is not part of the sources; the comparer
    reads three fields of it: [value], compared with [!=], [branch], a
    [*bool], and [err], an [error] compared through its message.  The type
    of [value] is kept abstract, with a decidable equality for [!=], and so
    is the type of the errors, with [Error] for [err.Error()]. *)
Module Flow.

Section RunState.

Context {StateType : Type} `{EqDecision StateType} {Err : Type}.
Variable Error : Err -> string.

(** The three fields of [RunState] that the comparer reads. *)
Record RunState : Type := mkRunState {
  value : StateType;
  branch : option bool;
  err : option Err;
}.

Definition runStateEqualOpts (x y : RunState) : bool :=
  if bool_decide (value x <> value y) then false
  else if match branch x, branch y with
          | Some bx, Some b => bool_decide (bx <> b)
          | None, None => false
          | _, _ => true
          end
  then false
  else if match err x, err y with
          | Some ex, Some e => bool_decide (Error ex <> Error e)
          | None, None => false
          | _, _ => true
          end
  then false
  else true.

End RunState.

End Flow.

(** * Properties *)

Section Properties.

Context {NodeRef : Type} `{Countable NodeRef}.
Variable DecideCapability : NodeRef -> bool.
Variable growslice : nat -> nat -> nat.
Hypothesis growslice_fits : forall oldcap needed, needed <= growslice oldcap needed.

Implicit Types (s : @NodeSystem NodeRef _ _) (n from to : @Node NodeRef)
  (branch label : option bool) (pointer : branchPointer).

(** ** Builder operations on an activated system *)

(** C4: on an activated system AddNode, ConfigureJoinModeOnNode, AddLink and
    AddLinkOnBranch each return (false, err) with a message that contains
    "freeze due to activation", and the system (hence its nodes, links and
    join modes) is the one they were given. *)
Theorem frozen_builder_rejects s n m from to (b : bool) :
  activated s = true ->
  (exists err, AddNode s n = (s, (false, Some err))
               /\ Contains (error_text err) "freeze due to activation")
  /\ (exists err, ConfigureJoinModeOnNode s n m = (s, (false, Some err))
                  /\ Contains (error_text err) "freeze due to activation")
  /\ (exists err, AddLink DecideCapability s from to = (s, (false, Some err))
                  /\ Contains (error_text err) "freeze due to activation")
  /\ (exists err, AddLinkOnBranch DecideCapability s from to b = (s, (false, Some err))
                  /\ Contains (error_text err) "freeze due to activation").
Proof.
  intros Hact.
  unfold AddNode, ConfigureJoinModeOnNode, AddLink, AddLinkOnBranch, addLink.
  rewrite Hact. repeat split; eexists; (split; [reflexivity|]); cbn [error_text].
  - by exists "can't add node, node system is ", "".
  - by exists "can't add node join mode, node system is ", "".
  - by exists "can't add branch link, node system is ", "".
  - by exists "can't add branch link, node system is ", "".
Qed.

(** ** Malformed links *)

(** C7: on a system that is not activated, addLink returns (false, error)
    and gives back the system it was given (so no link is appended) when
    from or to is nil, when from and to are the same node, when from is a
    decision node and no branch is given ("can't have missing branch"), and
    when from is an action node and a branch is given ("can't have not
    needed branch"). *)
Theorem addLink_rejects_malformed s from to branch :
  activated s = false ->
  (from = None \/ to = None \/ from = to
   \/ (exists f, from = Some f /\ DecideCapability f = true /\ branch = None)
   \/ (exists f, from = Some f /\ DecideCapability f = false /\ branch <> None)) ->
  (exists err, addLink DecideCapability s from to branch = (s, (false, Some err)))
  /\ links (addLink DecideCapability s from to branch).1 = links s
  /\ (forall f, from = Some f -> DecideCapability f = true -> branch = None ->
        addLink DecideCapability s from to branch
        = (s, (false, Some (errors_New "can't have missing branch"))))
  /\ (forall f, from = Some f -> DecideCapability f = false -> branch <> None ->
        addLink DecideCapability s from to branch
        = (s, (false, Some (errors_New "can't have not needed branch")))).
Proof.
  intros Hact Hbad. unfold addLink. rewrite Hact.
  destruct from as [f|].
  2: { split; [eauto|]. split; [done|]. split; intros; discriminate. }
  destruct (DecideCapability f) eqn:Hd; destruct branch as [b|]; cbn [andb negb].
  - rewrite (bool_decide_eq_false_2 (Some b = None)) by done.
    rewrite (bool_decide_eq_true_2 (Some b <> None)) by done. cbn [andb].
    assert (Hto : to = None \/ Some f = to).
    { destruct Hbad as [?|[?|[?|[(f'&?&?&?)|(f'&?&?&?)]]]];
        [discriminate|by left|by right|congruence|congruence]. }
    split; [|split; [|split]]; [| |intros; discriminate|intros; congruence].
    + destruct Hto as [->| <-].
      * rewrite bool_decide_eq_true_2 by done. eauto.
      * rewrite bool_decide_eq_false_2 by done.
        rewrite bool_decide_eq_true_2 by done. eauto.
    + destruct Hto as [->| <-].
      * by rewrite bool_decide_eq_true_2 by done.
      * rewrite bool_decide_eq_false_2 by done.
        by rewrite bool_decide_eq_true_2 by done.
  - rewrite (bool_decide_eq_true_2 (None = None)) by done. cbn [andb].
    split; [eauto|]. split; [done|]. split; [done|]. intros; congruence.
  - rewrite (bool_decide_eq_false_2 (Some b = None)) by done.
    rewrite (bool_decide_eq_true_2 (Some b <> None)) by done. cbn [andb].
    split; [eauto|]. split; [done|]. split; [intros; congruence|done].
  - rewrite (bool_decide_eq_true_2 (None = None)) by done.
    rewrite (bool_decide_eq_false_2 (None <> None)) by (intros Hne; by apply Hne). cbn [andb].
    assert (Hto : to = None \/ Some f = to).
    { destruct Hbad as [?|[?|[?|[(f'&?&?&?)|(f'&?&?&?)]]]];
        [discriminate|by left|by right|congruence|congruence]. }
    split; [|split; [|split]]; [| |intros; congruence|intros; congruence].
    + destruct Hto as [->| <-].
      * rewrite bool_decide_eq_true_2 by done. eauto.
      * rewrite bool_decide_eq_false_2 by done.
        rewrite bool_decide_eq_true_2 by done. eauto.
    + destruct Hto as [->| <-].
      * by rewrite bool_decide_eq_true_2 by done.
      * rewrite bool_decide_eq_false_2 by done.
        by rewrite bool_decide_eq_true_2 by done.
Qed.

(** ** Queries before activation *)

(** C9: on a system that is not activated, Follow returns a nil result with
    the error "can't follow a node if system is not activated" and Ancestors
    a nil result with the error "can't get ancestors of a node if system is
    not activated". *)
Theorem queries_need_activation s n pointer :
  activated s = false ->
  Follow s n pointer
  = (None, Some (errors_New "can't follow a node if system is not activated"))
  /\ Ancestors s n pointer
     = (None, Some (errors_New "can't get ancestors of a node if system is not activated")).
Proof. intros Hact. unfold Follow, Ancestors. by rewrite Hact. Qed.

(** ** Activation *)

Lemma Activate_valid s :
  IsValid DecideCapability growslice s = Ret (true, []) ->
  exists s1,
    Activate DecideCapability growslice s = Ret (s1, None)
    /\ activated s1 = true
    /\ nodes s1 = nodes s /\ links s1 = links s /\ nodesJoinModes s1 = nodesJoinModes s.
Proof.
  intros Hvalid. unfold Activate.
  destruct (activated s) eqn:Hact.
  - by exists s.
  - rewrite Hvalid. cbn. eexists. split; [reflexivity|]. by repeat split.
Qed.

(** C8: on a valid system a first Activate returns nil, and a second
    Activate on the system it produced returns nil again and gives back that
    same system: nodes, links, join modes, initial nodes, both indices and
    the activation flag are unchanged. *)
Theorem Activate_idempotent s :
  IsValid DecideCapability growslice s = Ret (true, []) ->
  exists s1,
    Activate DecideCapability growslice s = Ret (s1, None)
    /\ IsActivated s1 = true
    /\ Activate DecideCapability growslice s1 = Ret (s1, None).
Proof.
  intros Hvalid. destruct (Activate_valid s Hvalid) as (s1 & Ha & Hact & _).
  exists s1. split; [done|]. split; [done|].
  unfold Activate. by rewrite Hact.
Qed.

(** ** The indices built by activation *)

Lemma bucket_tree_add tree key (br : branchPointer) x n pointer :
  bucket (tree_add tree key br x) n pointer
  = if decide (key = n /\ br = pointer)
    then Some (default [] (bucket tree n pointer) ++ [x])
    else bucket tree n pointer.
Proof.
  unfold bucket, tree_add.
  destruct (decide (key = n)) as [->|Hk].
  - rewrite lookup_insert_eq.
    destruct (decide (br = pointer)) as [->|Hb].
    + rewrite lookup_insert_eq. rewrite decide_True by done.
      by destruct (tree !! n).
    + rewrite lookup_insert_ne by done. rewrite decide_False by tauto.
      by destruct (tree !! n).
  - rewrite lookup_insert_ne by done. by rewrite decide_False by tauto.
Qed.

Lemma bucket_build (k v : @nodeLink NodeRef -> @Node NodeRef) (ls : list nodeLink) n pointer :
  bucket (foldl (fun tree link => tree_add tree (k link) (pointerOf (Branch link)) (v link)) ∅ ls)
         n pointer
  = match filter (fun link => k link = n /\ pointerOf (Branch link) = pointer) ls with
    | [] => None
    | sel => Some (v <$> sel)
    end.
Proof.
  induction ls as [|link ls IH] using rev_ind.
  - cbn. unfold bucket. by rewrite lookup_empty.
  - rewrite foldl_app. cbn [foldl]. rewrite bucket_tree_add, IH, filter_app.
    rewrite filter_cons, filter_nil.
    destruct (decide (k link = n /\ pointerOf (Branch link) = pointer)) as [Hd|Hd].
    + destruct (filter _ ls) as [|l0 sel]; cbn; [done|].
      by rewrite fmap_app.
    + by rewrite app_nil_r.
Qed.

(** The pointer of a label is that of no other label, and never a pointer
    made elsewhere. *)
Lemma pointerOf_inj label label' : pointerOf label = pointerOf label' -> label = label'.
Proof. destruct label, label'; cbn; congruence. Qed.

Lemma pointerOf_other label address b : pointerOf label <> otherPointer address b.
Proof. by destruct label. Qed.

Lemma pointerOf_cases pointer :
  (exists label, pointer = pointerOf label) \/ (exists address b, pointer = otherPointer address b).
Proof.
  destruct pointer as [|b|address b]; [left; by exists None|left; by exists (Some b)|right; eauto].
Qed.

(** The links that hold the pointer of a label are the links of that
    label; no link holds a pointer made elsewhere. *)
Lemma filter_pointerOf (k : @nodeLink NodeRef -> @Node NodeRef) (ls : list nodeLink) n label :
  filter (fun link => k link = n /\ pointerOf (Branch link) = pointerOf label) ls
  = filter (fun link => k link = n /\ Branch link = label) ls.
Proof.
  apply list_filter_iff. intros link. split; intros [? Hb]; split; try done.
  - by apply pointerOf_inj.
  - by rewrite Hb.
Qed.

Lemma filter_otherPointer (k : @nodeLink NodeRef -> @Node NodeRef) (ls : list nodeLink) n
    address b :
  filter (fun link => k link = n /\ pointerOf (Branch link) = otherPointer address b) ls = [].
Proof.
  apply elem_of_nil_inv. intros link [[_ Hb] _]%list_elem_of_filter.
  by apply pointerOf_other in Hb.
Qed.

Lemma Follow_bucket s n pointer :
  activated s = true -> Follow s n pointer = (bucket (followingNodesTree s) n pointer, None).
Proof.
  intros Hact. unfold Follow, bucket. rewrite Hact. cbn [negb].
  destruct (followingNodesTree s !! n) as [onBranch|]; [|done].
  by destruct (onBranch !! pointer).
Qed.

Lemma Ancestors_bucket s n pointer :
  activated s = true -> Ancestors s n pointer = (bucket (ancestorsNodesTree s) n pointer, None).
Proof.
  intros Hact. unfold Ancestors, bucket. rewrite Hact. cbn [negb].
  destruct (ancestorsNodesTree s !! n) as [onBranch|]; [|done].
  by destruct (onBranch !! pointer).
Qed.

Lemma buildToNodes_spec (ls : list (@nodeLink NodeRef)) : buildToNodes ls = To <$> ls.
Proof.
  unfold buildToNodes. induction ls as [|link ls IH] using rev_ind; [done|].
  by rewrite foldl_app, fmap_app, IH.
Qed.

Lemma isInitialNode_spec (toNodes : list (@Node NodeRef)) node :
  isInitialNode toNodes node = true <-> node ∉ toNodes.
Proof.
  unfold isInitialNode. rewrite negb_true_iff, <- not_true_iff_false, existsb_exists.
  split.
  - intros Hno Hin. apply Hno. exists node. split; [by apply list_elem_of_In|].
    by apply bool_decide_eq_true_2.
  - intros Hno (x & Hin & Hx). apply bool_decide_eq_true_1 in Hx as <-.
    by apply Hno, list_elem_of_In.
Qed.

Lemma buildInitialNodes_spec (ns toNodes : list (@Node NodeRef)) :
  buildInitialNodes ns toNodes = filter (fun node => node ∉ toNodes) ns.
Proof.
  unfold buildInitialNodes. induction ns as [|node ns IH] using rev_ind; [done|].
  rewrite foldl_app, filter_app, IH. cbn [foldl]. rewrite filter_cons, filter_nil.
  destruct (isInitialNode toNodes node) eqn:Hi.
  - apply isInitialNode_spec in Hi. by rewrite decide_True by done.
  - rewrite decide_False; [by rewrite app_nil_r|].
    intros Hn. apply isInitialNode_spec in Hn. congruence.
Qed.

Lemma Activate_cases s s' e :
  Activate DecideCapability growslice s = Ret (s', e) ->
  (activated s = true /\ s' = s /\ e = None)
  \/ (activated s = false /\ s' = s /\ e <> None)
  \/ (activated s = false /\ e = None /\ activated s' = true
      /\ nodes s' = nodes s /\ links s' = links s
      /\ nodesJoinModes s' = nodesJoinModes s /\ indexed s'
      /\ IsValid DecideCapability growslice s = Ret (true, [])).
Proof.
  unfold Activate. destruct (activated s) eqn:Hact.
  - intros [= <- <-]. by left.
  - unfold IsValid.
    destruct (checkForOrphanMultiBranchesNode _ s) as [e1| |]; cbn [obind]; [|done..].
    destruct (checkForCyclicRedundancyInNodeLinks _ s) as [e2| |]; cbn [obind]; [|done..].
    case_bool_decide; cbn [negb].
    + intros [= <- <-]. right; right. by repeat split.
    + intros [= <- <-]. right; left. by repeat split.
Qed.

Lemma reachable_indexed s :
  reachable DecideCapability growslice s -> activated s = true -> indexed s.
Proof.
  induction 1 as [|s n Hs IH|s n m Hs IH|s from to Hs IH|s from to b Hs IH|s s' e Hs IH Ha].
  - done.
  - unfold AddNode. destruct (activated s) eqn:Hact; cbn; [auto|congruence].
  - unfold ConfigureJoinModeOnNode. destruct (activated s) eqn:Hact; cbn; [auto|congruence].
  - unfold AddLink, addLink. destruct (activated s) eqn:Hact; cbn; [auto|].
    repeat case_match; cbn; congruence.
  - unfold AddLinkOnBranch, addLink. destruct (activated s) eqn:Hact; cbn; [auto|].
    repeat case_match; cbn; congruence.
  - apply Activate_cases in Ha as [(?&->&?)|[(?&->&?)|(?&?&?&?&?&?&?&?)]]; auto.
Qed.

(** C3, for the pointers a link can hold: on an activated system Follow(n, b),
    called with nil or with the package's pointer for a boolean, returns no
    error and the [to] endpoints of the links whose [from] is n and whose
    branch label is the one b stands for, in the order the links were added;
    when there is no such link the result is the nil slice, which is empty.
    Called with any other pointer, whatever boolean it points to, Follow
    returns the nil slice and no error: the index is keyed by the pointers
    themselves. *)
Theorem Follow_activated s n :
  reachable DecideCapability growslice s ->
  activated s = true ->
  (forall label,
     exists r,
       Follow s n (pointerOf label) = (r, None)
       /\ slice_elems r
          = To <$> filter (fun link => From link = n /\ Branch link = label) (links s)
       /\ (filter (fun link => From link = n /\ Branch link = label) (links s) = []
           -> r = None))
  /\ (forall address b, Follow s n (otherPointer address b) = (None, None)).
Proof.
  intros Hreach Hact. destruct (reachable_indexed s Hreach Hact) as (_ & Hfol & _).
  assert (Hb : forall pointer,
             bucket (followingNodesTree s) n pointer
             = match filter (fun link => From link = n /\ pointerOf (Branch link) = pointer)
                            (links s) with
               | [] => None
               | sel => Some (To <$> sel)
               end).
  { intros pointer. rewrite Hfol. apply (bucket_build From To). }
  split.
  - intros label. exists (bucket (followingNodesTree s) n (pointerOf label)).
    rewrite Follow_bucket, Hb, filter_pointerOf by done.
    split; [done|]. split.
    + by destruct (filter _ (links s)).
    + by intros ->.
  - intros address b. by rewrite Follow_bucket, Hb, filter_otherPointer.
Qed.

(** C5: after a successful Activate of a valid system, which leaves the
    nodes and the links as they were, InitialNodes is the nodes list of that
    system restricted to the nodes that are the [to] of none of its links,
    in the order of the nodes list; no initial node is a link target. *)
Theorem InitialNodes_activated s :
  reachable DecideCapability growslice s ->
  IsValid DecideCapability growslice s = Ret (true, []) ->
  exists s',
    Activate DecideCapability growslice s = Ret (s', None)
    /\ IsActivated s' = true /\ nodes s' = nodes s /\ links s' = links s
    /\ InitialNodes s' = filter (fun node => node ∉ (To <$> links s)) (nodes s)
    /\ (forall node, node ∈ InitialNodes s' <-> node ∈ nodes s /\ node ∉ (To <$> links s)).
Proof.
  intros Hreach Hvalid.
  destruct (Activate_valid s Hvalid) as (s' & Ha & Hact' & Hn & Hl & _).
  exists s'. split; [done|]. split; [done|]. split; [done|]. split; [done|].
  assert (Hi : initialNodes s' = filter (fun node => node ∉ (To <$> links s)) (nodes s)).
  { destruct (reachable_indexed s') as (Hi & _); [by eapply reach_Activate|done|].
    by rewrite Hi, buildInitialNodes_spec, buildToNodes_spec, Hn, Hl. }
  unfold InitialNodes. split; [done|].
  intros node. rewrite Hi, list_elem_of_filter. tauto.
Qed.

(** ** The slice heap *)

Implicit Types (h : list (list (@nodeLink NodeRef))) (w v : slice) (x : @nodeLink NodeRef).

Lemma frame_refl h w : frame h w h.
Proof. split; [done|]. intros i a Hi. exists a. by repeat split. Qed.

Lemma frame_trans h w h1 h2 : frame h w h1 -> frame h1 w h2 -> frame h w h2.
Proof.
  intros [Hl1 H1] [Hl2 H2]. split; [lia|].
  intros i a Hi. destruct (H1 i a Hi) as (a1 & Hi1 & Hlen1 & Hj1).
  destruct (H2 i a1 Hi1) as (a2 & Hi2 & Hlen2 & Hj2).
  exists a2. split; [done|]. split; [congruence|].
  intros j Hj. by rewrite Hj2, Hj1.
Qed.

Lemma frame_heap_array h w h' i :
  frame h w h' -> length (heap_array h i) <= length (heap_array h' i).
Proof.
  intros [_ Hf]. unfold heap_array. destruct (h !! i) as [a|] eqn:Hi; cbn; [|lia].
  destruct (Hf i a Hi) as (a' & -> & Hlen & _). cbn. lia.
Qed.

Lemma slice_wf_frame h w h' v : slice_wf h v -> frame h w h' -> slice_wf h' v.
Proof.
  intros [Hlc Hca] Hf. split; [done|].
  pose proof (frame_heap_array h w h' (s_arr v) Hf). lia.
Qed.

Lemma slice_wf_nil h : slice_wf h nil_slice.
Proof. split; cbn; lia. Qed.

Lemma slice_read_length h w : slice_wf h w -> length (slice_read h w) = s_len w.
Proof. intros [? ?]. unfold slice_read. rewrite length_take. lia. Qed.

(** A slice keeps its content when none of its cells could be written. *)
Lemma slice_read_frame_other h w h' v :
  frame h w h' -> slice_wf h v ->
  (forall j, j < s_len v -> s_arr v <> s_arr w \/ j < s_len w \/ s_cap w <= j) ->
  slice_read h' v = slice_read h v.
Proof.
  intros [_ Hf] [Hlc Hca] Hsafe. unfold slice_read. apply list_eq. intros j.
  destruct (decide (j < s_len v)) as [Hj|Hj].
  - rewrite !lookup_take_lt by done. unfold heap_array in *.
    destruct (h !! s_arr v) as [a|] eqn:Hi; cbn in *; [|lia].
    destruct (Hf _ a Hi) as (a' & -> & _ & Hsame). cbn. apply Hsame. by apply Hsafe.
  - by rewrite !lookup_take_ge by lia.
Qed.

Lemma slice_read_frame h w h' :
  frame h w h' -> slice_wf h w -> slice_read h' w = slice_read h w.
Proof. intros Hf Hwf. apply (slice_read_frame_other h w); auto. Qed.

Lemma slice_append_len h w x : s_len (slice_append growslice h w x).2 = S (s_len w).
Proof. unfold slice_append. by case_bool_decide. Qed.

Lemma slice_append_wf h w x :
  slice_wf h w -> slice_wf (slice_append growslice h w x).1 (slice_append growslice h w x).2.
Proof.
  intros [Hlc Hca]. unfold slice_append, slice_wf.
  case_bool_decide as Hlt; cbn [fst snd s_arr s_len s_cap].
  - split; [lia|]. unfold heap_array in *. rewrite list_lookup_alter_eq.
    destruct (h !! s_arr w) as [a|]; cbn [from_option id fmap option_fmap option_map] in *.
    + by rewrite length_insert.
    + cbn in Hca. lia.
  - pose proof (growslice_fits (s_cap w) (S (s_len w))).
    split; [lia|]. unfold heap_array at 1.
    rewrite lookup_app_r, Nat.sub_diag by done. cbn [lookup list_lookup from_option id].
    rewrite length_app, slice_read_length by done. cbn [length].
    rewrite length_replicate. lia.
Qed.

Lemma slice_append_read h w x :
  slice_wf h w ->
  slice_read (slice_append growslice h w x).1 (slice_append growslice h w x).2
  = slice_read h w ++ [x].
Proof.
  intros [Hlc Hca]. unfold slice_append.
  case_bool_decide as Hlt; cbn [fst snd].
  - unfold slice_read, heap_array in *. cbn [s_arr s_len s_cap].
    rewrite list_lookup_alter_eq.
    destruct (h !! s_arr w) as [a|]; cbn [from_option id fmap option_fmap option_map] in *.
    + rewrite (take_S_r _ _ x) by (apply list_lookup_insert_eq; lia).
      by rewrite take_insert_ge by done.
    + cbn in Hca. lia.
  - unfold slice_read at 1, heap_array at 1. cbn [s_arr s_len s_cap].
    rewrite lookup_app_r, Nat.sub_diag by done. cbn [lookup list_lookup from_option id].
    rewrite (cons_middle x), app_assoc.
    apply take_app_length'. rewrite length_app, slice_read_length by done. cbn. lia.
Qed.

(** After [append(w, x)], whatever respects the new slice respects [w]. *)
Lemma frame_append_step h w x h2 :
  slice_wf h w ->
  frame (slice_append growslice h w x).1 (slice_append growslice h w x).2 h2 ->
  frame h w h2.
Proof.
  intros [Hlc Hca]. unfold slice_append, frame.
  case_bool_decide as Hlt; cbn [fst snd s_arr s_len s_cap]; intros [Hl Hf].
  - rewrite length_alter in Hl. split; [done|]. intros i a Hi.
    destruct (decide (i = s_arr w)) as [->|Hne].
    + destruct (Hf (s_arr w) (<[s_len w := x]> a)) as (a' & Hi' & Hlen & Hsame).
      { by rewrite list_lookup_alter_eq, Hi. }
      exists a'. split; [done|]. split; [by rewrite Hlen, length_insert|].
      intros j Hj. rewrite Hsame by lia.
      apply list_lookup_insert_ne. lia.
    + destruct (Hf i a) as (a' & Hi' & Hlen & Hsame).
      { by rewrite list_lookup_alter_ne. }
      exists a'. split; [done|]. split; [done|].
      intros j Hj. apply Hsame. by left.
  - rewrite length_app in Hl. cbn [length] in Hl. split; [lia|]. intros i a Hi.
    pose proof (lookup_lt_Some _ _ _ Hi) as Hlt'.
    destruct (Hf i a) as (a' & Hi' & Hlen & Hsame).
    { by rewrite lookup_app_l. }
    exists a'. split; [done|]. split; [done|].
    intros j Hj. apply Hsame. left. lia.
Qed.

Lemma slice_append_frame h w x :
  slice_wf h w -> frame h w (slice_append growslice h w x).1.
Proof. intros Hwf. eapply frame_append_step; [done|]. apply frame_refl. Qed.

(** ** Termination of the cycle search *)

Implicit Types (walk : list (@nodeLink NodeRef)).

Lemma linkSources_length s : length (linkSources s) <= length (links s).
Proof.
  unfold linkSources. rewrite <- (length_fmap From (links s)).
  apply submseteq_length, NoDup_submseteq; [apply NoDup_remove_dups|].
  intros n. by rewrite elem_of_remove_dups.
Qed.

Lemma remaining_le s walk : remaining s walk <= length (linkSources s).
Proof. apply length_filter. Qed.

(** Leaving one more source strictly shrinks what remains. *)
Lemma remaining_extend s walk link :
  link ∈ links s -> From link ∉ (From <$> walk) ->
  remaining s (walk ++ [link]) < remaining s walk.
Proof.
  intros Hin Hnew. unfold remaining.
  rewrite (list_filter_iff _ (fun n => n <> From link /\ n ∉ (From <$> walk))).
  2: { intros n. rewrite fmap_app, not_elem_of_app. cbn.
       rewrite list_elem_of_singleton. tauto. }
  rewrite <- list_filter_filter.
  apply (length_filter_lt _ _ (From link)); [|by intros Hx; apply Hx].
  apply list_elem_of_filter. split; [done|].
  unfold linkSources. rewrite elem_of_remove_dups. by apply list_elem_of_fmap_2.
Qed.

Lemma walkLinks_returns s
    (rec : list (list nodeLink) -> Node -> slice -> option (list (list nodeLink) * list slice))
    (budget : nat) w walk :
  (forall h1 n w1,
     slice_wf h1 w1 -> remaining s (slice_read h1 w1) < budget ->
     exists h' ws, rec h1 n w1 = Some (h', ws) /\ frame h1 w1 h'
       /\ Forall (fun v => slice_wf h' v
                           /\ s_len v <= s_len w1 + remaining s (slice_read h1 w1)) ws) ->
  forall selectedLinks h cycles,
    slice_wf h w -> slice_read h w = walk ->
    (forall link, link ∈ selectedLinks ->
       remaining s (walk ++ [link]) < budget
       /\ remaining s (walk ++ [link]) < remaining s walk) ->
    Forall (fun v => slice_wf h v /\ s_len v <= s_len w + remaining s walk) cycles ->
    exists h' ws,
      walkLinks growslice rec selectedLinks h w cycles = Some (h', ws)
      /\ frame h w h'
      /\ Forall (fun v => slice_wf h' v /\ s_len v <= s_len w + remaining s walk) ws.
Proof.
  intros Hrec selectedLinks.
  induction selectedLinks as [|link rest IH]; intros h cycles Hwf Hread Hsel Hcycles.
  - exists h, cycles. cbn. split; [done|]. split; [apply frame_refl|done].
  - cbn [walkLinks].
    pose proof (slice_append_wf h w link Hwf) as Hwf1.
    pose proof (slice_append_read h w link Hwf) as Hread1.
    pose proof (slice_append_len h w link) as Hlen1.
    destruct (slice_append growslice h w link) as [h1 w1] eqn:Happ. cbn [fst snd] in *.
    rewrite Hread in Hread1.
    destruct (Hsel link) as [Hb Hdec]; [by left|].
    destruct (Hrec h1 (To link) w1) as (h2 & lc & -> & Hf2 & Hlc); [done|by rewrite Hread1|].
    assert (Hf : frame h w h2).
    { apply (frame_append_step h w link); [done|]. by rewrite Happ. }
    destruct (IH h2 (cycles ++ lc)) as (h' & ws & Hw & Hf' & Hws).
    + by eapply slice_wf_frame.
    + by rewrite (slice_read_frame h w h2).
    + intros l Hl. apply Hsel. by right.
    + apply Forall_app. split.
      * eapply Forall_impl; [exact Hcycles|]. intros v [Hv ?].
        split; [by eapply slice_wf_frame|done].
      * eapply Forall_impl; [exact Hlc|]. intros v [Hv Hle].
        split; [done|]. rewrite Hread1 in Hle. lia.
    + exists h', ws. split; [done|]. split; [by eapply frame_trans|done].
Qed.

(** Every call of [findCycle] returns when its budget exceeds the number of
    sources the walk has not left; it leaves the walk untouched and returns
    walks that are no longer than the walk plus that number. *)
Lemma findCycle_returns s fuel :
  forall h topNode currentNode w,
    slice_wf h w -> remaining s (slice_read h w) < fuel ->
    exists h' ws,
      findCycle growslice fuel s h topNode currentNode w = Some (h', ws)
      /\ frame h w h'
      /\ Forall (fun v => slice_wf h' v
                          /\ s_len v <= s_len w + remaining s (slice_read h w)) ws.
Proof.
  induction fuel as [|fuel IH]; intros h topNode currentNode w Hwf Hfuel; [lia|].
  cbn [findCycle].
  destruct (bool_decide (0 < s_len w) && bool_decide (topNode = currentNode)) eqn:Htop.
  { exists h, [w]. split; [done|]. split; [apply frame_refl|].
    apply Forall_singleton. split; [done|lia]. }
  destruct (bool_decide (0 < s_len w) && existsb _ (slice_read h w)) eqn:Hseen.
  { exists h, []. split; [done|]. split; [apply frame_refl|done]. }
  destruct (bool_decide (length (filter _ (links s)) = 0)) eqn:Hsel.
  { exists h, []. split; [done|]. split; [apply frame_refl|done]. }
  assert (Hfresh : currentNode ∉ (From <$> slice_read h w)).
  { intros (link & Hc & Hin)%list_elem_of_fmap.
    apply andb_false_iff in Hseen as [Hz|Hex].
    - apply bool_decide_eq_false in Hz.
      pose proof (slice_read_length h w Hwf).
      destruct (slice_read h w); [by apply elem_of_nil in Hin|cbn in *; lia].
    - apply not_true_iff_false in Hex. apply Hex, existsb_exists.
      exists link. split; [by apply list_elem_of_In|by apply bool_decide_eq_true_2]. }
  apply (walkLinks_returns s _ fuel w (slice_read h w)); auto.
  intros link [HF Hin]%list_elem_of_filter.
  assert (remaining s (slice_read h w ++ [link]) < remaining s (slice_read h w)).
  { apply remaining_extend; [done|]. by rewrite HF. }
  lia.
Qed.

Lemma cyclesLoop_returns s ns :
  forall h cycles,
    Forall (fun v => slice_wf h v /\ s_len v <= length (linkSources s)) cycles ->
    exists h' cs,
      cyclesLoop growslice s ns h cycles = Some (h', cs)
      /\ Forall (fun v => slice_wf h' v /\ s_len v <= length (linkSources s)) cs.
Proof.
  induction ns as [|node ns IH]; intros h cycles Hcycles; [by exists h, cycles|].
  cbn [cyclesLoop].
  destruct (findCycle_returns s (cycleFuel s) h node node nil_slice)
    as (h1 & ws & -> & Hf & Hws).
  { apply slice_wf_nil. }
  { pose proof (remaining_le s (slice_read h nil_slice)).
    pose proof (linkSources_length s). unfold cycleFuel. lia. }
  apply IH, Forall_app. split.
  - eapply Forall_impl; [exact Hcycles|]. intros v [Hv ?].
    split; [by eapply slice_wf_frame|done].
  - eapply Forall_impl; [exact Hws|]. intros v [Hv Hle]. split; [done|].
    pose proof (remaining_le s (slice_read h nil_slice)).
    change (s_len nil_slice) with 0 in Hle. lia.
Qed.

Lemma cmp_Equal_outcome {A} (comparer : A -> A -> bool) (x y : A) :
  cmp_Equal comparer x y = Ret (comparer x y) \/ cmp_Equal comparer x y = Panic.
Proof. unfold cmp_Equal. destruct (Bool.eqb _ _); auto. Qed.

Lemma alreadyTrimmedLoop_outcome {A} (content : A -> list (@nodeLink NodeRef)) cycle trimmed b :
  (exists b', alreadyTrimmedLoop content cycle trimmed b = Ret b')
  \/ alreadyTrimmedLoop content cycle trimmed b = Panic.
Proof.
  revert b. induction trimmed as [|t trimmed IH]; intros b; cbn [alreadyTrimmedLoop]; [eauto|].
  destruct (cmp_Equal_outcome nodeLinkSliceComparator (content cycle) (content t)) as [-> | ->];
    cbn [obind]; auto.
Qed.

Lemma trimLoop_outcome {A} (content : A -> list (@nodeLink NodeRef)) cycles trimmed :
  (exists r, trimLoop content cycles trimmed = Ret r)
  \/ trimLoop content cycles trimmed = Panic.
Proof.
  revert trimmed. induction cycles as [|c cycles IH]; intros trimmed; cbn [trimLoop]; [eauto|].
  destruct (alreadyTrimmedLoop_outcome content c trimmed false) as [[b ->] | ->];
    cbn [obind]; auto.
Qed.

(** The cycle check never exhausts its budget: it returns cycle errors, or
    panics in a comparison. *)
Lemma checkForCyclicRedundancyInNodeLinks_outcome s :
  (exists errs, checkForCyclicRedundancyInNodeLinks growslice s = Ret errs
                /\ forall e, e ∈ errs -> exists cycle, e = ErrCycle cycle)
  \/ checkForCyclicRedundancyInNodeLinks growslice s = Panic.
Proof.
  unfold checkForCyclicRedundancyInNodeLinks.
  destruct (cyclesLoop_returns s (nodes s) [] []) as (h & cs & -> & _); [done|].
  unfold trimCycles.
  destruct (trimLoop_outcome (slice_read h) cs []) as [[r ->] | ->]; cbn [obind]; [|auto].
  left. eexists. split; [done|]. intros e (c & -> & _)%list_elem_of_fmap. eauto.
Qed.

(** ** The cycle search on a link graph without cycle *)

Lemma walkLinks_nothing
    (rec : list (list nodeLink) -> Node -> slice -> option (list (list nodeLink) * list slice))
    (selectedLinks : list (@nodeLink NodeRef)) w :
  (forall link h1 w1 h' ws,
     link ∈ selectedLinks -> 0 < s_len w1 -> rec h1 (To link) w1 = Some (h', ws) -> ws = []) ->
  forall h h' ws, walkLinks growslice rec selectedLinks h w [] = Some (h', ws) -> ws = [].
Proof.
  induction selectedLinks as [|link rest IH]; intros Hrec h h' ws; cbn [walkLinks].
  - by intros [= _ <-].
  - pose proof (slice_append_len h w link) as Hlen.
    destruct (slice_append growslice h w link) as [h1 w1]. cbn [snd] in Hlen.
    destruct (rec h1 (To link) w1) as [[h2 lc]|] eqn:Hcall; [|done].
    rewrite (Hrec link h1 w1 h2 lc); [|by left|lia|done]. cbn [app].
    apply IH. intros link' ? ? ? ? Hin. apply Hrec. by right.
Qed.

(** With ranks going up along the links, a walk never comes back to its
    start. *)
Lemma findCycle_nothing s (rank : @Node NodeRef -> nat) fuel :
  (forall link, link ∈ links s -> rank (From link) < rank (To link)) ->
  forall h topNode currentNode w h' ws,
    rank topNode <= rank currentNode ->
    (0 < s_len w -> rank topNode < rank currentNode) ->
    findCycle growslice fuel s h topNode currentNode w = Some (h', ws) ->
    ws = [].
Proof.
  intros Hrank. induction fuel as [|fuel IH]; intros h topNode currentNode w h' ws Hle Hlt;
    [done|].
  cbn [findCycle].
  destruct (bool_decide (0 < s_len w) && bool_decide (topNode = currentNode)) eqn:Htop.
  { apply andb_true_iff in Htop as [Hpos%bool_decide_eq_true_1 Heq%bool_decide_eq_true_1].
    specialize (Hlt Hpos). rewrite Heq in Hlt. lia. }
  destruct (bool_decide (0 < s_len w) && existsb _ (slice_read h w)); [by intros [= _ <-]|].
  destruct (bool_decide (length (filter _ (links s)) = 0)); [by intros [= _ <-]|].
  apply walkLinks_nothing.
  intros link h1 w1 h2 lc [HF Hin]%list_elem_of_filter Hpos.
  specialize (Hrank link Hin). rewrite HF in Hrank.
  apply IH; [lia|intros _; lia].
Qed.

Lemma cyclesLoop_nothing s ns :
  acyclic s ->
  forall h h' cs, cyclesLoop growslice s ns h [] = Some (h', cs) -> cs = [].
Proof.
  intros [rank Hrank]. induction ns as [|node ns IH]; intros h h' cs; cbn [cyclesLoop].
  - by intros [= _ <-].
  - destruct (findCycle growslice (cycleFuel s) s h node node nil_slice) as [[h1 ws]|] eqn:Hcall;
      [|done].
    assert (ws = []) as ->.
    { apply (findCycle_nothing s rank _ Hrank _ _ _ _ _ _ (le_n _)) in Hcall; [done|].
      cbn. lia. }
    apply IH.
Qed.

(** On a link graph without cycle the cycle check returns no error. *)
Lemma checkForCyclicRedundancyInNodeLinks_acyclic s :
  acyclic s -> checkForCyclicRedundancyInNodeLinks growslice s = Ret [].
Proof.
  intros Hacyclic. unfold checkForCyclicRedundancyInNodeLinks.
  destruct (cyclesLoop_returns s (nodes s) [] []) as (h & cs & Hloop & _); [done|].
  rewrite Hloop. by rewrite (cyclesLoop_nothing s (nodes s) Hacyclic _ _ _ Hloop).
Qed.

Lemma orphanLoop_returns s ns errors :
  None ∉ ns ->
  exists errs, orphanLoop DecideCapability s ns errors = Ret errs
               /\ forall e, e ∈ errs -> e ∈ errors \/ exists node, e = ErrOrphanDecision node.
Proof.
  revert errors. induction ns as [|node ns IH]; intros errors Hnil.
  - exists errors. split; [done|]. by left.
  - apply not_elem_of_cons in Hnil as [Hnode Hns]. cbn [orphanLoop].
    destruct node as [r|]; [|done].
    destruct (DecideCapability r); [|by apply IH].
    destruct (hasLinkFrom s (Some r)); [by apply IH|].
    destruct (IH (errors ++ [ErrOrphanDecision (Some r)]) Hns) as (errs & -> & Herrs).
    exists errs. split; [done|]. intros e He.
    destruct (Herrs e He) as [Hin|?]; [|eauto].
    apply elem_of_app in Hin as [?|Hin]; [eauto|].
    apply list_elem_of_singleton in Hin as ->. eauto.
Qed.

Lemma orphanLoop_panics s ns errors :
  None ∈ ns -> orphanLoop DecideCapability s ns errors = Panic.
Proof.
  revert errors. induction ns as [|node ns IH]; intros errors Hnil.
  - by apply elem_of_nil in Hnil.
  - cbn [orphanLoop]. destruct node as [r|]; [|done].
    apply elem_of_cons in Hnil as [?|Hnil]; [done|].
    destruct (DecideCapability r); [|by apply IH].
    destruct (hasLinkFrom s (Some r)); by apply IH.
Qed.

(** [IsValid] on a system without a nil node and whose cycle check
    returns: it returns, and its errors are those of the five checks. *)
Lemma IsValid_returns s e2 :
  None ∉ nodes s ->
  checkForCyclicRedundancyInNodeLinks growslice s = Ret e2 ->
  exists e1,
    (forall e, e ∈ e1 -> exists node, e = ErrOrphanDecision node)
    /\ (forall e, e ∈ e2 -> exists cycle, e = ErrCycle cycle)
    /\ IsValid DecideCapability growslice s
       = let errors := e1 ++ e2
                       ++ checkForUndeclaredNodeInNodeLink s
                       ++ checkForMultipleInstanceOfSameNode s
                       ++ checkForMultipleLinksToNodeWithoutJoinMode s in
         if bool_decide (length errors = 0) then Ret (true, []) else Ret (false, errors).
Proof.
  intros Hnil Hcyc. unfold IsValid, checkForOrphanMultiBranchesNode.
  destruct (orphanLoop_returns s (nodes s) [] Hnil) as (e1 & -> & He1).
  rewrite Hcyc. exists e1. split; [|split; [|done]].
  - intros e He. destruct (He1 e He) as [Hin|?]; [by apply elem_of_nil in Hin|done].
  - destruct (checkForCyclicRedundancyInNodeLinks_outcome s) as [(errs & Herrs & Hall)|Hp];
      [|congruence].
    rewrite Hcyc in Herrs. by injection Herrs as <-.
Qed.

Lemma IsValid_panics s :
  None ∈ nodes s \/ checkForCyclicRedundancyInNodeLinks growslice s = Panic ->
  IsValid DecideCapability growslice s = Panic.
Proof.
  intros Hwhy. unfold IsValid, checkForOrphanMultiBranchesNode.
  destruct (decide (None ∈ nodes s)) as [Hnil|Hnil].
  - by rewrite orphanLoop_panics.
  - destruct (orphanLoop_returns s (nodes s) [] Hnil) as (e1 & -> & _).
    destruct Hwhy as [?|Hp]; [done|]. by rewrite Hp.
Qed.

(** [IsValid] returns, or it panics: on a nil node or in a comparison. *)
Lemma IsValid_outcome s :
  ((None ∉ nodes s)
   /\ exists e2 r, checkForCyclicRedundancyInNodeLinks growslice s = Ret e2
                   /\ IsValid DecideCapability growslice s = Ret r)
  \/ ((None ∈ nodes s \/ checkForCyclicRedundancyInNodeLinks growslice s = Panic)
      /\ IsValid DecideCapability growslice s = Panic).
Proof.
  destruct (decide (None ∈ nodes s)) as [Hnil|Hnil].
  { right. split; [by left|]. apply IsValid_panics. by left. }
  destruct (checkForCyclicRedundancyInNodeLinks_outcome s) as [(e2 & He2 & _)|Hp].
  - left. split; [done|]. destruct (IsValid_returns s e2 Hnil He2) as (e1 & _ & _ & ->).
    cbn zeta. case_bool_decide; eauto.
  - right. split; [by right|]. apply IsValid_panics. by right.
Qed.

(** ** Counting the links into a node *)

Lemma int_incr_nat (k : nat) :
  (Z.of_nat (S k) <= int_max)%Z -> int_incr (Z.of_nat k) = Z.of_nat (S k).
Proof.
  unfold int_incr, int_wrap, int_max. intros Hk.
  rewrite Z.mod_small; lia.
Qed.

Lemma count_incr_lookup (count : gmap (@Node NodeRef) Z) k n :
  count_incr count k !! n
  = if decide (k = n) then Some (int_incr (default 0%Z (count !! n))) else count !! n.
Proof.
  unfold count_incr. destruct (decide (k = n)) as [->|Hne].
  - by rewrite lookup_insert_eq.
  - by rewrite lookup_insert_ne.
Qed.

Lemma countLinksTo_lookup (ls : list (@nodeLink NodeRef)) n :
  (Z.of_nat (length ls) <= int_max)%Z ->
  countLinksTo ls !! n
  = match length (filter (fun link => To link = n) ls) with
    | 0 => None
    | S k => Some (Z.of_nat (S k))
    end.
Proof.
  unfold countLinksTo. induction ls as [|link ls IH] using rev_ind; intros Hlen.
  - cbn. by rewrite lookup_empty.
  - rewrite length_app in Hlen. cbn [length] in Hlen.
    rewrite foldl_app. cbn [foldl]. rewrite count_incr_lookup, filter_app, length_app.
    rewrite filter_cons, filter_nil.
    pose proof (length_filter (fun link => To link = n) ls) as Hle.
    rewrite IH by lia.
    destruct (decide (To link = n)) as [Heq|Hne]; cbn [length].
    + destruct (length (filter _ ls)) as [|k] eqn:Hk.
      * cbn [from_option id]. change 0%Z with (Z.of_nat 0).
        rewrite int_incr_nat; [done|]. unfold int_max. lia.
      * cbn [from_option id]. rewrite int_incr_nat by lia.
        by replace (S k + 1) with (S (S k)) by lia.
    + by rewrite Nat.add_0_r.
Qed.

Lemma checkForMultipleLinks_elem s e :
  e ∈ checkForMultipleLinksToNodeWithoutJoinMode s
  <-> exists n c, e = ErrMultipleLinks c n
                  /\ countLinksTo (links s) !! n = Some c
                  /\ (1 < c)%Z /\ JoinModeOfNode s n = JoinNone.
Proof.
  unfold checkForMultipleLinksToNodeWithoutJoinMode.
  rewrite list_elem_of_In, in_flat_map. split.
  - intros ([n c] & Hin%list_elem_of_In%elem_of_map_to_list & He).
    destruct (bool_decide (1 < c)%Z) eqn:Hc; cbn in He; [|done].
    destruct (bool_decide (JoinModeOfNode s n = JoinNone)) eqn:Hj; cbn in He; [|done].
    destruct He as [<-|[]]. exists n, c.
    apply bool_decide_eq_true_1 in Hc, Hj. done.
  - intros (n & c & -> & Hin & Hc & Hj). exists (n, c). split.
    + by apply list_elem_of_In, elem_of_map_to_list.
    + rewrite !bool_decide_eq_true_2 by done. by left.
Qed.

Lemma checkForUndeclared_elem s e :
  e ∈ checkForUndeclaredNodeInNodeLink s ->
  (exists n link, e = ErrUndeclaredFrom n link) \/ (exists n link, e = ErrUndeclaredTo n link).
Proof.
  unfold checkForUndeclaredNodeInNodeLink.
  rewrite list_elem_of_In, in_flat_map. intros (link & _ & He).
  apply list_elem_of_In, elem_of_app in He as [He|He]; case_match;
    try (by apply elem_of_nil in He); apply list_elem_of_singleton in He; eauto.
Qed.

Lemma checkForMultipleInstance_elem s e :
  e ∈ checkForMultipleInstanceOfSameNode s -> exists c n, e = ErrMultipleInstances c n.
Proof.
  unfold checkForMultipleInstanceOfSameNode.
  rewrite list_elem_of_In, in_flat_map. intros ([n c] & _ & He).
  case_match; [|done]. destruct He as [<-|[]]. eauto.
Qed.

Lemma multiple_links_check_iff s n :
  (Z.of_nat (length (links s)) <= int_max)%Z ->
  JoinModeOfNode s n = JoinNone ->
  (exists c, ErrMultipleLinks c n ∈ checkForMultipleLinksToNodeWithoutJoinMode s)
  <-> 2 <= inboundLinks s n.
Proof.
  intros Hlen Hjoin. unfold inboundLinks.
  pose proof (countLinksTo_lookup (links s) n Hlen) as Hcount.
  split.
  - intros (c & (n' & c' & [= -> ->] & Hc & Hlt & _)%checkForMultipleLinks_elem).
    rewrite Hcount in Hc. destruct (length (filter _ (links s))) as [|k]; [done|].
    injection Hc as <-. lia.
  - intros Hk. destruct (length (filter _ (links s))) as [|k] eqn:Hf; [lia|].
    exists (Z.of_nat (S k)). apply checkForMultipleLinks_elem.
    exists n, (Z.of_nat (S k)). split; [done|]. split; [done|]. split; [lia|done].
Qed.

(** X26: on the systems on which IsValid returns, for a node n whose join
    mode is JoinNone the returned errors hold a multiple-links error for n
    exactly when n has at least 2 inbound links, each added link counted
    (the length of the links slice being an int).  IsValid returns exactly
    when no nil node was declared, on which the orphan check panics, and the
    deduplication of the cycles does not panic; it does so in particular
    when no nil node was declared and the link graph has no cycle. *)
Theorem multiple_links_error_iff s n :
  (Z.of_nat (length (links s)) <= int_max)%Z ->
  JoinModeOfNode s n = JoinNone ->
  ((exists ok errs, IsValid DecideCapability growslice s = Ret (ok, errs))
   <-> (None ∉ nodes s) /\ checkForCyclicRedundancyInNodeLinks growslice s <> Panic)
  /\ (None ∉ nodes s -> acyclic s ->
      exists ok errs, IsValid DecideCapability growslice s = Ret (ok, errs))
  /\ forall ok errs,
       IsValid DecideCapability growslice s = Ret (ok, errs) ->
       ((exists c, ErrMultipleLinks c n ∈ errs) <-> 2 <= inboundLinks s n).
Proof.
  intros Hlen Hjoin. split; [|split].
  - destruct (IsValid_outcome s) as [(Hnil & e2 & [ok errs] & He2 & Hv)|([Hnil|Hp] & Hv)].
    + split; [|eauto]. intros _. split; [done|]. by rewrite He2.
    + split; [intros (? & ? & ?); congruence|]. by intros [? _].
    + split; [intros (? & ? & ?); congruence|]. by intros [_ ?].
  - intros Hnil Hacyclic.
    destruct (IsValid_returns s [] Hnil (checkForCyclicRedundancyInNodeLinks_acyclic s Hacyclic))
      as (e1 & _ & _ & ->).
    cbn zeta. case_bool_decide; eauto.
  - intros ok errs Hv.
    destruct (IsValid_outcome s) as [(Hnil & e2 & _ & He2 & _)|(_ & Hp)]; [|congruence].
    destruct (IsValid_returns s e2 Hnil He2) as (e1 & He1 & He2' & Hv').
    rewrite Hv' in Hv. cbn zeta in Hv.
    pose proof (multiple_links_check_iff s n Hlen Hjoin) as Hiff.
    rewrite <- Hiff. case_bool_decide as Hz; injection Hv as <- <-.
    + split.
      * intros (c & Hc). by apply elem_of_nil in Hc.
      * intros (c & Hc). rewrite !length_app in Hz.
        destruct (checkForMultipleLinksToNodeWithoutJoinMode s); [|cbn in Hz; lia].
        by apply elem_of_nil in Hc.
    + split.
      * intros (c & Hc). exists c.
        repeat (apply elem_of_app in Hc as [Hc|Hc]); [| | | |done].
        -- by destruct (He1 _ Hc).
        -- by destruct (He2' _ Hc).
        -- by destruct (checkForUndeclared_elem _ _ Hc) as [(?&?&?)|(?&?&?)].
        -- by destruct (checkForMultipleInstance_elem _ _ Hc) as (?&?&?).
      * intros (c & Hc). exists c. rewrite !elem_of_app. auto.
Qed.

(** C10, with the bound the code gives: IsValid never exhausts its budget
    (it returns, or it panics, on a nil node or in a comparison of cycles),
    on cyclic link graphs too.  Each
    nested call of findCycle adds one link to the walk and a walk never
    leaves the same node twice, so a budget of one call more than the number
    of distinct link sources lets every top-level findCycle return, and the
    walks it returns are no longer than that number.  That number is at most
    the number of links, and at most the number of declared nodes when every
    link source is declared. *)
Theorem findCycle_terminates s :
  ((exists r, IsValid DecideCapability growslice s = Ret r)
   \/ IsValid DecideCapability growslice s = Panic)
  /\ (forall h topNode,
        exists h' walks,
          findCycle growslice (S (length (linkSources s))) s h topNode topNode nil_slice
          = Some (h', walks)
          /\ Forall (fun v => s_len v <= length (linkSources s)) walks)
  /\ length (linkSources s) <= length (links s)
  /\ ((forall link, link ∈ links s -> From link ∈ nodes s) ->
      length (linkSources s) <= length (nodes s)).
Proof.
  split; [|split; [|split]].
  - destruct (IsValid_outcome s) as [(_ & _ & r & _ & Hv)|(_ & Hv)]; eauto.
  - intros h topNode.
    destruct (findCycle_returns s (S (length (linkSources s))) h topNode topNode nil_slice)
      as (h' & ws & Hfc & _ & Hws).
    { apply slice_wf_nil. }
    { pose proof (remaining_le s (slice_read h nil_slice)). lia. }
    exists h', ws. split; [done|].
    eapply Forall_impl; [exact Hws|]. intros v [_ Hle].
    pose proof (remaining_le s (slice_read h nil_slice)).
    change (s_len nil_slice) with 0 in Hle. lia.
  - apply linkSources_length.
  - intros Hdecl. apply submseteq_length, NoDup_submseteq; [apply NoDup_remove_dups|].
    intros n (link & -> & Hin)%elem_of_remove_dups%list_elem_of_fmap. by apply Hdecl.
Qed.

(** ** Walks without sharing *)

Lemma findCycle_linear s fuel :
  forall h topNode currentNode w r,
    slice_wf h w ->
    findCycleLinear fuel s topNode currentNode (slice_read h w) = Some r ->
    exists h' ws,
      findCycle growslice fuel s h topNode currentNode w = Some (h', ws)
      /\ frame h w h' /\ Forall (slice_wf h') ws /\ slice_read h' <$> ws = r.
Proof.
  induction fuel as [|fuel IH]; intros h topNode currentNode w r Hwf; [done|].
  cbn [findCycle findCycleLinear]. rewrite (slice_read_length h w Hwf).
  destruct (bool_decide (0 < s_len w) && bool_decide (topNode = currentNode)).
  { intros [= <-]. exists h, [w]. split; [done|]. split; [apply frame_refl|].
    split; [by apply Forall_singleton|done]. }
  destruct (bool_decide (0 < s_len w) && existsb _ (slice_read h w)).
  { intros [= <-]. exists h, []. split; [done|]. split; [apply frame_refl|done]. }
  destruct (filter _ (links s)) as [|link [|link' rest]]; [| |done].
  { intros [= <-]. exists h, []. split; [done|]. split; [apply frame_refl|done]. }
  intros Hr. rewrite bool_decide_eq_false_2 by done. cbn [walkLinks].
  pose proof (slice_append_wf h w link Hwf) as Hwf1.
  pose proof (slice_append_read h w link Hwf) as Hread1.
  pose proof (frame_append_step h w link) as Hstep.
  destruct (slice_append growslice h w link) as [h1 w1]. cbn [fst snd] in *.
  rewrite <- Hread1 in Hr.
  destruct (IH h1 topNode (To link) w1 r Hwf1 Hr) as (h2 & ws & -> & Hf & Hws & Hread).
  exists h2, ws. split; [done|]. split; [by apply Hstep|done].
Qed.

Lemma cyclesLoop_linear s ns :
  forall h cycles r,
    Forall (slice_wf h) cycles ->
    cyclesLinear s ns = Some r ->
    exists h' cs,
      cyclesLoop growslice s ns h cycles = Some (h', cs)
      /\ Forall (slice_wf h') cs
      /\ slice_read h' <$> cs = (slice_read h <$> cycles) ++ r.
Proof.
  induction ns as [|node ns IH]; intros h cycles r Hcycles.
  - intros [= <-]. exists h, cycles. by rewrite app_nil_r.
  - cbn [cyclesLoop cyclesLinear].
    destruct (findCycleLinear _ s node node []) as [walks|] eqn:Hwalks; [|done].
    destruct (cyclesLinear s ns) as [more|] eqn:Hmore; [|done].
    intros [= <-].
    destruct (findCycle_linear s (cycleFuel s) h node node nil_slice walks)
      as (h1 & ws & -> & Hf & Hws & Hread); [apply slice_wf_nil|done|].
    destruct (IH h1 (cycles ++ ws) more) as (h' & cs & -> & Hcs & Hread'); [|done|].
    { apply Forall_app. split; [|done].
      eapply Forall_impl; [exact Hcycles|]. intros v Hv. by eapply slice_wf_frame. }
    exists h', cs. split; [done|]. split; [done|].
    rewrite Hread', fmap_app, Hread, <- app_assoc. f_equal.
    apply Forall_fmap_ext_1. eapply Forall_impl; [exact Hcycles|].
    intros v Hv. apply (slice_read_frame_other h nil_slice); [done..|].
    intros j _. right; right. cbn. lia.
Qed.

Lemma alreadyTrimmedLoop_content {A} (content : A -> list (@nodeLink NodeRef)) cycle trimmed b :
  alreadyTrimmedLoop content cycle trimmed b
  = alreadyTrimmedLoop id (content cycle) (content <$> trimmed) b.
Proof.
  revert b. induction trimmed as [|t trimmed IH]; intros b; [done|].
  cbn [alreadyTrimmedLoop fmap list_fmap]. unfold id at 1 2.
  destruct (cmp_Equal _ _ _); cbn [obind]; [|done..]. apply IH.
Qed.

Lemma trimLoop_content {A} (content : A -> list (@nodeLink NodeRef)) cycles trimmed :
  outcome_map (fmap content) (trimLoop content cycles trimmed)
  = trimLoop id (content <$> cycles) (content <$> trimmed).
Proof.
  revert trimmed. induction cycles as [|c cycles IH]; intros trimmed; [done|].
  cbn [trimLoop fmap list_fmap]. rewrite <- alreadyTrimmedLoop_content.
  destruct (alreadyTrimmedLoop content c trimmed false) as [b| |]; cbn [obind]; [|done..].
  rewrite IH. destruct b; [done|]. by rewrite fmap_app.
Qed.

Lemma checkForCyclicRedundancyInNodeLinks_linear s r :
  cyclesLinear s (nodes s) = Some r ->
  checkForCyclicRedundancyInNodeLinks growslice s
  = outcome_map (fmap ErrCycle) (trimWalks r).
Proof.
  intros Hr. unfold checkForCyclicRedundancyInNodeLinks, trimCycles, trimWalks.
  destruct (cyclesLoop_linear s (nodes s) [] [] r) as (h & cs & -> & _ & Hread); [done..|].
  cbn [app fmap list_fmap] in Hread. rewrite <- Hread.
  change (@nil (list nodeLink)) with (slice_read h <$> []).
  rewrite <- trimLoop_content.
  destruct (trimLoop (slice_read h) cs []) as [ts| |]; cbn; [|done..].
  by rewrite <- list_fmap_compose.
Qed.

(** ** Counting the instances of a node *)

Lemma filter_ext_elem {A} (P Q : A -> Prop) `{!forall y, Decision (P y)}
    `{!forall y, Decision (Q y)} (l : list A) :
  (forall y, y ∈ l -> P y <-> Q y) -> filter P l = filter Q l.
Proof.
  induction l as [|x l IH]; intros Hext; [done|].
  rewrite !filter_cons, IH by (intros y Hy; apply Hext; by right).
  destruct (decide (P x)) as [HP|HP], (decide (Q x)) as [HQ|HQ]; try done.
  - exfalso. apply HQ, Hext; [by left|done].
  - exfalso. apply HP, Hext; [by left|done].
Qed.

(** The positions of [v] in [ns] are as many as its occurrences. *)
Lemma positions_count (ns : list (@Node NodeRef)) (v : @Node NodeRef) :
  length (filter (fun j => ns !! j = Some v) (seq 0 (length ns)))
  = length (filter (fun n => n = v) ns).
Proof.
  induction ns as [|x ns IH] using rev_ind; [done|].
  rewrite length_app. cbn [length]. rewrite Nat.add_1_r, seq_S, !filter_app, !length_app.
  cbn [Nat.add]. rewrite <- IH. f_equal.
  - f_equal. apply filter_ext_elem. intros j Hj%elem_of_seq.
    by rewrite lookup_app_l by lia.
  - rewrite !filter_cons, !filter_nil.
    rewrite lookup_app_r, Nat.sub_diag by done. cbn [lookup list_lookup].
    destruct (decide (x = v)) as [->|Hne].
    + by rewrite decide_True by done.
    + by rewrite decide_False by congruence.
Qed.

Lemma filter_without {A} `{EqDecision A} (P : A -> Prop) `{!forall y, Decision (P y)}
    (l : list A) (i : A) :
  NoDup l -> i ∈ l -> P i ->
  S (length (filter (fun j => i <> j /\ P j) l)) = length (filter P l).
Proof.
  induction l as [|x l IH]; intros Hnd Hin HP; [by apply elem_of_nil in Hin|].
  apply NoDup_cons in Hnd as [Hx Hnd]. rewrite !filter_cons.
  apply elem_of_cons in Hin as [<-|Hin].
  - rewrite decide_False by (by intros [? _]). rewrite decide_True by done. cbn [length].
    f_equal. f_equal. apply filter_ext_elem. intros j Hj. split; [tauto|].
    intros HPj. split; [|done]. by intros ->.
  - destruct (decide (P x)) as [HPx|HPx].
    + rewrite decide_True by (split; [by intros ->|done]). cbn [length]. by rewrite IH.
    + rewrite decide_False by tauto. by apply IH.
Qed.

Lemma others_count (ns : list (@Node NodeRef)) i (v : @Node NodeRef) :
  ns !! i = Some v ->
  S (length (filter (fun j => i <> j /\ ns !! j = Some v) (seq 0 (length ns))))
  = length (filter (fun n => n = v) ns).
Proof.
  intros Hi. rewrite <- positions_count. apply filter_without; [apply NoDup_seq| |done].
  apply elem_of_seq. pose proof (lookup_lt_Some _ _ _ Hi). lia.
Qed.

Lemma count_repr_incr (count : gmap (@Node NodeRef) Z) (v : @Node NodeRef) t :
  count !! v = count_repr t -> (Z.of_nat (S t) <= int_max)%Z ->
  count_incr count v !! v = count_repr (S t).
Proof.
  intros Hc Hb. rewrite count_incr_lookup, decide_True by done. rewrite Hc.
  destruct t; cbn [count_repr from_option id].
  - change 0%Z with (Z.of_nat 0). by rewrite int_incr_nat.
  - by rewrite int_incr_nat.
Qed.

(** The inner loop for a position [i] that holds [x]: the counter of [x]
    grows by the number of other positions that hold [x]. *)
Lemma countPair_fold (ns : list (@Node NodeRef)) i (x v : @Node NodeRef) :
  ns !! i = Some x ->
  forall js count t,
    count !! v = count_repr t ->
    (x = v ->
     (Z.of_nat (t + length (filter (fun j => i <> j /\ ns !! j = Some x) js)) <= int_max)%Z) ->
    foldl (countPair ns i) count js !! v
    = count_repr (t + if decide (x = v)
                      then length (filter (fun j => i <> j /\ ns !! j = Some x) js)
                      else 0).
Proof.
  intros Hi js. induction js as [|j js IH]; intros count t Hc Hb.
  - cbn. destruct (decide (x = v)); by rewrite Nat.add_0_r.
  - cbn [foldl]. rewrite filter_cons in *. unfold countPair at 2. rewrite Hi.
    destruct (decide (i <> j /\ ns !! j = Some x)) as [[Hij Hj]|Hno].
    + rewrite Hj, !bool_decide_eq_true_2 by done. cbn [andb from_option id].
      destruct (decide (x = v)) as [->|Hne].
      * cbn [length] in *. specialize (Hb eq_refl).
        rewrite (IH _ (S t)); [|apply count_repr_incr; [done|lia]|intros _; lia].
        f_equal. lia.
      * by rewrite (IH _ t); [|by rewrite count_incr_lookup, decide_False|done].
    + replace (bool_decide (i <> j) && bool_decide (Some x = ns !! j)) with false; [by apply IH|].
      symmetry. apply andb_false_iff.
      destruct (decide (i = j)) as [->|Hij].
      * left. apply bool_decide_eq_false_2. tauto.
      * right. apply bool_decide_eq_false_2. intros Heq. apply Hno. by split.
Qed.

(** The outer loop: every position of [v] adds the other positions of [v]. *)
Lemma countRow_fold (ns : list (@Node NodeRef)) (v : @Node NodeRef) k :
  k = length (filter (fun n => n = v) ns) ->
  forall ps count t,
    (forall i, i ∈ ps -> i < length ns) ->
    count !! v = count_repr t ->
    (Z.of_nat (t + length (filter (fun i => ns !! i = Some v) ps) * (k - 1)) <= int_max)%Z ->
    foldl (countRow ns) count ps !! v
    = count_repr (t + length (filter (fun i => ns !! i = Some v) ps) * (k - 1)).
Proof.
  intros Hk ps. induction ps as [|i ps IH]; intros count t Hrange Hc Hb.
  - cbn. by rewrite Nat.add_0_r.
  - cbn [foldl]. rewrite filter_cons in *.
    destruct (ns !! i) as [x|] eqn:Hi.
    2: { apply lookup_ge_None_1 in Hi. assert (i < length ns) by (apply Hrange; by left). lia. }
    assert (Hrange' : forall i', i' ∈ ps -> i' < length ns) by (intros; apply Hrange; by right).
    unfold countRow at 2.
    destruct (decide (Some x = Some v)) as [[= ->]|Hne].
    + pose proof (others_count ns i v Hi) as Ho. cbn [length] in Hb.
      rewrite (IH _ (t + (k - 1))); [cbn [length]; f_equal; lia|done| |nia].
      rewrite (countPair_fold ns i v v Hi _ _ t Hc); [|intros _; nia].
      rewrite decide_True by done. f_equal. lia.
    + rewrite (IH _ t); [done|done| |done].
      rewrite (countPair_fold ns i x v Hi _ _ t Hc); [|congruence].
      rewrite decide_False by congruence. by rewrite Nat.add_0_r.
Qed.

(** The counter of a node declared [k] times ends at [k * (k - 1)]. *)
Lemma countInstances_lookup (ns : list (@Node NodeRef)) (v : @Node NodeRef) :
  let k := length (filter (fun n => n = v) ns) in
  (Z.of_nat (k * (k - 1)) <= int_max)%Z ->
  countInstances ns !! v = count_repr (k * (k - 1)).
Proof.
  intros k Hb. unfold countInstances.
  rewrite (countRow_fold ns v k eq_refl _ _ 0); rewrite ?positions_count; try done.
  intros i Hi%elem_of_seq. lia.
Qed.

Lemma checkForMultipleInstance_iff s e :
  e ∈ checkForMultipleInstanceOfSameNode s
  <-> exists n c, e = ErrMultipleInstances c n
                  /\ countInstances (nodes s) !! n = Some c /\ (1 < c)%Z.
Proof.
  unfold checkForMultipleInstanceOfSameNode.
  rewrite list_elem_of_In, in_flat_map. split.
  - intros ([n c] & Hin%list_elem_of_In%elem_of_map_to_list & He).
    case_bool_decide as Hc; [|done]. destruct He as [<-|[]]. by exists n, c.
  - intros (n & c & -> & Hin & Hc). exists (n, c). split.
    + by apply list_elem_of_In, elem_of_map_to_list.
    + rewrite bool_decide_eq_true_2 by done. by left.
Qed.

Lemma checkForMultipleInstance_NoDup s : NoDup (checkForMultipleInstanceOfSameNode s).
Proof.
  unfold checkForMultipleInstanceOfSameNode.
  pose proof (NoDup_fst_map_to_list (countInstances (nodes s))) as Hnd.
  induction (map_to_list (countInstances (nodes s))) as [|[n c] l IH]; [constructor|].
  cbn [fmap list_fmap fst] in Hnd. apply NoDup_cons in Hnd as [Hn Hnd].
  cbn [flat_map]. case_bool_decide; [|by apply IH]. cbn [app].
  apply NoDup_cons. split; [|by apply IH].
  rewrite list_elem_of_In, in_flat_map. intros ([n' c'] & Hin & He).
  case_bool_decide; [|done]. destruct He as [[= -> ->]|[]].
  apply Hn, list_elem_of_fmap. exists (n, c). split; [done|]. by apply list_elem_of_In.
Qed.

(** What the duplicate-node check reports for a node declared [k > 1]
    times: one error, whose count is [k * (k - 1)]. *)
Lemma multiple_instances_reported s (v : @Node NodeRef) :
  1 < instancesOf s v ->
  (Z.of_nat (instancesOf s v * (instancesOf s v - 1)) <= int_max)%Z ->
  NoDup (checkForMultipleInstanceOfSameNode s)
  /\ forall c, ErrMultipleInstances c v ∈ checkForMultipleInstanceOfSameNode s
               <-> c = Z.of_nat (instancesOf s v * (instancesOf s v - 1)).
Proof.
  unfold instancesOf. intros Hk Hb. split; [apply checkForMultipleInstance_NoDup|].
  pose proof (countInstances_lookup (nodes s) v Hb) as Hcount. cbn zeta in Hcount.
  set (k := length (filter (fun n => n = v) (nodes s))) in *.
  assert (Hpos : exists t, k * (k - 1) = S t) by (exists (k * (k - 1) - 1); nia).
  destruct Hpos as [t Ht]. rewrite Ht in *. cbn [count_repr] in Hcount.
  intros c. rewrite checkForMultipleInstance_iff. split.
  - intros (n & c' & [= -> ->] & Hc & _). congruence.
  - intros ->. exists v, (Z.of_nat (S t)). split; [done|]. split; [done|]. nia.
Qed.

Lemma checkForMultipleLinks_none s :
  (Z.of_nat (length (links s)) <= int_max)%Z ->
  (forall n, inboundLinks s n <= 1) ->
  checkForMultipleLinksToNodeWithoutJoinMode s = [].
Proof.
  intros Hlen Hle. apply elem_of_nil_inv. intros e He.
  apply checkForMultipleLinks_elem in He as (n & c & -> & Hc & Hlt & _).
  rewrite countLinksTo_lookup in Hc by done.
  specialize (Hle n). unfold inboundLinks in Hle.
  destruct (length (filter _ (links s))) as [|k]; [done|].
  injection Hc as <-. lia.
Qed.

(** ** The three-node cycle *)

Section Triangle.

Variables a b c : NodeRef.
Hypothesis Hab : a <> b.
Hypothesis Hbc : b <> c.
Hypothesis Hac : a <> c.
Hypothesis Ha : DecideCapability a = false.
Hypothesis Hb : DecideCapability b = false.
Hypothesis Hc : DecideCapability c = false.

Let AB : @nodeLink NodeRef := newNodeLink (Some a) (Some b).
Let BC : @nodeLink NodeRef := newNodeLink (Some b) (Some c).
Let CA : @nodeLink NodeRef := newNodeLink (Some c) (Some a).

Local Ltac tri_step :=
  first
    [ rewrite Ha | rewrite Hb | rewrite Hc
    | match goal with
      | |- context [bool_decide ?P] =>
        first [ rewrite (bool_decide_eq_false_2 P) by (congruence || lia)
              | rewrite (bool_decide_eq_true_2 P) by (done || lia) ]
      | |- context [decide ?P] =>
        first [ rewrite (decide_False (P := P)) by (congruence || lia)
              | rewrite (decide_True (P := P)) by (done || lia) ]
      end ].

Lemma triangleSystem_fields :
  triangleSystem DecideCapability a b c
  = {| activated := false;
       nodes := [Some a; Some b; Some c];
       nodesJoinModes := ∅;
       links := [AB; BC; CA];
       initialNodes := [];
       followingNodesTree := ∅;
       ancestorsNodesTree := ∅ |}.
Proof.
  unfold triangleSystem, AddLink, addLink, AddNode.
  repeat (cbn; tri_step). reflexivity.
Qed.

Lemma triangle_orphans s :
  nodes s = [Some a; Some b; Some c] -> checkForOrphanMultiBranchesNode DecideCapability s = Ret [].
Proof.
  intros Hn. unfold checkForOrphanMultiBranchesNode. rewrite Hn. cbn. by rewrite Ha, Hb, Hc.
Qed.

Lemma triangle_walks s :
  nodes s = [Some a; Some b; Some c] -> links s = [AB; BC; CA] ->
  cyclesLinear s (nodes s) = Some [[AB; BC; CA]; [BC; CA; AB]; [CA; AB; BC]].
Proof.
  intros Hn Hl. rewrite Hn. unfold cyclesLinear, cycleFuel. rewrite Hl.
  cbn [length findCycleLinear]. rewrite Hl.
  repeat (cbn; tri_step). reflexivity.
Qed.

Lemma triangle_trim :
  trimWalks [[AB; BC; CA]; [BC; CA; AB]; [CA; AB; BC]] = Ret [[AB; BC; CA]].
Proof.
  unfold trimWalks, AB, BC, CA, newNodeLink.
  repeat (cbn; try unfold cmp_Equal, nodeLinkSliceComparator, nodeLinkComparator; cbn;
          tri_step).
  reflexivity.
Qed.

Lemma triangle_undeclared s :
  nodes s = [Some a; Some b; Some c] -> links s = [AB; BC; CA] ->
  checkForUndeclaredNodeInNodeLink s = [].
Proof.
  intros Hn Hl. unfold checkForUndeclaredNodeInNodeLink, haveNode. rewrite Hn, Hl.
  repeat (cbn; tri_step). reflexivity.
Qed.

Lemma triangle_instances s :
  nodes s = [Some a; Some b; Some c] -> checkForMultipleInstanceOfSameNode s = [].
Proof.
  intros Hn. unfold checkForMultipleInstanceOfSameNode, countInstances, countRow, countPair.
  rewrite Hn.
  repeat (cbn; tri_step). cbn. by rewrite map_to_list_empty.
Qed.

Lemma triangle_links s :
  links s = [AB; BC; CA] -> checkForMultipleLinksToNodeWithoutJoinMode s = [].
Proof.
  intros Hl. apply checkForMultipleLinks_none.
  - rewrite Hl. cbn. unfold int_max. lia.
  - intros n. unfold inboundLinks. rewrite Hl, !filter_cons, filter_nil.
    unfold AB, BC, CA, newNodeLink. cbn [To].
    repeat case_decide; cbn [length]; try lia; congruence.
Qed.

(** C1: for distinct action nodes a, b, c, each added once, and the links
    a -> b, b -> c, c -> a: the cycle search finds three walks, the cycle
    from a, from b and from c; IsValid returns false with one error, the
    cycle found from a (the other two hold the same links and are dropped);
    and Activate fails with "can't activate a unvalidated node system",
    leaving the system as it was. *)
Theorem triangle_rejected :
  (exists h cycles,
     cyclesLoop growslice (triangleSystem DecideCapability a b c)
                (nodes (triangleSystem DecideCapability a b c)) [] []
     = Some (h, cycles)
     /\ slice_read h <$> cycles = [[AB; BC; CA]; [BC; CA; AB]; [CA; AB; BC]])
  /\ IsValid DecideCapability growslice (triangleSystem DecideCapability a b c)
     = Ret (false, [ErrCycle [AB; BC; CA]])
  /\ Activate DecideCapability growslice (triangleSystem DecideCapability a b c)
     = Ret (triangleSystem DecideCapability a b c,
            Some (errors_New "can't activate a unvalidated node system")).
Proof.
  assert (Hvalid : IsValid DecideCapability growslice (triangleSystem DecideCapability a b c)
                   = Ret (false, [ErrCycle [AB; BC; CA]])).
  { rewrite triangleSystem_fields.
    set (s := {| activated := false; nodes := _ |}).
    unfold IsValid.
    rewrite (triangle_orphans s) by done.
    rewrite (checkForCyclicRedundancyInNodeLinks_linear s _ (triangle_walks s eq_refl eq_refl)).
    rewrite triangle_trim, (triangle_undeclared s), (triangle_instances s), (triangle_links s)
      by done.
    done. }
  split; [|split; [done|]].
  - rewrite triangleSystem_fields.
    set (s := {| activated := false; nodes := _ |}).
    destruct (cyclesLoop_linear s (nodes s) [] [] _ (Forall_nil_2 _) (triangle_walks s eq_refl eq_refl))
      as (h & cycles & Hloop & _ & Hread).
    by exists h, cycles.
  - unfold Activate. rewrite Hvalid. by rewrite triangleSystem_fields.
Qed.

End Triangle.

(** * Further properties of the builder, the checks and the queries *)

(** ** Adding links *)

Lemma addLink_result s from to branch :
  activated s = false ->
  (wellFormedLink DecideCapability (mkLink from to branch)
   /\ addLink DecideCapability s from to branch
      = (set_links s (links s ++ [mkLink from to branch]), (true, None)))
  \/ (~ wellFormedLink DecideCapability (mkLink from to branch)
      /\ exists err, addLink DecideCapability s from to branch = (s, (false, Some err))).
Proof.
  intros Hact. unfold addLink, wellFormedLink. rewrite Hact. cbn [From To Branch].
  destruct from as [f|].
  2: { right. split; [by intros (?&?&?&_)|eauto]. }
  destruct (DecideCapability f) eqn:Hd, branch as [b|]; cbn [andb negb].
  - rewrite (bool_decide_eq_false_2 (Some b = None)) by done.
    rewrite (bool_decide_eq_true_2 (Some b <> None)) by done. cbn [andb].
    destruct to as [t|].
    2: { rewrite bool_decide_eq_true_2 by done. right. split; [by intros (?&?&?&?&_)|eauto]. }
    rewrite (bool_decide_eq_false_2 (Some t = None)) by done.
    destruct (decide (f = t)) as [->|Hne].
    + rewrite bool_decide_eq_true_2 by done. right. split; [|eauto].
      intros (f' & t' & [= <-] & [= <-] & Hne & _). by apply Hne.
    + rewrite bool_decide_eq_false_2 by congruence. left. split; [|done].
      exists f, t. repeat split; congruence.
  - rewrite (bool_decide_eq_true_2 (None = None)) by done. cbn [andb].
    right. split; [|eauto]. intros (f' & t' & [= <-] & _ & _ & Hb). destruct Hb as [Hb _].
    specialize (Hb eq_refl). congruence.
  - rewrite (bool_decide_eq_false_2 (Some b = None)) by done.
    rewrite (bool_decide_eq_true_2 (Some b <> None)) by done. cbn [andb].
    right. split; [|eauto]. intros (f' & t' & [= <-] & _ & _ & Hb). destruct Hb as [_ Hb].
    by specialize (Hb Hd).
  - rewrite (bool_decide_eq_true_2 (None = None)) by done.
    rewrite (bool_decide_eq_false_2 (None <> None)) by (intros Hne; by apply Hne). cbn [andb].
    destruct to as [t|].
    2: { rewrite bool_decide_eq_true_2 by done. right. split; [by intros (?&?&?&?&_)|eauto]. }
    rewrite (bool_decide_eq_false_2 (Some t = None)) by done.
    destruct (decide (f = t)) as [->|Hne].
    + rewrite bool_decide_eq_true_2 by done. right. split; [|eauto].
      intros (f' & t' & [= <-] & [= <-] & Hne & _). by apply Hne.
    + rewrite bool_decide_eq_false_2 by congruence. left. split; [|done].
      exists f, t. repeat split; congruence.
Qed.

(** X1: on a system that is not activated, addLink succeeds exactly when
    both endpoints are non-nil and different and a branch is given exactly
    for a decision source; it then appends that one link and touches nothing
    else, and otherwise returns the system as it was. *)
Theorem addLink_accepts_iff s from to branch :
  activated s = false ->
  ((addLink DecideCapability s from to branch).2.1 = true
   <-> wellFormedLink DecideCapability (mkLink from to branch))
  /\ (wellFormedLink DecideCapability (mkLink from to branch) ->
      addLink DecideCapability s from to branch
      = (set_links s (links s ++ [mkLink from to branch]), (true, None)))
  /\ (~ wellFormedLink DecideCapability (mkLink from to branch) ->
      (addLink DecideCapability s from to branch).1 = s).
Proof.
  intros Hact.
  destruct (addLink_result s from to branch Hact) as [[Hwf ->]|(Hwf & err & ->)]; cbn [fst snd].
  - split; [tauto|]. split; [done|tauto].
  - split; [split; [discriminate|tauto]|]. split; [tauto|done].
Qed.

Lemma addLink_cases s from to branch :
  (addLink DecideCapability s from to branch).1 = s
  \/ (activated s = false /\ wellFormedLink DecideCapability (mkLink from to branch)
      /\ (addLink DecideCapability s from to branch).1
         = set_links s (links s ++ [mkLink from to branch])).
Proof.
  destruct (activated s) eqn:Hact.
  - left. unfold addLink. by rewrite Hact.
  - destruct (addLink_result s from to branch Hact) as [[Hwf ->]|(Hwf & err & ->)]; auto.
Qed.

(** ** Invariants of the exported operations *)

(** An invariant of the operations: it is enough to show that a property
    survives a declared node, a configured join mode, an appended well-formed
    link and the activation of a valid system. *)
Lemma evolves_invariant (P : @NodeSystem NodeRef _ _ -> Prop) s :
  P s ->
  (forall s1 n, activated s1 = false -> P s1 -> P (set_nodes s1 (nodes s1 ++ [n]))) ->
  (forall s1 n m, activated s1 = false -> P s1 ->
     P (set_nodesJoinModes s1 (<[n := m]> (nodesJoinModes s1)))) ->
  (forall s1 link, activated s1 = false -> wellFormedLink DecideCapability link -> P s1 ->
     P (set_links s1 (links s1 ++ [link]))) ->
  (forall s1 s2, activated s1 = false ->
     IsValid DecideCapability growslice s1 = Ret (true, []) ->
     activated s2 = true -> nodes s2 = nodes s1 -> links s2 = links s1 ->
     nodesJoinModes s2 = nodesJoinModes s1 -> indexed s2 -> P s1 -> P s2) ->
  forall s', evolves DecideCapability growslice s s' -> P s'.
Proof.
  intros H0 Hnode Hmode Hlink Hactivate s' Hev.
  induction Hev as [|s s' n Hev IH|s s' n m Hev IH|s s' from to Hev IH
                    |s s' from to b Hev IH|s s' s'' e Hev IH Ha].
  - done.
  - unfold AddNode. destruct (activated s') eqn:Hact; cbn [fst]; auto.
  - unfold ConfigureJoinModeOnNode. destruct (activated s') eqn:Hact; cbn [fst]; auto.
  - unfold AddLink.
    destruct (addLink_cases s' from to None) as [->|(Hact & Hwf & ->)]; auto.
  - unfold AddLinkOnBranch.
    destruct (addLink_cases s' from to (Some b)) as [->|(Hact & Hwf & ->)]; auto.
  - apply Activate_cases in Ha as [(?&->&?)|[(?&->&?)|(?&?&?&?&?&?&?&?)]]; eauto.
Qed.

Lemma evolves_trans s s1 s2 :
  evolves DecideCapability growslice s s1 -> evolves DecideCapability growslice s1 s2 ->
  evolves DecideCapability growslice s s2.
Proof.
  intros H1 H2.
  induction H2 as [|s1 s2 n Hev IH|s1 s2 n m Hev IH|s1 s2 from to Hev IH
                   |s1 s2 from to b Hev IH|s1 s2 s3 e Hev IH Ha].
  - done.
  - apply evolves_AddNode; auto.
  - apply evolves_ConfigureJoinModeOnNode; auto.
  - apply evolves_AddLink; auto.
  - apply evolves_AddLinkOnBranch; auto.
  - apply (evolves_Activate _ _ _ s2 _ e); auto.
Qed.

Lemma reachable_evolves s :
  reachable DecideCapability growslice s
  <-> evolves DecideCapability growslice NewNodeSystem s.
Proof.
  split.
  - induction 1 as [|s n Hs IH|s n m Hs IH|s from to Hs IH|s from to b Hs IH|s s' e Hs IH Ha].
    + apply evolves_refl.
    + apply evolves_AddNode; auto.
    + apply evolves_ConfigureJoinModeOnNode; auto.
    + apply evolves_AddLink; auto.
    + apply evolves_AddLinkOnBranch; auto.
    + apply (evolves_Activate _ _ _ s _ e); auto.
  - remember NewNodeSystem as s0 eqn:Hs0.
    induction 1 as [|s1 s2 n Hev IH|s1 s2 n m Hev IH|s1 s2 from to Hev IH
                    |s1 s2 from to b Hev IH|s1 s2 s3 e Hev IH Ha]; subst.
    + apply reach_New.
    + apply reach_AddNode; auto.
    + apply reach_ConfigureJoinModeOnNode; auto.
    + apply reach_AddLink; auto.
    + apply reach_AddLinkOnBranch; auto.
    + apply (reach_Activate _ _ s2 _ e); auto.
Qed.

Lemma reachable_wellFormed s :
  reachable DecideCapability growslice s -> Forall (wellFormedLink DecideCapability) (links s).
Proof.
  intros Hreach%reachable_evolves. revert s Hreach.
  apply (evolves_invariant (fun s => Forall (wellFormedLink DecideCapability) (links s))).
  - constructor.
  - done.
  - done.
  - intros s1 link _ Hwf IH. cbn. apply Forall_app. split; [done|by apply Forall_singleton].
  - intros s1 s2 _ _ _ _ -> _ _ IH. done.
Qed.

(** X2: every link of a system built through the exported operations joins
    two different non-nil nodes, and carries a branch exactly when its
    source is a decision node. *)
Theorem reachable_links_wellFormed s link :
  reachable DecideCapability growslice s -> link ∈ links s ->
  exists f t, From link = Some f /\ To link = Some t /\ f <> t
              /\ (Branch link = None <-> DecideCapability f = false).
Proof.
  intros Hreach Hin. pose proof (reachable_wellFormed s Hreach) as Hall.
  rewrite Forall_forall in Hall. exact (Hall link Hin).
Qed.

(** X3: nodes and links are only ever appended: whatever operations follow,
    the nodes and links a system has stay where they are, at the front of
    the nodes and links of the later system. *)
Theorem evolves_appends s s' :
  evolves DecideCapability growslice s s' ->
  nodes s `prefix_of` nodes s' /\ links s `prefix_of` links s'.
Proof.
  revert s'.
  apply (evolves_invariant
           (fun s' => nodes s `prefix_of` nodes s' /\ links s `prefix_of` links s')).
  - split; reflexivity.
  - intros s1 n _ [Hn Hl]. cbn. split; [by apply prefix_app_r|done].
  - intros s1 n m _ IH. exact IH.
  - intros s1 link _ _ [Hn Hl]. cbn. split; [done|by apply prefix_app_r].
  - intros s1 s2 _ _ _ -> -> _ _ IH. exact IH.
Qed.

(** X4: an activated system is frozen: no sequence of operations changes
    any of its fields. *)
Theorem activated_is_final s s' :
  activated s = true -> evolves DecideCapability growslice s s' -> s' = s.
Proof.
  intros Hact. revert s'. apply (evolves_invariant (fun s' => s' = s)).
  - reflexivity.
  - intros s1 n Hact1 ->. congruence.
  - intros s1 n m Hact1 ->. congruence.
  - intros s1 link Hact1 _ ->. congruence.
  - intros s1 s2 Hact1 _ _ _ _ _ _ ->. congruence.
Qed.

(** ** Join modes *)

Lemma evolves_activated_false s s' :
  evolves DecideCapability growslice s s' -> activated s' = false -> activated s = false.
Proof.
  intros Hev Hact'. destruct (activated s) eqn:Hact; [exfalso|done].
  revert s' Hev Hact'. apply (evolves_invariant (fun s' => activated s' = false -> False)).
  - congruence.
  - intros s1 n Hact1 IH _. auto.
  - intros s1 n m Hact1 IH _. auto.
  - intros s1 link Hact1 _ IH _. auto.
  - intros; congruence.
Qed.

(** X5: the join mode of a node is the one last configured for it, and
    JoinNone when none was: a new system has none, a successful
    ConfigureJoinModeOnNode sets the mode of its node and of no other, and
    AddNode, AddLink, AddLinkOnBranch and Activate leave every join mode as
    it is. *)
Theorem JoinModeOfNode_last_configured s n n' m from to (b : bool) :
  JoinModeOfNode (NewNodeSystem : @NodeSystem NodeRef _ _) n' = JoinNone
  /\ JoinModeOfNode (ConfigureJoinModeOnNode s n m).1 n'
     = (if activated s then JoinModeOfNode s n'
        else if decide (n = n') then m else JoinModeOfNode s n')
  /\ JoinModeOfNode (AddNode s n).1 n' = JoinModeOfNode s n'
  /\ JoinModeOfNode (AddLink DecideCapability s from to).1 n' = JoinModeOfNode s n'
  /\ JoinModeOfNode (AddLinkOnBranch DecideCapability s from to b).1 n' = JoinModeOfNode s n'
  /\ forall s' e, Activate DecideCapability growslice s = Ret (s', e) ->
                  JoinModeOfNode s' n' = JoinModeOfNode s n'.
Proof.
  unfold JoinModeOfNode.
  split; [unfold NewNodeSystem; cbn [nodesJoinModes]; by rewrite lookup_empty|]. split; [|split; [|split; [|split]]].
  - unfold ConfigureJoinModeOnNode. destruct (activated s); cbn [fst nodesJoinModes set_nodesJoinModes]; [done|].
    destruct (decide (n = n')) as [->|Hne].
    + by rewrite lookup_insert_eq.
    + by rewrite lookup_insert_ne.
  - unfold AddNode. by destruct (activated s).
  - unfold AddLink. by destruct (addLink_cases s from to None) as [->|(_ & _ & ->)].
  - unfold AddLinkOnBranch. by destruct (addLink_cases s from to (Some b)) as [->|(_ & _ & ->)].
  - intros s' e Ha.
    apply Activate_cases in Ha as [(?&->&?)|[(?&->&?)|(?&?&?&?&?&->&?)]]; done.
Qed.

(** ** What the checks read *)

Lemma orphanLoop_ext s s' ns errors :
  links s = links s' ->
  orphanLoop DecideCapability s ns errors = orphanLoop DecideCapability s' ns errors.
Proof.
  intros Hl. revert errors. induction ns as [|node ns IH]; intros errors; cbn [orphanLoop]; [done|].
  unfold hasLinkFrom. rewrite Hl. destruct node as [r|]; [|done].
  destruct (DecideCapability r); [|done]. by destruct (existsb _ (links s')).
Qed.

Lemma walkLinks_ext
    (rec rec' : list (list nodeLink) -> Node -> slice -> option (list (list nodeLink) * list slice))
    (selectedLinks : list (@nodeLink NodeRef)) :
  (forall h1 n1 w1, rec h1 n1 w1 = rec' h1 n1 w1) ->
  forall h w cycles,
    walkLinks growslice rec selectedLinks h w cycles
    = walkLinks growslice rec' selectedLinks h w cycles.
Proof.
  intros Hrec. induction selectedLinks as [|link rest IH]; intros h w cycles; cbn [walkLinks];
    [done|].
  destruct (slice_append growslice h w link) as [h1 w1]. rewrite Hrec.
  destruct (rec' h1 (To link) w1) as [[h2 lc]|]; [apply IH|done].
Qed.

Lemma findCycle_ext s s' fuel :
  links s = links s' ->
  forall h topNode currentNode w,
    findCycle growslice fuel s h topNode currentNode w
    = findCycle growslice fuel s' h topNode currentNode w.
Proof.
  intros Hl. induction fuel as [|fuel IH]; intros h topNode currentNode w; [done|].
  cbn [findCycle]. rewrite Hl.
  destruct (bool_decide (0 < s_len w) && bool_decide (topNode = currentNode)); [done|].
  destruct (bool_decide (0 < s_len w) && existsb _ (slice_read h w)); [done|].
  destruct (bool_decide (length (filter _ (links s')) = 0)); [done|].
  apply walkLinks_ext. intros h1 n1 w1. apply IH.
Qed.

Lemma cyclesLoop_ext s s' ns :
  links s = links s' ->
  forall h cycles, cyclesLoop growslice s ns h cycles = cyclesLoop growslice s' ns h cycles.
Proof.
  intros Hl. induction ns as [|node ns IH]; intros h cycles; cbn [cyclesLoop]; [done|].
  unfold cycleFuel. rewrite Hl, (findCycle_ext s s' _ Hl).
  destruct (findCycle growslice _ s' h node node nil_slice) as [[h1 ws]|]; [apply IH|done].
Qed.

(** [IsValid] reads the nodes, the links and the join modes, and nothing
    else of the system. *)
Lemma IsValid_ext s s' :
  nodes s = nodes s' -> links s = links s' -> nodesJoinModes s = nodesJoinModes s' ->
  IsValid DecideCapability growslice s = IsValid DecideCapability growslice s'.
Proof.
  intros Hn Hl Hm.
  unfold IsValid, checkForOrphanMultiBranchesNode, checkForCyclicRedundancyInNodeLinks,
    checkForUndeclaredNodeInNodeLink, checkForMultipleInstanceOfSameNode,
    checkForMultipleLinksToNodeWithoutJoinMode, haveNode, JoinModeOfNode.
  rewrite (orphanLoop_ext s s' _ _ Hl), (cyclesLoop_ext s s' _ Hl).
  by rewrite Hn, Hl, Hm.
Qed.

(** What [IsValid] answers when every check passes. *)
Lemma IsValid_true_checks s :
  IsValid DecideCapability growslice s = Ret (true, [])
  <-> checkForOrphanMultiBranchesNode DecideCapability s = Ret []
      /\ checkForCyclicRedundancyInNodeLinks growslice s = Ret []
      /\ checkForUndeclaredNodeInNodeLink s = []
      /\ checkForMultipleInstanceOfSameNode s = []
      /\ checkForMultipleLinksToNodeWithoutJoinMode s = [].
Proof.
  unfold IsValid. split.
  - destruct (checkForOrphanMultiBranchesNode _ s) as [e1| |]; cbn [obind]; [|done..].
    destruct (checkForCyclicRedundancyInNodeLinks _ s) as [e2| |]; cbn [obind]; [|done..].
    case_bool_decide as Hz; [|done]. intros _.
    rewrite !length_app in Hz.
    assert (length e1 = 0 /\ length e2 = 0
            /\ length (checkForUndeclaredNodeInNodeLink s) = 0
            /\ length (checkForMultipleInstanceOfSameNode s) = 0
            /\ length (checkForMultipleLinksToNodeWithoutJoinMode s) = 0) as (?&?&?&?&?) by lia.
    repeat split; try f_equal; by apply nil_length_inv.
  - intros (-> & -> & -> & -> & ->). done.
Qed.

(** What [IsValid] returns: the errors of the five checks in their order,
    and [true] with no error exactly when there is none. *)
Lemma IsValid_Ret s ok errs :
  IsValid DecideCapability growslice s = Ret (ok, errs) ->
  exists e1 e2,
    checkForOrphanMultiBranchesNode DecideCapability s = Ret e1
    /\ checkForCyclicRedundancyInNodeLinks growslice s = Ret e2
    /\ errs = e1 ++ e2 ++ checkForUndeclaredNodeInNodeLink s
              ++ checkForMultipleInstanceOfSameNode s
              ++ checkForMultipleLinksToNodeWithoutJoinMode s
    /\ (ok = true <-> errs = []).
Proof.
  unfold IsValid.
  destruct (checkForOrphanMultiBranchesNode _ s) as [e1| |]; cbn [obind]; [|done..].
  destruct (checkForCyclicRedundancyInNodeLinks _ s) as [e2| |]; cbn [obind]; [|done..].
  case_bool_decide as Hz; intros [= <- <-]; exists e1, e2; repeat split; try done.
  - by apply nil_length_inv in Hz.
  - intros Hnil. by rewrite Hnil in Hz.
Qed.

(** ** Activation *)

Lemma reachable_activated_valid s :
  reachable DecideCapability growslice s -> activated s = true ->
  IsValid DecideCapability growslice s = Ret (true, []).
Proof.
  intros Hreach%reachable_evolves. revert s Hreach.
  apply (evolves_invariant
           (fun s => activated s = true -> IsValid DecideCapability growslice s = Ret (true, []))).
  - done.
  - cbn. congruence.
  - cbn. congruence.
  - cbn. congruence.
  - intros s1 s2 _ Hvalid _ Hn Hl Hm _ _ _. by rewrite (IsValid_ext s2 s1).
Qed.

(** X6: an activated system built through the exported operations passes
    every check: IsValid returns (true, nil) on it, so activation is only
    ever granted to, and kept by, valid systems. *)
Theorem activated_systems_are_valid s :
  reachable DecideCapability growslice s -> IsActivated s = true ->
  IsValid DecideCapability growslice s = Ret (true, [])
  /\ checkForUndeclaredNodeInNodeLink s = []
  /\ checkForMultipleInstanceOfSameNode s = []
  /\ checkForMultipleLinksToNodeWithoutJoinMode s = [].
Proof.
  intros Hreach Hact. pose proof (reachable_activated_valid s Hreach Hact) as Hvalid.
  split; [done|]. apply IsValid_true_checks in Hvalid. tauto.
Qed.

(** X7: what Activate returns.  It never changes the nodes, the links or
    the join modes; it returns nil exactly when the system it leaves is
    activated; when it returns an error, that is the unvalidated-system
    error, the system is untouched and IsValid had returned false with at
    least one error.  On a system that is not activated it succeeds exactly
    when IsValid returns true, and panics exactly when IsValid does. *)
Theorem Activate_outcome s :
  (forall s' e,
     Activate DecideCapability growslice s = Ret (s', e) ->
     nodes s' = nodes s /\ links s' = links s /\ nodesJoinModes s' = nodesJoinModes s
     /\ (e = None <-> activated s' = true)
     /\ (e <> None ->
         s' = s /\ e = Some (errors_New "can't activate a unvalidated node system")
         /\ exists errs, IsValid DecideCapability growslice s = Ret (false, errs) /\ errs <> []))
  /\ (activated s = false ->
      ((exists s', Activate DecideCapability growslice s = Ret (s', None))
       <-> IsValid DecideCapability growslice s = Ret (true, []))
      /\ (Activate DecideCapability growslice s = Panic
          <-> IsValid DecideCapability growslice s = Panic))
  /\ Activate DecideCapability growslice s <> Timeout.
Proof.
  unfold Activate. destruct (activated s) eqn:Hact.
  { split; [|split; [done|done]]. intros s' e [= <- <-]. rewrite Hact.
    repeat split; try done. }
  destruct (IsValid_outcome s) as [(Hnil & e2 & [ok errs] & He2 & Hv)|(_ & Hv)].
  - rewrite Hv. cbn [obind].
    destruct (IsValid_Ret s ok errs Hv) as (e1 & e2' & _ & _ & _ & Hok).
    destruct ok; cbn [negb].
    + assert (errs = []) as -> by (by apply Hok).
      split; [|split; [|done]].
      * intros s' e [= <- <-]. cbn. repeat split; try done.
      * intros _. split; [|done]. split; [done|]. intros _. eauto.
    + assert (errs <> []) as Herrs by (intros Hnone; apply Hok in Hnone; done).
      split; [|split; [|done]].
      * intros s' e [= <- <-]. rewrite Hact. repeat split; try done. eauto.
      * intros _. split; [|done]. split; [|done]. intros (s' & [= _ ?]).
  - rewrite Hv. cbn [obind]. split; [done|]. split; [|done].
    intros _. split; [|done]. split; [|done]. by intros (s' & ?).
Qed.

(** ** The indices of an activated system *)

Lemma Follow_elems s n pointer :
  reachable DecideCapability growslice s -> activated s = true ->
  slice_elems (Follow s n pointer).1
  = To <$> filter (fun link => From link = n /\ pointerOf (Branch link) = pointer) (links s).
Proof.
  intros Hreach Hact. destruct (reachable_indexed s Hreach Hact) as (_ & Hfol & _).
  rewrite Follow_bucket by done. cbn [fst]. rewrite Hfol. unfold buildFollowing.
  rewrite (bucket_build From To). by destruct (filter _ (links s)).
Qed.

Lemma Ancestors_elems s n pointer :
  reachable DecideCapability growslice s -> activated s = true ->
  slice_elems (Ancestors s n pointer).1
  = From <$> filter (fun link => To link = n /\ pointerOf (Branch link) = pointer) (links s).
Proof.
  intros Hreach Hact. destruct (reachable_indexed s Hreach Hact) as (_ & _ & Hanc).
  rewrite Ancestors_bucket by done. cbn [fst]. rewrite Hanc. unfold buildAncestors.
  rewrite (bucket_build To From). by destruct (filter _ (links s)).
Qed.

(** X8: on an activated system Ancestors(n, b), called with nil or with the
    package's pointer for a boolean, returns no error and the [from]
    endpoints of the links whose [to] is n and whose branch label is the one
    b stands for, in the order the links were added; the result is the nil
    slice exactly when there is no such link.  Called with any other
    pointer, whatever boolean it points to, it returns the nil slice and no
    error. *)
Theorem Ancestors_activated s n :
  reachable DecideCapability growslice s ->
  activated s = true ->
  (forall label,
     exists r,
       Ancestors s n (pointerOf label) = (r, None)
       /\ slice_elems r
          = From <$> filter (fun link => To link = n /\ Branch link = label) (links s)
       /\ (r = None
           <-> filter (fun link => To link = n /\ Branch link = label) (links s) = []))
  /\ (forall address b, Ancestors s n (otherPointer address b) = (None, None)).
Proof.
  intros Hreach Hact. destruct (reachable_indexed s Hreach Hact) as (_ & _ & Hanc).
  assert (Hb : forall pointer,
             bucket (ancestorsNodesTree s) n pointer
             = match filter (fun link => To link = n /\ pointerOf (Branch link) = pointer)
                            (links s) with
               | [] => None
               | sel => Some (From <$> sel)
               end).
  { intros pointer. rewrite Hanc. apply (bucket_build To From). }
  split.
  - intros label. exists (bucket (ancestorsNodesTree s) n (pointerOf label)).
    rewrite Ancestors_bucket, Hb, filter_pointerOf by done.
    split; [done|]. split; by destruct (filter _ (links s)).
  - intros address b. by rewrite Ancestors_bucket, Hb, filter_otherPointer.
Qed.

(** X9: on an activated system Follow and Ancestors are two views of the
    same links, for every pointer: m is among the nodes that follow n on a
    pointer exactly when n is among the ancestors of m on that pointer, and
    exactly when the pointer is the one held by a link from n to m that was
    added.  For the pointer of a label that is: exactly when the link from n
    to m with that label was added. *)
Theorem Follow_Ancestors_dual s n m pointer :
  reachable DecideCapability growslice s ->
  activated s = true ->
  (m ∈ slice_elems (Follow s n pointer).1 <-> n ∈ slice_elems (Ancestors s m pointer).1)
  /\ (m ∈ slice_elems (Follow s n pointer).1
      <-> exists label, pointer = pointerOf label /\ mkLink n m label ∈ links s)
  /\ (forall label,
        m ∈ slice_elems (Follow s n (pointerOf label)).1 <-> mkLink n m label ∈ links s).
Proof.
  intros Hreach Hact.
  assert (Hf : forall ptr : branchPointer,
             m ∈ slice_elems (Follow s n ptr).1
             <-> exists label, ptr = pointerOf label /\ mkLink n m label ∈ links s).
  { intros ptr. rewrite Follow_elems, list_elem_of_fmap by done. split.
    - intros ([f t b] & Hm & [[Hn Hb] Hin]%list_elem_of_filter). cbn in *. subst.
      by exists b.
    - intros (label & -> & Hin). exists (mkLink n m label). split; [done|].
      by apply list_elem_of_filter. }
  assert (Ha : n ∈ slice_elems (Ancestors s m pointer).1
               <-> exists label, pointer = pointerOf label /\ mkLink n m label ∈ links s).
  { rewrite Ancestors_elems, list_elem_of_fmap by done. split.
    - intros ([f t b] & Hm & [[Hn Hb] Hin]%list_elem_of_filter). cbn in *. subst.
      by exists b.
    - intros (label & -> & Hin). exists (mkLink n m label). split; [done|].
      by apply list_elem_of_filter. }
  split; [by rewrite Hf, Ha|]. split; [apply Hf|].
  intros label. rewrite Hf. split.
  - intros (label' & Heq%pointerOf_inj & Hin). by subst.
  - intros Hin. by exists label.
Qed.

(** X10: on an activated system the initial nodes are the declared nodes
    without ancestors: a node is returned by InitialNodes exactly when it
    was declared and Ancestors returns the nil slice for it on every
    branch pointer, and exactly when it was declared and Ancestors returns
    the nil slice for it on the three pointers that links hold. *)
Theorem InitialNodes_no_ancestors s n :
  reachable DecideCapability growslice s ->
  activated s = true ->
  (n ∈ InitialNodes s
   <-> n ∈ nodes s /\ forall pointer, Ancestors s n pointer = (None, None))
  /\ (n ∈ InitialNodes s
      <-> n ∈ nodes s /\ forall label, Ancestors s n (pointerOf label) = (None, None)).
Proof.
  intros Hreach Hact. destruct (reachable_indexed s Hreach Hact) as (Hini & _ & Hanc).
  assert (Hother : forall address b, Ancestors s n (otherPointer address b) = (None, None)).
  { intros address b. rewrite Ancestors_bucket, Hanc by done. unfold buildAncestors.
    by rewrite (bucket_build To From), filter_otherPointer. }
  assert (Hall : (forall pointer, Ancestors s n pointer = (None, None))
                 <-> forall label, Ancestors s n (pointerOf label) = (None, None)).
  { split; [intros Hp label; apply Hp|]. intros Hl pointer.
    destruct (pointerOf_cases pointer) as [[label ->]|(address & b & ->)]; auto. }
  rewrite <- Hall.
  cut (n ∈ InitialNodes s
       <-> n ∈ nodes s /\ forall pointer, Ancestors s n pointer = (None, None)).
  { intros Hiff. by split. }
  unfold InitialNodes. rewrite Hini, buildInitialNodes_spec, buildToNodes_spec.
  rewrite list_elem_of_filter.
  assert (Hb : forall pointer,
             Ancestors s n pointer = (None, None)
             <-> filter (fun link => To link = n /\ pointerOf (Branch link) = pointer)
                        (links s) = []).
  { intros pointer. rewrite Ancestors_bucket, Hanc by done. unfold buildAncestors.
    rewrite (bucket_build To From). destruct (filter _ (links s)); [done|].
    split; intros; discriminate. }
  split.
  - intros [Hno Hin]. split; [done|]. intros pointer. apply Hb.
    apply elem_of_nil_inv. intros link [[Hto _] Hl]%list_elem_of_filter.
    apply Hno, list_elem_of_fmap. by exists link.
  - intros [Hin Hno]. split; [|done].
    intros (link & Hto & Hl)%list_elem_of_fmap.
    specialize (Hno (pointerOf (Branch link))). apply Hb in Hno.
    assert (Hmem : link ∈ filter (fun l => To l = n
                                          /\ pointerOf (Branch l) = pointerOf (Branch link))
                                 (links s)).
    { by apply list_elem_of_filter. }
    rewrite Hno in Hmem. by apply elem_of_nil in Hmem.
Qed.

(** ** The orphan check *)

Lemma hasLinkFrom_spec s node : hasLinkFrom s node = true <-> node ∈ (From <$> links s).
Proof.
  unfold hasLinkFrom. rewrite existsb_exists, list_elem_of_fmap. split.
  - intros (link & Hin%list_elem_of_In & Hf%bool_decide_eq_true_1). by exists link.
  - intros (link & -> & Hin). exists link. split; [by apply list_elem_of_In|].
    by apply bool_decide_eq_true_2.
Qed.

Lemma orphanLoop_spec s ns errors :
  None ∉ ns ->
  orphanLoop DecideCapability s ns errors
  = Ret (errors ++ (ErrOrphanDecision
                      <$> filter (fun node => decisionNode DecideCapability node = true
                                              /\ node ∉ (From <$> links s)) ns)).
Proof.
  revert errors. induction ns as [|node ns IH]; intros errors Hnil.
  - cbn. by rewrite app_nil_r.
  - apply not_elem_of_cons in Hnil as [Hnode Hns]. cbn [orphanLoop].
    destruct node as [r|]; [|done]. rewrite filter_cons. cbn [decisionNode].
    destruct (DecideCapability r) eqn:Hd.
    + destruct (hasLinkFrom s (Some r)) eqn:Hl.
      * apply hasLinkFrom_spec in Hl. rewrite decide_False by tauto. by apply IH.
      * rewrite decide_True.
        -- rewrite IH by done. cbn [fmap list_fmap]. by rewrite <- app_assoc.
        -- split; [done|]. intros Hin%hasLinkFrom_spec. congruence.
    + rewrite decide_False by (intros [? _]; congruence). by apply IH.
Qed.

(** X11: the orphan check panics as soon as a nil node was declared (it
    calls DecideCapability on it); otherwise it returns one error for each
    declared decision node that is the source of no link, in the order of
    the declarations and once per declaration. *)
Theorem orphan_check_exact s :
  (None ∈ nodes s -> checkForOrphanMultiBranchesNode DecideCapability s = Panic)
  /\ (None ∉ nodes s ->
      checkForOrphanMultiBranchesNode DecideCapability s
      = Ret (ErrOrphanDecision
               <$> filter (fun node => decisionNode DecideCapability node = true
                                       /\ node ∉ (From <$> links s)) (nodes s))).
Proof.
  unfold checkForOrphanMultiBranchesNode. split.
  - intros Hnil. by apply orphanLoop_panics.
  - intros Hnil. by rewrite orphanLoop_spec.
Qed.

(** ** The check of the declared endpoints *)

Lemma haveNode_spec s n : haveNode s n = true <-> n ∈ nodes s.
Proof.
  unfold haveNode. rewrite existsb_exists. split.
  - intros (node & Hin%list_elem_of_In & ->%bool_decide_eq_true_1). done.
  - intros Hin. exists n. split; [by apply list_elem_of_In|by apply bool_decide_eq_true_2].
Qed.

Lemma undeclared_guard s n :
  bool_decide (n <> None) && negb (haveNode s n) = true <-> n <> None /\ n ∉ nodes s.
Proof.
  rewrite andb_true_iff, bool_decide_eq_true, negb_true_iff, <- not_true_iff_false.
  by rewrite haveNode_spec.
Qed.

Lemma checkForUndeclared_from s n link :
  ErrUndeclaredFrom n link ∈ checkForUndeclaredNodeInNodeLink s
  <-> link ∈ links s /\ n = From link /\ n <> None /\ n ∉ nodes s.
Proof.
  unfold checkForUndeclaredNodeInNodeLink. rewrite list_elem_of_In, in_flat_map. split.
  - intros (l & Hin%list_elem_of_In & He%list_elem_of_In).
    apply elem_of_app in He as [He|He].
    + destruct (bool_decide (From l <> None) && negb (haveNode s (From l))) eqn:Hg;
        [|by apply elem_of_nil in He].
      apply list_elem_of_singleton in He as [= -> ->]. apply undeclared_guard in Hg. tauto.
    + destruct (bool_decide (To l <> None) && negb (haveNode s (To l)));
        [|by apply elem_of_nil in He].
      by apply list_elem_of_singleton in He.
  - intros (Hin & -> & Hg%undeclared_guard). exists link. split; [by apply list_elem_of_In|].
    rewrite Hg. apply in_or_app. left. by left.
Qed.

Lemma checkForUndeclared_to s n link :
  ErrUndeclaredTo n link ∈ checkForUndeclaredNodeInNodeLink s
  <-> link ∈ links s /\ n = To link /\ n <> None /\ n ∉ nodes s.
Proof.
  unfold checkForUndeclaredNodeInNodeLink. rewrite list_elem_of_In, in_flat_map. split.
  - intros (l & Hin%list_elem_of_In & He%list_elem_of_In).
    apply elem_of_app in He as [He|He].
    + destruct (bool_decide (From l <> None) && negb (haveNode s (From l)));
        [|by apply elem_of_nil in He].
      by apply list_elem_of_singleton in He.
    + destruct (bool_decide (To l <> None) && negb (haveNode s (To l))) eqn:Hg;
        [|by apply elem_of_nil in He].
      apply list_elem_of_singleton in He as [= -> ->]. apply undeclared_guard in Hg. tauto.
  - intros (Hin & -> & Hg%undeclared_guard). exists link. split; [by apply list_elem_of_In|].
    rewrite Hg. apply in_or_app. right. by left.
Qed.

Lemma checkForUndeclared_nil s :
  checkForUndeclaredNodeInNodeLink s = []
  <-> forall link, link ∈ links s ->
        (From link = None \/ From link ∈ nodes s) /\ (To link = None \/ To link ∈ nodes s).
Proof.
  split.
  - intros Hnil link Hin. split.
    + destruct (decide (From link = None)) as [|Hf]; [by left|right].
      destruct (decide (From link ∈ nodes s)) as [|Hd]; [done|exfalso].
      assert (He : ErrUndeclaredFrom (From link) link ∈ checkForUndeclaredNodeInNodeLink s)
        by (by apply checkForUndeclared_from).
      rewrite Hnil in He. by apply elem_of_nil in He.
    + destruct (decide (To link = None)) as [|Hf]; [by left|right].
      destruct (decide (To link ∈ nodes s)) as [|Hd]; [done|exfalso].
      assert (He : ErrUndeclaredTo (To link) link ∈ checkForUndeclaredNodeInNodeLink s)
        by (by apply checkForUndeclared_to).
      rewrite Hnil in He. by apply elem_of_nil in He.
  - intros Hall. apply elem_of_nil_inv. intros e He.
    destruct (checkForUndeclared_elem s e He) as [(n & link & ->)|(n & link & ->)].
    + apply checkForUndeclared_from in He as (Hin & -> & Hn & Hd).
      destruct (Hall link Hin) as [[?|?] _]; done.
    + apply checkForUndeclared_to in He as (Hin & -> & Hn & Hd).
      destruct (Hall link Hin) as [_ [?|?]]; done.
Qed.

(** X12: the check of the endpoints reports a link's [from] exactly when
    it is a non-nil node that was not declared, and likewise its [to]; a nil
    endpoint is never reported.  The check returns no error exactly when
    every non-nil endpoint of every link was declared. *)
Theorem undeclared_check_exact s :
  (forall n link,
     ErrUndeclaredFrom n link ∈ checkForUndeclaredNodeInNodeLink s
     <-> link ∈ links s /\ n = From link /\ n <> None /\ haveNode s n = false)
  /\ (forall n link,
        ErrUndeclaredTo n link ∈ checkForUndeclaredNodeInNodeLink s
        <-> link ∈ links s /\ n = To link /\ n <> None /\ haveNode s n = false)
  /\ (forall n, haveNode s n = true <-> n ∈ nodes s)
  /\ (checkForUndeclaredNodeInNodeLink s = []
      <-> forall link, link ∈ links s ->
            (From link = None \/ From link ∈ nodes s) /\ (To link = None \/ To link ∈ nodes s)).
Proof.
  assert (Hno : forall n, haveNode s n = false <-> n ∉ nodes s).
  { intros n. rewrite <- haveNode_spec. by destruct (haveNode s n). }
  split; [|split; [|split]].
  - intros n link. rewrite checkForUndeclared_from, Hno. tauto.
  - intros n link. rewrite checkForUndeclared_to, Hno. tauto.
  - apply haveNode_spec.
  - apply checkForUndeclared_nil.
Qed.

(** ** The check of the nodes declared several times *)

Lemma NoDup_count {A} `{EqDecision A} (l : list A) :
  NoDup l <-> forall a, length (filter (fun b => b = a) l) <= 1.
Proof.
  induction l as [|b l IH].
  - split; [intros _ a; cbn; lia|intros _; constructor].
  - rewrite NoDup_cons, IH. split.
    + intros [Hb Hl] a. rewrite filter_cons. destruct (decide (b = a)) as [->|Hne]; [|done].
      cbn [length]. specialize (Hl a).
      destruct (filter (fun b => b = a) l) as [|c rest] eqn:Hf; [cbn; lia|exfalso].
      assert (Hc : c ∈ filter (fun b => b = a) l) by (rewrite Hf; by left).
      apply list_elem_of_filter in Hc as [-> Hc]. done.
    + intros Hall. split.
      * intros Hin. specialize (Hall b). rewrite filter_cons, decide_True in Hall by done.
        cbn [length] in Hall.
        assert (Hb : b ∈ filter (fun c => c = b) l) by (by apply list_elem_of_filter).
        destruct (filter (fun c => c = b) l); [by apply elem_of_nil in Hb|cbn in Hall; lia].
      * intros a. specialize (Hall a). rewrite filter_cons in Hall.
        destruct (decide (b = a)); [cbn [length] in Hall; lia|done].
Qed.

Lemma instances_bound s (a : @Node NodeRef) :
  (Z.of_nat (length (nodes s) * length (nodes s)) <= int_max)%Z ->
  (Z.of_nat (instancesOf s a * (instancesOf s a - 1)) <= int_max)%Z.
Proof.
  intros Hb. unfold instancesOf.
  pose proof (length_filter (fun n => n = a) (nodes s)) as Hle. nia.
Qed.

Lemma checkForMultipleInstance_exact s c (a : @Node NodeRef) :
  (Z.of_nat (length (nodes s) * length (nodes s)) <= int_max)%Z ->
  ErrMultipleInstances c a ∈ checkForMultipleInstanceOfSameNode s
  <-> 2 <= instancesOf s a /\ c = Z.of_nat (instancesOf s a * (instancesOf s a - 1)).
Proof.
  intros Hb. pose proof (instances_bound s a Hb) as Hba.
  pose proof (countInstances_lookup (nodes s) a Hba) as Hcount. cbn zeta in Hcount.
  fold (instancesOf s a) in Hcount.
  rewrite checkForMultipleInstance_iff. split.
  - intros (n & c' & [= <- <-] & Hc & Hlt). rewrite Hcount in Hc.
    destruct (instancesOf s a * (instancesOf s a - 1)) as [|t] eqn:Ht; [done|].
    injection Hc as <-. split; [|done]. destruct (instancesOf s a) as [|[|k]]; cbn in Ht; lia.
  - intros [Hk ->]. exists a, (Z.of_nat (instancesOf s a * (instancesOf s a - 1))).
    split; [done|]. rewrite Hcount.
    destruct (instancesOf s a * (instancesOf s a - 1)) as [|t] eqn:Ht; [nia|].
    split; [done|]. nia.
Qed.

Lemma checkForMultipleInstance_nil s :
  (Z.of_nat (length (nodes s) * length (nodes s)) <= int_max)%Z ->
  checkForMultipleInstanceOfSameNode s = [] <-> NoDup (nodes s).
Proof.
  intros Hb. rewrite NoDup_count. split.
  - intros Hnil a. fold (instancesOf s a).
    destruct (decide (instancesOf s a <= 1)) as [|Hk]; [done|exfalso].
    assert (He : ErrMultipleInstances (Z.of_nat (instancesOf s a * (instancesOf s a - 1))) a
                 ∈ checkForMultipleInstanceOfSameNode s).
    { apply checkForMultipleInstance_exact; [done|]. split; [lia|done]. }
    rewrite Hnil in He. by apply elem_of_nil in He.
  - intros Hall. apply elem_of_nil_inv. intros e He.
    destruct (checkForMultipleInstance_elem s e He) as (c & a & ->).
    apply checkForMultipleInstance_exact in He as [Hk _]; [|done].
    specialize (Hall a). unfold instancesOf in Hk. lia.
Qed.

(** X13: the duplicate check (the square of the number of nodes being an
    int) reports a node exactly when it was declared at least twice, once,
    and with the count k * (k - 1) for k declarations: the number of ordered
    pairs of distinct positions that hold it.  It returns no error exactly
    when no node was declared twice. *)
Theorem duplicate_check_exact s :
  (Z.of_nat (length (nodes s) * length (nodes s)) <= int_max)%Z ->
  NoDup (checkForMultipleInstanceOfSameNode s)
  /\ (forall c n,
        ErrMultipleInstances c n ∈ checkForMultipleInstanceOfSameNode s
        <-> 2 <= instancesOf s n /\ c = Z.of_nat (instancesOf s n * (instancesOf s n - 1)))
  /\ (checkForMultipleInstanceOfSameNode s = [] <-> NoDup (nodes s)).
Proof.
  intros Hb. split; [apply checkForMultipleInstance_NoDup|]. split.
  - intros c n. by apply checkForMultipleInstance_exact.
  - by apply checkForMultipleInstance_nil.
Qed.

(** ** The check of the join modes *)

Lemma checkForMultipleLinks_exact s c n :
  (Z.of_nat (length (links s)) <= int_max)%Z ->
  ErrMultipleLinks c n ∈ checkForMultipleLinksToNodeWithoutJoinMode s
  <-> 2 <= inboundLinks s n /\ c = Z.of_nat (inboundLinks s n)
      /\ JoinModeOfNode s n = JoinNone.
Proof.
  intros Hlen. pose proof (countLinksTo_lookup (links s) n Hlen) as Hcount.
  fold (inboundLinks s n) in Hcount. rewrite checkForMultipleLinks_elem. split.
  - intros (n' & c' & [= <- <-] & Hc & Hlt & Hj). rewrite Hcount in Hc.
    destruct (inboundLinks s n) as [|k]; [done|]. injection Hc as <-.
    split; [lia|]. by split.
  - intros (Hk & -> & Hj). exists n, (Z.of_nat (inboundLinks s n)).
    split; [done|]. rewrite Hcount.
    destruct (inboundLinks s n) as [|k]; [lia|]. split; [done|]. split; [lia|done].
Qed.

Lemma checkForMultipleLinks_nil s :
  (Z.of_nat (length (links s)) <= int_max)%Z ->
  checkForMultipleLinksToNodeWithoutJoinMode s = []
  <-> forall n, 2 <= inboundLinks s n -> JoinModeOfNode s n <> JoinNone.
Proof.
  intros Hlen. split.
  - intros Hnil n Hk Hj.
    assert (He : ErrMultipleLinks (Z.of_nat (inboundLinks s n)) n
                 ∈ checkForMultipleLinksToNodeWithoutJoinMode s).
    { by apply checkForMultipleLinks_exact. }
    rewrite Hnil in He. by apply elem_of_nil in He.
  - intros Hall. apply elem_of_nil_inv. intros e He.
    pose proof He as (n & c & -> & _)%checkForMultipleLinks_elem.
    apply checkForMultipleLinks_exact in He as (Hk & _ & Hj); [|done].
    by apply (Hall n).
Qed.

Lemma checkForMultipleLinks_NoDup s : NoDup (checkForMultipleLinksToNodeWithoutJoinMode s).
Proof.
  unfold checkForMultipleLinksToNodeWithoutJoinMode.
  pose proof (NoDup_fst_map_to_list (countLinksTo (links s))) as Hnd.
  induction (map_to_list (countLinksTo (links s))) as [|[n c] l IH]; [constructor|].
  cbn [fmap list_fmap fst] in Hnd. apply NoDup_cons in Hnd as [Hn Hnd].
  cbn [flat_map].
  destruct (bool_decide (1 < c)%Z && bool_decide (JoinModeOfNode s n = JoinNone));
    [|by apply IH].
  cbn [app]. apply NoDup_cons. split; [|by apply IH].
  rewrite list_elem_of_In, in_flat_map. intros ([n' c'] & Hin & He).
  destruct (bool_decide (1 < c')%Z && bool_decide (JoinModeOfNode s n' = JoinNone)); [|done].
  destruct He as [[= -> ->]|[]].
  apply Hn, list_elem_of_fmap. exists (n, c). split; [done|]. by apply list_elem_of_In.
Qed.

(** X14: the join-mode check (the number of links being an int) reports a
    node exactly when at least two links lead to it and its join mode is
    JoinNone, once, and with the number of those links; a node configured
    with JoinAnd or JoinOr is never reported.  It returns no error exactly
    when every node with several inbound links has a join mode. *)
Theorem join_mode_check_exact s :
  (Z.of_nat (length (links s)) <= int_max)%Z ->
  NoDup (checkForMultipleLinksToNodeWithoutJoinMode s)
  /\ (forall c n,
        ErrMultipleLinks c n ∈ checkForMultipleLinksToNodeWithoutJoinMode s
        <-> 2 <= inboundLinks s n /\ c = Z.of_nat (inboundLinks s n)
            /\ JoinModeOfNode s n = JoinNone)
  /\ (checkForMultipleLinksToNodeWithoutJoinMode s = []
      <-> forall n, 2 <= inboundLinks s n -> JoinModeOfNode s n <> JoinNone).
Proof.
  intros Hlen. split; [apply checkForMultipleLinks_NoDup|]. split.
  - intros c n. by apply checkForMultipleLinks_exact.
  - by apply checkForMultipleLinks_nil.
Qed.

(** ** What the cycle search finds *)

Implicit Types (p q : list (@nodeLink NodeRef)).

Lemma isPath_app (a c : @Node NodeRef) p q :
  isPath a (p ++ q) c <-> exists b, isPath a p b /\ isPath b q c.
Proof.
  revert a. induction p as [|link p IH]; intros a; cbn [isPath app].
  - split; [intros Hq; by exists a|intros (b & -> & Hq); done].
  - rewrite IH. split.
    + intros (Hf & b & Hp & Hq). exists b. by repeat split.
    + intros (b & (Hf & Hp) & Hq). split; [done|]. by exists b.
Qed.

Lemma isPath_functional (a b c : @Node NodeRef) p : isPath a p b -> isPath a p c -> b = c.
Proof.
  revert a. induction p as [|link p IH]; intros a; cbn [isPath].
  - congruence.
  - intros [_ Hb] [_ Hc]. by apply (IH (To link)).
Qed.

Lemma closes_back s (top : @Node NodeRef) walk link :
  closes s top (walk ++ [link]) -> closes s top walk.
Proof. intros [q Hq]. exists (link :: q). by rewrite <- app_assoc in Hq. Qed.

(** A walk that can still be closed, and is not closed yet, goes on with a
    link out of its last node, which it has not left before. *)
Lemma closes_step s (top cur : @Node NodeRef) walk :
  walkTo s top cur walk -> ~ (walk <> [] /\ top = cur) -> closes s top walk ->
  exists link, link ∈ links s /\ From link = cur /\ (cur ∉ (From <$> walk))
               /\ closes s top (walk ++ [link]).
Proof.
  intros (Hpath & _ & _) Hopen [q (Hne & Hcyc & Hin & Hnd)].
  destruct q as [|link q].
  - rewrite app_nil_r in *. destruct Hopen. split; [done|].
    by apply (isPath_functional top top cur walk).
  - exists link. pose proof Hcyc as Hcyc'.
    apply isPath_app in Hcyc' as (b & Hb & Hf & Hq).
    assert (b = cur) as -> by (by apply (isPath_functional top b cur walk)).
    split; [apply Hin, elem_of_app; right; by left|]. split; [done|]. split.
    + rewrite fmap_app in Hnd. apply NoDup_app in Hnd as (_ & Hdisj & _).
      intros Hc. apply (Hdisj _ Hc). rewrite <- Hf. by left.
    + exists q. rewrite <- app_assoc. cbn [app]. by repeat split.
Qed.

Lemma walkTo_extend s (top cur : @Node NodeRef) walk link :
  walkTo s top cur walk -> link ∈ links s -> From link = cur -> cur ∉ (From <$> walk) ->
  walkTo s top (To link) (walk ++ [link]).
Proof.
  intros (Hpath & Hin & Hnd) Hl Hf Hfresh. split; [|split].
  - apply isPath_app. exists cur. by repeat split.
  - intros l [?|Hlast]%elem_of_app; [auto|]. by apply list_elem_of_singleton in Hlast as ->.
  - rewrite fmap_app. apply NoDup_app. split; [done|]. split; [|apply NoDup_singleton].
    intros n Hn ->%list_elem_of_singleton. congruence.
Qed.

Lemma walkLinks_verdict s (topNode : @Node NodeRef)
    (rec : list (list nodeLink) -> Node -> slice -> option (list (list nodeLink) * list slice))
    w walk :
  forall selectedLinks,
    (forall link h1 w1,
       link ∈ selectedLinks -> slice_wf h1 w1 -> slice_read h1 w1 = walk ++ [link] ->
       exists h2 lc, rec h1 (To link) w1 = Some (h2, lc) /\ frame h1 w1 h2
                     /\ (lc <> [] <-> closes s topNode (walk ++ [link]))) ->
    forall h cycles h' ws,
      slice_wf h w -> slice_read h w = walk ->
      walkLinks growslice rec selectedLinks h w cycles = Some (h', ws) ->
      (ws <> [] <-> cycles <> []
                    \/ exists link, link ∈ selectedLinks /\ closes s topNode (walk ++ [link])).
Proof.
  induction selectedLinks as [|link rest IH]; intros Hrec h cycles h' ws Hwf Hread.
  - cbn. intros [= <- <-]. split; [by left|]. intros [?|(l & Hl & _)]; [done|].
    by apply elem_of_nil in Hl.
  - cbn [walkLinks].
    pose proof (slice_append_wf h w link Hwf) as Hwf1.
    pose proof (slice_append_read h w link Hwf) as Hread1.
    destruct (slice_append growslice h w link) as [h1 w1] eqn:Happ. cbn [fst snd] in *.
    rewrite Hread in Hread1.
    destruct (Hrec link h1 w1) as (h2 & lc & -> & Hf2 & Hlc); [by left|done|done|].
    assert (Hf : frame h w h2).
    { apply (frame_append_step h w link); [done|]. by rewrite Happ. }
    intros Hw. apply IH in Hw.
    + rewrite Hw. split.
      * intros [Hc|(l & Hl & Hcl)].
        -- destruct cycles as [|c cycles]; [|by left]. cbn [app] in Hc.
           right. exists link. split; [by left|]. by apply Hlc.
        -- right. exists l. split; [by right|done].
      * intros [Hc|(l & Hl & Hcl)].
        -- left. by destruct cycles.
        -- apply elem_of_cons in Hl as [->|Hl].
           ++ left. apply Hlc in Hcl. destruct lc; [done|]. by destruct cycles.
           ++ right. by exists l.
    + intros l h3 w3 Hl. apply Hrec. by right.
    + by eapply slice_wf_frame.
    + by rewrite (slice_read_frame h w h2).
Qed.

(** A call of [findCycle] returns a walk exactly when the walk it was given
    can be closed into a cycle through the top node. *)
Lemma findCycle_verdict s fuel :
  forall h topNode currentNode w h' ws,
    slice_wf h w -> remaining s (slice_read h w) < fuel ->
    walkTo s topNode currentNode (slice_read h w) ->
    findCycle growslice fuel s h topNode currentNode w = Some (h', ws) ->
    (ws <> [] <-> closes s topNode (slice_read h w)).
Proof.
  induction fuel as [|fuel IH]; intros h topNode currentNode w h' ws Hwf Hfuel Hwalk; [lia|].
  cbn [findCycle].
  pose proof (slice_read_length h w Hwf) as Hlen.
  destruct (bool_decide (0 < s_len w) && bool_decide (topNode = currentNode)) eqn:Htop.
  { apply andb_true_iff in Htop as [Hpos%bool_decide_eq_true_1 <-%bool_decide_eq_true_1].
    intros [= <- <-]. split; [intros _|done].
    destruct Hwalk as (Hpath & Hin & Hnd).
    exists []. rewrite app_nil_r. repeat split; try done.
    intros Hnil. rewrite Hnil in Hlen. cbn in Hlen. lia. }
  assert (Hopen : ~ (slice_read h w <> [] /\ topNode = currentNode)).
  { intros [Hne Heq]. apply andb_false_iff in Htop as [Hz|Hz]; apply bool_decide_eq_false in Hz.
    - destruct (slice_read h w); [done|cbn in Hlen; lia].
    - done. }
  destruct (bool_decide (0 < s_len w) && existsb _ (slice_read h w)) eqn:Hseen.
  { intros [= <- <-]. split; [done|]. intros Hc. exfalso.
    destruct (closes_step s topNode currentNode _ Hwalk Hopen Hc) as (l & _ & _ & Hfresh & _).
    apply andb_true_iff in Hseen as [_ Hex]. apply existsb_exists in Hex as (l' & Hl' & Hcur).
    apply bool_decide_eq_true_1 in Hcur. apply Hfresh. rewrite Hcur.
    by apply list_elem_of_fmap_2, list_elem_of_In. }
  assert (Hfresh : currentNode ∉ (From <$> slice_read h w)).
  { intros (link & Hc & Hin)%list_elem_of_fmap.
    apply andb_false_iff in Hseen as [Hz|Hex].
    - apply bool_decide_eq_false in Hz.
      destruct (slice_read h w); [by apply elem_of_nil in Hin|cbn in *; lia].
    - apply not_true_iff_false in Hex. apply Hex, existsb_exists.
      exists link. split; [by apply list_elem_of_In|by apply bool_decide_eq_true_2]. }
  destruct (bool_decide (length (filter _ (links s)) = 0)) eqn:Hsel.
  { intros [= <- <-]. split; [done|]. intros Hc. exfalso.
    destruct (closes_step s topNode currentNode _ Hwalk Hopen Hc) as (l & Hl & Hf & _).
    apply bool_decide_eq_true_1 in Hsel.
    assert (Hmem : l ∈ filter (fun link => From link = currentNode) (links s))
      by (by apply list_elem_of_filter).
    destruct (filter _ (links s)); [by apply elem_of_nil in Hmem|done]. }
  intros Hw.
  apply (walkLinks_verdict s topNode _ w (slice_read h w)) in Hw; [| |done|done].
  - rewrite Hw. split.
    + intros [?|(l & _ & Hcl)]; [done|]. by apply closes_back in Hcl.
    + intros Hc. right.
      destruct (closes_step s topNode currentNode _ Hwalk Hopen Hc) as (l & Hl & Hf & _ & Hcl).
      exists l. split; [by apply list_elem_of_filter|done].
  - intros link h1 w1 [HF Hin]%list_elem_of_filter Hwf1 Hread1.
    assert (Hrem : remaining s (slice_read h1 w1) < fuel).
    { rewrite Hread1.
      assert (remaining s (slice_read h w ++ [link]) < remaining s (slice_read h w)).
      { apply remaining_extend; [done|]. by rewrite HF. }
      lia. }
    destruct (findCycle_returns s fuel h1 topNode (To link) w1 Hwf1 Hrem)
      as (h2 & lc & Hcall & Hf2 & _).
    exists h2, lc. split; [done|]. split; [done|].
    rewrite <- Hread1. apply (IH h1 topNode (To link) w1 h2 lc); try done.
    rewrite Hread1. by apply (walkTo_extend s topNode currentNode).
Qed.

Lemma cyclesLoop_verdict s ns :
  forall h cycles h' cs,
    cyclesLoop growslice s ns h cycles = Some (h', cs) ->
    (cs <> [] <-> cycles <> [] \/ exists top p, top ∈ ns /\ simpleCycle s top p).
Proof.
  induction ns as [|node ns IH]; intros h cycles h' cs; cbn [cyclesLoop].
  - intros [= <- <-]. split; [by left|]. intros [?|(top & p & Hin & _)]; [done|].
    by apply elem_of_nil in Hin.
  - destruct (findCycle growslice (cycleFuel s) s h node node nil_slice) as [[h1 ws]|] eqn:Hcall;
      [|done].
    apply findCycle_verdict in Hcall.
    + change (slice_read h nil_slice) with (@nil (@nodeLink NodeRef)) in Hcall.
      intros Hloop. apply IH in Hloop. rewrite Hloop. split.
      * intros [Hc|(top & p & Hin & Hp)].
        -- destruct cycles as [|c cycles]; [|by left]. cbn [app] in Hc.
           apply Hcall in Hc as [q Hq]. right. exists node, q. split; [by left|done].
        -- right. exists top, p. split; [by right|done].
      * intros [Hc|(top & p & Hin & Hp)].
        -- left. by destruct cycles.
        -- apply elem_of_cons in Hin as [->|Hin].
           ++ left. assert (Hws : ws <> []) by (apply Hcall; by exists p).
              destruct ws; [done|]. by destruct cycles.
           ++ right. by exists top, p.
    + apply slice_wf_nil.
    + pose proof (remaining_le s (slice_read h nil_slice)).
      pose proof (linkSources_length s). unfold cycleFuel. lia.
    + change (slice_read h nil_slice) with (@nil (@nodeLink NodeRef)).
      split; [done|]. split; [|constructor]. intros l Hl. by apply elem_of_nil in Hl.
Qed.

Lemma alreadyTrimmedLoop_nil {A} (content : A -> list (@nodeLink NodeRef)) cycle trimmed :
  alreadyTrimmedLoop content cycle trimmed false = Ret true -> trimmed <> [].
Proof. by destruct trimmed. Qed.

(** The deduplication keeps at least one cycle when there is one. *)
Lemma trimLoop_length {A} (content : A -> list (@nodeLink NodeRef)) cycles :
  forall trimmed r,
    trimLoop content cycles trimmed = Ret r ->
    length trimmed <= length r /\ (cycles <> [] -> r <> []).
Proof.
  induction cycles as [|c cycles IH]; intros trimmed r; cbn [trimLoop].
  - intros [= <-]. done.
  - destruct (alreadyTrimmedLoop content c trimmed false) as [b| |] eqn:Hb; cbn [obind];
      [|done..].
    intros [Hle _]%IH. destruct b.
    + apply alreadyTrimmedLoop_nil in Hb. split; [done|]. intros _ ->.
      destruct trimmed; [done|cbn in Hle; lia].
    + rewrite length_app in Hle. cbn in Hle. split; [lia|]. intros _ ->. cbn in Hle. lia.
Qed.

Lemma acyclic_no_cycle s (top : @Node NodeRef) p : acyclic s -> ~ simpleCycle s top p.
Proof.
  intros [rank Hrank] (Hne & Hpath & Hin & _).
  assert (Hup : forall q (a b : @Node NodeRef),
             (forall link, link ∈ q -> link ∈ links s) -> isPath a q b ->
             rank a <= rank b /\ (q <> [] -> rank a < rank b)).
  { induction q as [|link q IH]; intros a b Hq; cbn [isPath].
    - intros ->. split; [lia|done].
    - intros [<- Hb]. destruct (IH (To link) b) as [Hle _]; [|done|].
      + intros l Hl. apply Hq. by right.
      + assert (rank (From link) < rank (To link)) by (apply Hrank, Hq; by left).
        split; [lia|]. intros _. lia. }
  destruct (Hup p top top Hin Hpath) as [_ Hlt]. specialize (Hlt Hne). lia.
Qed.

Lemma checkForCyclicRedundancyInNodeLinks_nil s :
  checkForCyclicRedundancyInNodeLinks growslice s = Ret []
  <-> forall top p, top ∈ nodes s -> ~ simpleCycle s top p.
Proof.
  unfold checkForCyclicRedundancyInNodeLinks.
  destruct (cyclesLoop_returns s (nodes s) [] []) as (h & cs & Hloop & _); [done|].
  rewrite Hloop. pose proof (cyclesLoop_verdict s (nodes s) _ _ _ _ Hloop) as Hv.
  unfold trimCycles. split.
  - destruct (trimLoop (slice_read h) cs []) as [r| |] eqn:Htrim; cbn [obind]; [|done..].
    intros [= Hr]. apply fmap_nil_inv in Hr as ->.
    apply trimLoop_length in Htrim as [_ Hcs].
    intros top p Hin Hp. apply Hcs; [|done]. apply Hv. right. by exists top, p.
  - intros Hno. destruct cs as [|c cs]; [done|].
    destruct Hv as [Hv _]. destruct Hv as [?|(top & p & Hin & Hp)]; [done|done|].
    by destruct (Hno top p).
Qed.

(** X15: the verdict of the cycle check.  It returns no error exactly when
    no declared node lies on a cycle of links, in particular on every link
    graph that can be ranked; when a declared node lies on a cycle it
    returns at least one cycle error, or panics while comparing cycles; it
    never runs out of budget, and every error it returns is a cycle
    error. *)
Theorem cycle_check_verdict s :
  (checkForCyclicRedundancyInNodeLinks growslice s = Ret []
   <-> forall top p, top ∈ nodes s -> ~ simpleCycle s top p)
  /\ (acyclic s -> checkForCyclicRedundancyInNodeLinks growslice s = Ret [])
  /\ (forall top p, top ∈ nodes s -> simpleCycle s top p ->
        (exists e errs, checkForCyclicRedundancyInNodeLinks growslice s = Ret (e :: errs))
        \/ checkForCyclicRedundancyInNodeLinks growslice s = Panic)
  /\ (forall errs e, checkForCyclicRedundancyInNodeLinks growslice s = Ret errs ->
        e ∈ errs -> exists cycle, e = ErrCycle cycle).
Proof.
  pose proof (checkForCyclicRedundancyInNodeLinks_nil s) as Hnil.
  split; [done|]. split; [|split].
  - intros Hacyclic. apply Hnil. intros top p _. by apply acyclic_no_cycle.
  - intros top p Hin Hp.
    destruct (checkForCyclicRedundancyInNodeLinks_outcome s) as [(errs & Hr & _)|Hpanic];
      [|by right].
    left. destruct errs as [|e errs]; [|by exists e, errs].
    exfalso. by apply (proj1 Hnil Hr top p).
  - intros errs e Hr He.
    destruct (checkForCyclicRedundancyInNodeLinks_outcome s) as [(errs' & Hr' & Hall)|Hpanic];
      [|congruence].
    rewrite Hr in Hr'. injection Hr' as <-. by apply Hall.
Qed.

(** ** Validity *)

Lemma orphan_check_nil s :
  checkForOrphanMultiBranchesNode DecideCapability s = Ret []
  <-> (None ∉ nodes s)
      /\ forall node, node ∈ nodes s -> decisionNode DecideCapability node = true ->
                      exists link, link ∈ links s /\ From link = node.
Proof.
  unfold checkForOrphanMultiBranchesNode.
  destruct (decide (None ∈ nodes s)) as [Hnil|Hnil].
  { rewrite orphanLoop_panics by done. split; [done|tauto]. }
  rewrite orphanLoop_spec by done. cbn [app]. split.
  - intros [= Hf]. apply fmap_nil_inv in Hf. split; [done|].
    intros node Hin Hd.
    destruct (decide (node ∈ (From <$> links s))) as [(l & -> & Hl)%list_elem_of_fmap|Hno].
    + by exists l.
    + assert (Hmem : node ∈ filter (fun node => decisionNode DecideCapability node = true
                                                /\ node ∉ (From <$> links s)) (nodes s))
        by (by apply list_elem_of_filter).
      rewrite Hf in Hmem. by apply elem_of_nil in Hmem.
  - intros [_ Hall]. f_equal.
    assert (Hf : filter (fun node => decisionNode DecideCapability node = true
                                     /\ node ∉ (From <$> links s)) (nodes s) = []).
    { apply elem_of_nil_inv. intros node [[Hd Hno] Hin]%list_elem_of_filter.
      destruct (Hall node Hin Hd) as (l & Hl & <-). by apply Hno, list_elem_of_fmap_2. }
    by rewrite Hf.
Qed.

(** [IsValid] answers (true, nil) exactly on the well-built systems. *)
Lemma IsValid_true_wellBuilt s :
  (Z.of_nat (length (links s)) <= int_max)%Z ->
  (Z.of_nat (length (nodes s) * length (nodes s)) <= int_max)%Z ->
  IsValid DecideCapability growslice s = Ret (true, []) <-> wellBuilt DecideCapability s.
Proof.
  intros Hlinks Hnodes. unfold wellBuilt.
  rewrite IsValid_true_checks, orphan_check_nil, checkForCyclicRedundancyInNodeLinks_nil,
    checkForUndeclared_nil, checkForMultipleInstance_nil, checkForMultipleLinks_nil by done.
  tauto.
Qed.

(** X16: the verdict of IsValid (the number of links and the square of the
    number of nodes being ints).  It returns (true, nil) exactly on the
    well-built systems: no nil node declared, a link out of every declared
    decision node, no declared node on a cycle, every non-nil endpoint of a
    link declared, no node declared twice, and a join mode on every node
    with two or more inbound links.  Whenever it returns, it answers true
    exactly when the system is well-built and exactly when it returns no
    error, and each error is of one of the six kinds of the five checks.  It
    returns or panics, and never runs out of budget. *)
Theorem IsValid_verdict s :
  (Z.of_nat (length (links s)) <= int_max)%Z ->
  (Z.of_nat (length (nodes s) * length (nodes s)) <= int_max)%Z ->
  (IsValid DecideCapability growslice s = Ret (true, []) <-> wellBuilt DecideCapability s)
  /\ (forall ok errs,
        IsValid DecideCapability growslice s = Ret (ok, errs) ->
        (ok = true <-> wellBuilt DecideCapability s)
        /\ (ok = true <-> errs = [])
        /\ (forall e, e ∈ errs ->
              (exists node, e = ErrOrphanDecision node) \/ (exists cycle, e = ErrCycle cycle)
              \/ (exists n link, e = ErrUndeclaredFrom n link)
              \/ (exists n link, e = ErrUndeclaredTo n link)
              \/ (exists c n, e = ErrMultipleInstances c n)
              \/ (exists c n, e = ErrMultipleLinks c n)))
  /\ ((exists r, IsValid DecideCapability growslice s = Ret r)
      \/ IsValid DecideCapability growslice s = Panic).
Proof.
  intros Hlinks Hnodes. pose proof (IsValid_true_wellBuilt s Hlinks Hnodes) as Hwb.
  split; [done|]. split.
  2: { destruct (IsValid_outcome s) as [(_ & _ & r & _ & Hv)|(_ & Hv)]; eauto. }
  intros ok errs Hv.
  destruct (IsValid_Ret s ok errs Hv) as (e1 & e2 & He1 & He2 & Herrs & Hok).
  split; [|split; [done|]].
  - rewrite <- Hwb, Hv. split.
    + intros ->. f_equal. f_equal. by apply Hok.
    + by intros [= -> _].
  - intros e He. rewrite Herrs in He.
    assert (Hnil : None ∉ nodes s).
    { intros Hnil. unfold checkForOrphanMultiBranchesNode in He1.
      by rewrite orphanLoop_panics in He1. }
    destruct (IsValid_returns s e2 Hnil He2) as (e1' & Hk1 & Hk2 & Hv').
    unfold checkForOrphanMultiBranchesNode in He1.
    destruct (orphanLoop_returns s (nodes s) [] Hnil) as (e1'' & He1'' & Hk1'').
    rewrite He1 in He1''. injection He1'' as <-.
    repeat (apply elem_of_app in He as [He|He]).
    + destruct (Hk1'' e He) as [Hin|?]; [by apply elem_of_nil in Hin|by left].
    + right; left. by apply Hk2.
    + destruct (checkForUndeclared_elem s e He) as [?|?]; [right; right; by left|].
      right; right; right; by left.
    + right; right; right; right; left. by apply (checkForMultipleInstance_elem s).
    + right; right; right; right; right.
      apply checkForMultipleLinks_elem in He as (n & c & -> & _). by exists c, n.
Qed.

(** ** Defects that no operation repairs *)

Lemma simpleCycle_links s s' (top : @Node NodeRef) p :
  (forall link, link ∈ links s -> link ∈ links s') -> simpleCycle s top p ->
  simpleCycle s' top p.
Proof. intros Hsub (Hne & Hpath & Hin & Hnd). repeat split; auto. Qed.

Lemma nil_or_cycle_not_valid s :
  None ∈ nodes s \/ (exists top p, top ∈ nodes s /\ simpleCycle s top p) ->
  IsValid DecideCapability growslice s <> Ret (true, []).
Proof.
  intros Hdefect Hvalid. apply IsValid_true_checks in Hvalid as (Ho & Hc & _).
  apply orphan_check_nil in Ho as [Hnil _].
  destruct Hdefect as [?|(top & p & Hin & Hp)]; [done|].
  exact (proj1 (checkForCyclicRedundancyInNodeLinks_nil s) Hc top p Hin Hp).
Qed.

Lemma nil_or_cycle_stays s s' :
  activated s = false ->
  evolves DecideCapability growslice s s' ->
  None ∈ nodes s \/ (exists top p, top ∈ nodes s /\ simpleCycle s top p) ->
  activated s' = false
  /\ (None ∈ nodes s' \/ (exists top p, top ∈ nodes s' /\ simpleCycle s' top p))
  /\ (None ∈ nodes s -> None ∈ nodes s').
Proof.
  intros Hact Hev Hdefect. revert s' Hev.
  apply (evolves_invariant
           (fun s' => activated s' = false
                      /\ (None ∈ nodes s'
                          \/ (exists top p, top ∈ nodes s' /\ simpleCycle s' top p))
                      /\ (None ∈ nodes s -> None ∈ nodes s'))).
  - done.
  - intros s1 n Hact1 (_ & Hd & Hn). cbn. split; [done|]. split.
    + destruct Hd as [?|(top & p & Hin & Hp)].
      * left. apply elem_of_app. by left.
      * right. exists top, p. split; [apply elem_of_app; by left|done].
    + intros Hnil. apply elem_of_app. left. by apply Hn.
  - intros s1 n m Hact1 (_ & Hd & Hn). by cbn.
  - intros s1 link Hact1 _ (_ & Hd & Hn). cbn. split; [done|]. split; [|done].
    destruct Hd as [?|(top & p & Hin & Hp)]; [by left|].
    right. exists top, p. split; [done|].
    apply (simpleCycle_links s1); [|done]. cbn. intros l Hl. apply elem_of_app. by left.
  - intros s1 s2 _ Hvalid _ _ _ _ _ (_ & Hd & _).
    by destruct (nil_or_cycle_not_valid s1 Hd).
Qed.

Lemma duplicate_stays s s' :
  activated s = false ->
  evolves DecideCapability growslice s s' ->
  ~ NoDup (nodes s) ->
  (Z.of_nat (length (nodes s') * length (nodes s')) <= int_max)%Z ->
  activated s' = false /\ ~ NoDup (nodes s').
Proof.
  intros Hact Hev Hdup. revert s' Hev.
  apply (evolves_invariant
           (fun s' => (Z.of_nat (length (nodes s') * length (nodes s')) <= int_max)%Z ->
                      activated s' = false /\ ~ NoDup (nodes s'))).
  - done.
  - intros s1 n Hact1 IH. cbn. rewrite length_app. cbn [length]. intros Hb.
    destruct IH as [_ IH]; [nia|]. split; [done|].
    intros Hnd. by apply NoDup_app in Hnd as [? _].
  - intros s1 n m Hact1 IH. by cbn.
  - intros s1 link Hact1 _ IH. by cbn.
  - intros s1 s2 _ Hvalid _ Hn _ _ _ IH. rewrite Hn. intros Hb.
    destruct (IH Hb) as [_ Hdup1]. apply IsValid_true_checks in Hvalid as (_ & _ & _ & Hi & _).
    by apply checkForMultipleInstance_nil in Hi.
Qed.

(** X17: three defects are permanent.  Once a system that is not activated
    holds a nil node, or a declared node on a cycle of links, or a node
    declared twice, no sequence of operations makes it valid: it is never
    activated, and IsValid never answers true (for the duplicate, the
    square of the number of nodes being an int).  With a nil node, IsValid
    and Activate panic on every later system. *)
Theorem defects_are_permanent s s' :
  activated s = false ->
  evolves DecideCapability growslice s s' ->
  ((None ∈ nodes s \/ (exists top p, top ∈ nodes s /\ simpleCycle s top p)) ->
   activated s' = false /\ IsValid DecideCapability growslice s' <> Ret (true, []))
  /\ (None ∈ nodes s ->
      IsValid DecideCapability growslice s' = Panic
      /\ Activate DecideCapability growslice s' = Panic)
  /\ (~ NoDup (nodes s) ->
      (Z.of_nat (length (nodes s') * length (nodes s')) <= int_max)%Z ->
      activated s' = false /\ IsValid DecideCapability growslice s' <> Ret (true, [])).
Proof.
  intros Hact Hev. split; [|split].
  - intros Hdefect. destruct (nil_or_cycle_stays s s' Hact Hev Hdefect) as (Hact' & Hd & _).
    split; [done|]. by apply nil_or_cycle_not_valid.
  - intros Hnil.
    destruct (nil_or_cycle_stays s s' Hact Hev (or_introl Hnil)) as (Hact' & _ & Hn).
    assert (Hp : IsValid DecideCapability growslice s' = Panic).
    { apply IsValid_panics. left. by apply Hn. }
    split; [done|]. unfold Activate. by rewrite Hact', Hp.
  - intros Hdup Hb. destruct (duplicate_stays s s' Hact Hev Hdup Hb) as [Hact' Hdup'].
    split; [done|]. intros Hvalid. apply Hdup'.
    apply IsValid_true_checks in Hvalid as (_ & _ & _ & Hi & _).
    by apply checkForMultipleInstance_nil in Hi.
Qed.

(** ** What the queries return on an activated system *)

(** X18: on an activated system Follow only returns declared nodes, from a
    declared node: when m follows n on a branch pointer, both are non-nil
    declared nodes, they differ, the pointer is one a link holds, and it is
    nil exactly when n is an action node. *)
Theorem Follow_returns_declared s n m pointer :
  reachable DecideCapability growslice s ->
  activated s = true ->
  m ∈ slice_elems (Follow s n pointer).1 ->
  n ∈ nodes s /\ m ∈ nodes s /\ n <> m
  /\ (exists label, pointer = pointerOf label)
  /\ exists f t, n = Some f /\ m = Some t
                 /\ (pointer = nilPointer <-> DecideCapability f = false).
Proof.
  intros Hreach Hact. rewrite Follow_elems by done.
  intros (link & -> & [[<- <-] Hin]%list_elem_of_filter)%list_elem_of_fmap.
  pose proof (reachable_wellFormed s Hreach) as Hwf. rewrite Forall_forall in Hwf.
  destruct (Hwf link Hin) as (f & t & Hf & Ht & Hne & Hb).
  pose proof (reachable_activated_valid s Hreach Hact) as Hvalid.
  apply IsValid_true_checks in Hvalid as (_ & _ & Hu & _).
  destruct (proj1 (checkForUndeclared_nil s) Hu link Hin) as [[Hnone|Hfrom] [Hnone'|Hto]];
    try congruence.
  split; [done|]. split; [done|]. split; [congruence|]. split; [by exists (Branch link)|].
  exists f, t. split; [done|]. split; [done|]. rewrite <- Hb.
  destruct (Branch link); cbn; split; congruence.
Qed.

(** ** Initial nodes *)

Lemma NoDup_subset_length (l k : list (@Node NodeRef)) :
  NoDup l -> (forall a, a ∈ l -> a ∈ k) -> length l <= length k.
Proof. intros Hnd Hsub. by apply submseteq_length, NoDup_submseteq. Qed.

(** Walking the links backwards from a declared node ends on a node without
    inbound link, when every source is declared and no declared node lies
    on a cycle. *)
Lemma backward_walk s (n0 : @Node NodeRef) :
  (forall link, link ∈ links s -> From link ∈ nodes s) ->
  (forall top p, top ∈ nodes s -> ~ simpleCycle s top p) ->
  forall k p (u : @Node NodeRef),
    length p + k = S (length (nodes s)) ->
    u ∈ nodes s -> isPath u p n0 -> (forall link, link ∈ p -> link ∈ links s) ->
    NoDup (From <$> p) -> n0 ∉ (From <$> p) ->
    exists start q,
      start ∈ nodes s /\ (start ∉ (To <$> links s)) /\ isPath start q n0
      /\ forall link, link ∈ q -> link ∈ links s.
Proof.
  intros Hdecl Hnocycle. induction k as [|k IH]; intros p u Hlen Hu Hpath Hin Hnd Hn0.
  { exfalso. assert (length (From <$> p) <= length (nodes s)).
    { apply NoDup_subset_length; [done|].
      intros a (l & -> & Hl)%list_elem_of_fmap. by apply Hdecl, Hin. }
    rewrite length_fmap in *. lia. }
  destruct (decide (u ∈ (To <$> links s))) as [(l & -> & Hl)%list_elem_of_fmap|Hinit].
  2: { by exists u, p. }
  assert (Hl' : forall link, link ∈ l :: p -> link ∈ links s).
  { intros link [->|?]%elem_of_cons; auto. }
  destruct (decide (From l = n0)) as [Hback|Hfwd].
  { destruct (Hnocycle n0 (l :: p)); [by rewrite <- Hback; apply Hdecl|].
    split; [done|]. split; [by split|]. split; [done|].
    cbn. apply NoDup_cons. by rewrite Hback. }
  destruct (decide (From l ∈ (From <$> p))) as [(l' & Hsame & Hmem)%list_elem_of_fmap|Hnew].
  { apply list_elem_of_split in Hmem as (p1 & p2 & ->).
    apply isPath_app in Hpath as (b & Hp1 & Hb & _).
    rewrite fmap_app in Hnd. apply NoDup_app in Hnd as (Hnd1 & Hdisj & _).
    destruct (Hnocycle (From l) (l :: p1)); [by apply Hdecl|].
    split; [done|]. split; [|split].
    - split; [done|]. by rewrite Hsame, Hb.
    - intros link Hlink. apply Hl'.
      apply elem_of_cons in Hlink as [->|?]; [by left|].
      right. apply elem_of_app. by left.
    - cbn. apply NoDup_cons. split; [|done]. intros Hc.
      apply (Hdisj _ Hc). cbn. rewrite Hsame. by left. }
  apply (IH (l :: p) (From l)); try done.
  - cbn. lia.
  - by apply Hdecl.
  - cbn. by apply NoDup_cons.
  - cbn. intros [?|?]%elem_of_cons; [congruence|done].
Qed.

(** X19: every node of an activated system is reached from an initial
    node: for each declared node there is a chain of links of the system
    that starts on a node returned by InitialNodes and ends on it.  In
    particular an activated system with a node has an initial node. *)
Theorem reached_from_initial s n :
  reachable DecideCapability growslice s ->
  activated s = true ->
  n ∈ nodes s ->
  exists start p,
    start ∈ InitialNodes s /\ isPath start p n
    /\ forall link, link ∈ p -> link ∈ links s.
Proof.
  intros Hreach Hact Hn.
  pose proof (reachable_activated_valid s Hreach Hact) as Hvalid.
  apply IsValid_true_checks in Hvalid as (_ & Hc & Hu & _).
  pose proof (reachable_wellFormed s Hreach) as Hwf. rewrite Forall_forall in Hwf.
  destruct (backward_walk s n) with (k := S (length (nodes s))) (p := @nil (@nodeLink NodeRef))
    (u := n) as (start & q & Hs & Hinit & Hq & Hin).
  - intros link Hl. destruct (Hwf link Hl) as (f & t & Hf & _).
    destruct (proj1 (checkForUndeclared_nil s) Hu link Hl) as [[?|?] _]; [congruence|done].
  - by apply checkForCyclicRedundancyInNodeLinks_nil.
  - done.
  - done.
  - done.
  - intros link Hl. by apply elem_of_nil in Hl.
  - constructor.
  - cbn. apply not_elem_of_nil.
  - exists start, q. split; [|done].
    destruct (reachable_indexed s Hreach Hact) as (Hini & _).
    unfold InitialNodes. rewrite Hini, buildInitialNodes_spec, buildToNodes_spec.
    by apply list_elem_of_filter.
Qed.

(** X20: on an activated system a declared decision node has a follower on
    at least one of its two branches, looked up with the package's pointer
    for the boolean, and none on the nil pointer; a declared action node has
    no follower on any pointer but nil. *)
Theorem Follow_branch_discipline s r :
  reachable DecideCapability growslice s ->
  activated s = true ->
  Some r ∈ nodes s ->
  (DecideCapability r = true ->
   Follow s (Some r) nilPointer = (None, None)
   /\ exists b m, m ∈ slice_elems (Follow s (Some r) (boolPointer b)).1)
  /\ (DecideCapability r = false ->
      forall pointer, pointer <> nilPointer -> Follow s (Some r) pointer = (None, None)).
Proof.
  intros Hreach Hact Hr.
  pose proof (reachable_wellFormed s Hreach) as Hwf. rewrite Forall_forall in Hwf.
  destruct (reachable_indexed s Hreach Hact) as (_ & Hfol & _).
  assert (Hnone : forall pointer,
             (forall link, link ∈ links s -> From link = Some r ->
                           pointerOf (Branch link) <> pointer) ->
             Follow s (Some r) pointer = (None, None)).
  { intros pointer Hno. rewrite Follow_bucket, Hfol by done. unfold buildFollowing.
    rewrite (bucket_build From To).
    destruct (filter _ (links s)) as [|l sel] eqn:Hsel; [done|exfalso].
    assert (Hl : l ∈ filter (fun link => From link = Some r
                                         /\ pointerOf (Branch link) = pointer) (links s))
      by (rewrite Hsel; by left).
    apply list_elem_of_filter in Hl as [[Hf Hb] Hl]. by apply (Hno l). }
  split.
  - intros Hd. split.
    + apply Hnone. intros link Hl Hf Hb.
      destruct (Hwf link Hl) as (f & t & Hf' & _ & _ & Hbr).
      assert (Branch link = None) as Hlabel by (by destruct (Branch link)).
      apply Hbr in Hlabel. congruence.
    + pose proof (reachable_activated_valid s Hreach Hact) as Hvalid.
      apply IsValid_true_checks in Hvalid as (Ho & _).
      apply orphan_check_nil in Ho as [_ Ho].
      destruct (Ho (Some r) Hr Hd) as (link & Hl & Hf).
      destruct (Hwf link Hl) as (f & t & Hf' & _ & _ & Hbr).
      destruct (Branch link) as [b|] eqn:Hb.
      * exists b, (To link). rewrite Follow_elems by done.
        apply list_elem_of_fmap_2, list_elem_of_filter. rewrite Hb. by repeat split.
      * destruct Hbr as [Hbr _]. specialize (Hbr eq_refl). congruence.
  - intros Hd pointer Hptr. apply Hnone. intros link Hl Hf Hb.
    destruct (Hwf link Hl) as (f & t & Hf' & _ & _ & Hbr).
    assert (f = r) as -> by congruence.
    destruct Hbr as [_ Hbr]. rewrite (Hbr Hd) in Hb. cbn in Hb. congruence.
Qed.

Lemma inbound_by_branch (ls : list (@nodeLink NodeRef)) n :
  length (filter (fun link => To link = n /\ pointerOf (Branch link) = nilPointer) ls)
  + length (filter (fun link => To link = n /\ pointerOf (Branch link) = boolPointer true) ls)
  + length (filter (fun link => To link = n /\ pointerOf (Branch link) = boolPointer false) ls)
  = length (filter (fun link => To link = n) ls).
Proof.
  induction ls as [|[f t b] ls IH]; [done|].
  rewrite !filter_cons. cbn [To Branch].
  destruct (decide (t = n)) as [->|Hne].
  - destruct b as [[|]|]; cbn [pointerOf].
    + rewrite decide_False by (intros [_ ?]; done). rewrite decide_True by done.
      rewrite decide_False by (intros [_ ?]; done). cbn [length]. lia.
    + rewrite decide_False by (intros [_ ?]; done).
      rewrite (decide_False (P := n = n /\ boolPointer false = boolPointer true))
        by (intros [_ ?]; done).
      rewrite decide_True by done. cbn [length]. lia.
    + rewrite decide_True by done. rewrite decide_False by (intros [_ ?]; done).
      rewrite decide_False by (intros [_ ?]; done). cbn [length]. lia.
  - rewrite !decide_False by tauto. done.
Qed.

(** X21: on an activated system (the number of links being an int) the
    ancestors of a node over the three pointers that links hold (nil and
    the package's pointers for true and for false) are its inbound links,
    each counted, and a node with two or more of them has a join mode:
    JoinAnd or JoinOr. *)
Theorem fan_in_has_join_mode s n :
  reachable DecideCapability growslice s ->
  activated s = true ->
  (Z.of_nat (length (links s)) <= int_max)%Z ->
  length (slice_elems (Ancestors s n nilPointer).1)
  + length (slice_elems (Ancestors s n (boolPointer true)).1)
  + length (slice_elems (Ancestors s n (boolPointer false)).1)
  = inboundLinks s n
  /\ (2 <= inboundLinks s n -> JoinModeOfNode s n = JoinAnd \/ JoinModeOfNode s n = JoinOr).
Proof.
  intros Hreach Hact Hlen. split.
  - rewrite !Ancestors_elems, !length_fmap by done. unfold inboundLinks.
    by apply inbound_by_branch.
  - intros Hk. pose proof (reachable_activated_valid s Hreach Hact) as Hvalid.
    apply IsValid_true_checks in Hvalid as (_ & _ & _ & _ & Hm).
    pose proof (proj1 (checkForMultipleLinks_nil s Hlen) Hm n Hk) as Hj.
    destruct (JoinModeOfNode s n); [done|by left|by right].
Qed.

(** ** The comparer of cycles *)

Lemma filter_length_all {A} (f : A -> bool) (l : list A) :
  length (List.filter f l) = length l <-> forall a, a ∈ l -> f a = true.
Proof.
  induction l as [|a l IH]; cbn [List.filter].
  - split; [|done]. intros _ a Ha. by apply elem_of_nil in Ha.
  - pose proof (List.filter_length_le f l) as Hle. destruct (f a) eqn:Hfa; cbn [length].
    + split.
      * intros Hl a' [->|Ha]%elem_of_cons; [done|]. apply IH; [lia|done].
      * intros Hall. f_equal. apply IH. intros a' Ha. apply Hall. by right.
    + split; [lia|]. intros Hall. rewrite Hall in Hfa by (by left). done.
Qed.

Lemma nodeLinkSliceComparator_spec (p q : list (@nodeLink NodeRef)) :
  nodeLinkSliceComparator p q = true <-> forall link, link ∈ p -> link ∈ q.
Proof.
  unfold nodeLinkSliceComparator. rewrite bool_decide_eq_true, filter_length_all.
  apply forall_proper. intros link. apply forall_proper. intros _.
  rewrite existsb_exists. unfold nodeLinkComparator. split.
  - intros (l & Hl%list_elem_of_In & ->%bool_decide_eq_true_1). done.
  - intros Hl. exists link. split; [by apply list_elem_of_In|by apply bool_decide_eq_true_2].
Qed.

(** X22: the comparer that deduplicates the cycles is an inclusion test:
    it answers true exactly when every link of the first cycle is in the
    second.  cmp.Equal, which requires a symmetric comparer, so returns
    true exactly when the two cycles have the same links, false exactly
    when each has a link the other lacks, and panics exactly when one is
    strictly included in the other. *)
Theorem cycle_comparer_is_inclusion (p q : list (@nodeLink NodeRef)) :
  (nodeLinkSliceComparator p q = true <-> forall link, link ∈ p -> link ∈ q)
  /\ (cmp_Equal nodeLinkSliceComparator p q = Ret true
      <-> (forall link, link ∈ p -> link ∈ q) /\ (forall link, link ∈ q -> link ∈ p))
  /\ (cmp_Equal nodeLinkSliceComparator p q = Ret false
      <-> ~ (forall link, link ∈ p -> link ∈ q) /\ ~ (forall link, link ∈ q -> link ∈ p))
  /\ (cmp_Equal nodeLinkSliceComparator p q = Panic
      <-> ((forall link, link ∈ p -> link ∈ q) /\ ~ (forall link, link ∈ q -> link ∈ p))
          \/ (~ (forall link, link ∈ p -> link ∈ q) /\ (forall link, link ∈ q -> link ∈ p))).
Proof.
  pose proof (nodeLinkSliceComparator_spec p q) as Hpq.
  pose proof (nodeLinkSliceComparator_spec q p) as Hqp.
  split; [done|]. unfold cmp_Equal.
  destruct (nodeLinkSliceComparator p q), (nodeLinkSliceComparator q p); cbn [Bool.eqb].
  - split; [|split].
    + split; [intros _; split; [by apply Hpq|by apply Hqp]|done].
    + split; [done|]. intros [Hno _]. destruct Hno. by apply Hpq.
    + split; [done|]. intros [[_ Hno]|[Hno _]]; destruct Hno; [by apply Hqp|by apply Hpq].
  - split; [|split].
    + split; [done|]. intros [_ Hall]. apply Hqp in Hall. done.
    + split; [done|]. intros [Hno _]. destruct Hno. by apply Hpq.
    + split; [intros _|done]. left. split; [by apply Hpq|]. intros Hall. by apply Hqp in Hall.
  - split; [|split].
    + split; [done|]. intros [Hall _]. apply Hpq in Hall. done.
    + split; [done|]. intros [_ Hno]. destruct Hno. by apply Hqp.
    + split; [intros _|done]. right. split; [|by apply Hqp]. intros Hall. by apply Hpq in Hall.
  - split; [|split].
    + split; [done|]. intros [Hall _]. apply Hpq in Hall. done.
    + split; [intros _|done].
      split; intros Hall; [apply Hpq in Hall|apply Hqp in Hall]; done.
    + split; [done|]. intros [[Hall _]|[_ Hall]]; [apply Hpq in Hall|apply Hqp in Hall]; done.
Qed.

(** ** The order of the declarations *)

Lemma wellBuilt_permutation s s' :
  nodes s ≡ₚ nodes s' -> links s ≡ₚ links s' -> nodesJoinModes s = nodesJoinModes s' ->
  wellBuilt DecideCapability s -> wellBuilt DecideCapability s'.
Proof.
  intros Hn Hl Hm (Hnil & Horphan & Hcycle & Hdecl & Hnd & Hjoin).
  assert (Hnode : forall a : @Node NodeRef, a ∈ nodes s' <-> a ∈ nodes s)
    by (intros a; by rewrite Hn).
  assert (Hlink : forall link : @nodeLink NodeRef, link ∈ links s' <-> link ∈ links s)
    by (intros link; by rewrite Hl).
  split; [|split; [|split; [|split; [|split]]]].
  - by rewrite Hnode.
  - intros node Hin%Hnode Hd. destruct (Horphan node Hin Hd) as (link & Hlk & Hf).
    exists link. split; [by apply Hlink|done].
  - intros top p Hin%Hnode Hp. apply (Hcycle top p Hin).
    apply (simpleCycle_links s'); [|done]. intros link. by apply Hlink.
  - intros link Hlk%Hlink. rewrite !Hnode. by apply Hdecl.
  - by rewrite <- Hn.
  - intros n Hk. unfold JoinModeOfNode. rewrite <- Hm. apply Hjoin.
    unfold inboundLinks in *. by rewrite Hl.
Qed.

(** X24: validity does not depend on the order of the declarations (the
    number of links and the square of the number of nodes being ints): two
    systems with the same join modes, whose nodes and whose links are the
    same up to their order, are both accepted by IsValid or both not. *)
Theorem validity_order_independent s s' :
  (Z.of_nat (length (links s)) <= int_max)%Z ->
  (Z.of_nat (length (nodes s) * length (nodes s)) <= int_max)%Z ->
  nodes s ≡ₚ nodes s' -> links s ≡ₚ links s' -> nodesJoinModes s = nodesJoinModes s' ->
  IsValid DecideCapability growslice s = Ret (true, [])
  <-> IsValid DecideCapability growslice s' = Ret (true, []).
Proof.
  intros Hlinks Hnodes Hn Hl Hm.
  rewrite (IsValid_true_wellBuilt s), (IsValid_true_wellBuilt s'); try done.
  - split; apply wellBuilt_permutation; done.
  - by rewrite <- Hl.
  - by rewrite <- Hn.
Qed.

End Properties.

(** * The capacity policy of append *)

Section GrowthPolicy.

Context {NodeRef : Type} `{Countable NodeRef}.
Variable DecideCapability : NodeRef -> bool.
Variables growslice growslice' : nat -> nat -> nat.
Hypothesis growslice_fits : forall oldcap needed, needed <= growslice oldcap needed.
Hypothesis growslice_fits' : forall oldcap needed, needed <= growslice' oldcap needed.

(** X25: whether a system is accepted does not depend on the capacities
    that append picks when a walk of findCycle has to grow (the number of
    links and the square of the number of nodes being ints): under any two
    policies that give append the room it asks for, IsValid returns
    (true, nil) under one exactly when it does under the other, and so does
    Activate return nil.  What a rejected system gets, its errors or a
    panic, can depend on the policy ([shared_path_panics]). *)
Theorem validity_growth_independent (s : @NodeSystem NodeRef _ _) :
  (Z.of_nat (length (links s)) <= int_max)%Z ->
  (Z.of_nat (length (nodes s) * length (nodes s)) <= int_max)%Z ->
  (IsValid DecideCapability growslice s = Ret (true, [])
   <-> IsValid DecideCapability growslice' s = Ret (true, []))
  /\ ((exists s', Activate DecideCapability growslice s = Ret (s', None))
      <-> (exists s', Activate DecideCapability growslice' s = Ret (s', None))).
Proof.
  intros Hlinks Hnodes.
  assert (Hv : IsValid DecideCapability growslice s = Ret (true, [])
               <-> IsValid DecideCapability growslice' s = Ret (true, [])).
  { rewrite (IsValid_true_wellBuilt DecideCapability growslice growslice_fits s Hlinks Hnodes).
    by rewrite (IsValid_true_wellBuilt DecideCapability growslice' growslice_fits' s Hlinks Hnodes). }
  split; [done|].
  assert (Ha : forall g : nat -> nat -> nat,
             (exists s', Activate DecideCapability g s = Ret (s', None))
             <-> activated s = true \/ IsValid DecideCapability g s = Ret (true, [])).
  { intros g. unfold Activate. destruct (activated s) eqn:Hact.
    - split; [by left|]. intros _. by exists s.
    - split.
      + intros (s' & Hs'). right.
        destruct (IsValid DecideCapability g s) as [[ok errs]| |] eqn:Hvalid; cbn [obind] in Hs';
          [|done..].
        destruct (IsValid_Ret DecideCapability g s ok errs Hvalid) as (_ & _ & _ & _ & _ & Hok).
        destruct ok; [|done]. f_equal. f_equal. by apply Hok.
      + intros [?|Hvalid]; [done|]. rewrite Hvalid. cbn. eauto. }
  by rewrite !Ha, Hv.
Qed.

End GrowthPolicy.

(** * The comparer of run states *)

Section FlowProperties.

Context {StateType : Type} `{EqDecision StateType} {Err : Type}.
Variable Error : Err -> string.

Lemma runStateEqualOpts_spec (x y : @Flow.RunState StateType Err) :
  Flow.runStateEqualOpts Error x y = true
  <-> Flow.value x = Flow.value y /\ Flow.branch x = Flow.branch y
      /\ (Error <$> Flow.err x) = (Error <$> Flow.err y).
Proof.
  unfold Flow.runStateEqualOpts. destruct x as [vx bx ex], y as [vy b e]. cbn.
  case_bool_decide as Hv.
  { split; [done|]. by intros [? _]. }
  try apply dec_stable in Hv.
  destruct bx as [bx|], b as [b|]; try (split; [done|]; intros (_ & ? & _); done).
  - case_bool_decide as Hb.
    { split; [done|]. intros (_ & [= ?] & _). done. }
    try apply dec_stable in Hb. subst.
    destruct ex as [ex|], e as [e|]; cbn; try (split; [done|]; intros (_ & _ & ?); done).
    case_bool_decide as He.
    + split; [done|]. intros (_ & _ & [= ?]). done.
    + try apply dec_stable in He. rewrite He. done.
  - destruct ex as [ex|], e as [e|]; cbn; try (split; [done|]; intros (_ & _ & ?); done).
    case_bool_decide as He.
    + split; [done|]. intros (_ & _ & [= ?]). done.
    + try apply dec_stable in He. rewrite He. done.
Qed.

(** X23: the comparer of run states answers true exactly when the two
    states have the same value, the same branch (both nil, or both set to
    the same boolean) and the same error message (both nil, or both set with
    equal messages).  It is reflexive, symmetric and transitive, so
    cmp.Equal, which panics on a comparer that is not symmetric, always
    returns its answer. *)
Theorem runStateEqualOpts_equivalence (x y z : @Flow.RunState StateType Err) :
  (Flow.runStateEqualOpts Error x y = true
   <-> Flow.value x = Flow.value y /\ Flow.branch x = Flow.branch y
       /\ (Error <$> Flow.err x) = (Error <$> Flow.err y))
  /\ Flow.runStateEqualOpts Error x x = true
  /\ Flow.runStateEqualOpts Error x y = Flow.runStateEqualOpts Error y x
  /\ (Flow.runStateEqualOpts Error x y = true -> Flow.runStateEqualOpts Error y z = true ->
      Flow.runStateEqualOpts Error x z = true)
  /\ cmp_Equal (Flow.runStateEqualOpts Error) x y = Ret (Flow.runStateEqualOpts Error x y).
Proof.
  assert (Hsym : forall a b : @Flow.RunState StateType Err,
             Flow.runStateEqualOpts Error a b = Flow.runStateEqualOpts Error b a).
  { intros a b. apply eq_true_iff_eq. rewrite !runStateEqualOpts_spec.
    split; intros (? & ? & ?); by repeat split. }
  split; [apply runStateEqualOpts_spec|]. split; [|split; [|split]].
  - by apply runStateEqualOpts_spec.
  - apply Hsym.
  - rewrite !runStateEqualOpts_spec. intros (? & ? & ?) (? & ? & ?).
    repeat split; congruence.
  - unfold cmp_Equal. rewrite (Hsym y x). by rewrite Bool.eqb_reflx.
Qed.

End FlowProperties.

(** * The properties on the concrete instance *)

Lemma frozen_builder_rejects_witness :
  activated Example.line_activated = true
  /\ exists err,
       AddNode Example.line_activated Example.C = (Example.line_activated, (false, Some err))
       /\ Contains (error_text err) "freeze due to activation".
Proof.
  split; [vm_compute; reflexivity|].
  apply (frozen_builder_rejects Example.decides Example.line_activated Example.C JoinAnd
           Example.A Example.B true).
  vm_compute; reflexivity.
Defined.

Lemma addLink_rejects_malformed_witness :
  addLink Example.decides NewNodeSystem Example.D Example.B None
  = (NewNodeSystem, (false, Some (errors_New "can't have missing branch"))).
Proof.
  destruct (addLink_rejects_malformed Example.decides NewNodeSystem Example.D Example.B None)
    as (_ & _ & Hmissing & _).
  - reflexivity.
  - right; right; right; left. exists 2. repeat split; reflexivity.
  - apply (Hmissing 2); reflexivity.
Defined.

Lemma queries_need_activation_witness :
  Follow Example.line Example.A nilPointer
  = (None, Some (errors_New "can't follow a node if system is not activated"))
  /\ Ancestors Example.line Example.A nilPointer
     = (None, Some (errors_New "can't get ancestors of a node if system is not activated")).
Proof. apply (queries_need_activation Example.line Example.A nilPointer). reflexivity. Defined.

Lemma Activate_idempotent_witness :
  exists s1,
    Activate Example.decides Example.grow Example.line = Ret (s1, None)
    /\ IsActivated s1 = true
    /\ Activate Example.decides Example.grow s1 = Ret (s1, None).
Proof.
  apply (Activate_idempotent Example.decides Example.grow Example.line).
  vm_compute; reflexivity.
Defined.

Lemma line_activated_reachable :
  reachable Example.decides Example.grow Example.line_activated.
Proof.
  apply (reach_Activate _ _ Example.line _ None); [|vm_compute; reflexivity].
  unfold Example.line. apply reach_AddLink, reach_AddNode, reach_AddNode, reach_New.
Defined.

Lemma Follow_activated_witness :
  (exists r, Follow Example.line_activated Example.A nilPointer = (r, None)
             /\ slice_elems r = [Example.B])
  /\ Follow Example.line_activated Example.A (otherPointer 0 true) = (None, None).
Proof.
  destruct (Follow_activated Example.decides Example.grow Example.line_activated Example.A)
    as (Hheld & Hother).
  - exact line_activated_reachable.
  - vm_compute; reflexivity.
  - split; [|exact (Hother 0 true)].
    destruct (Hheld None) as (r & Hfollow & Helems & _).
    exists r. split; [exact Hfollow|]. rewrite Helems. vm_compute; reflexivity.
Defined.

Lemma InitialNodes_activated_witness :
  exists s', Activate Example.decides Example.grow Example.line = Ret (s', None)
             /\ IsActivated s' = true
             /\ nodes s' = nodes Example.line /\ links s' = links Example.line
             /\ InitialNodes s' = [Example.A].
Proof.
  destruct (InitialNodes_activated Example.decides Example.grow Example.line)
    as (s' & Hact & Hflag & Hnodes & Hlinks & Hinitial & _).
  - unfold Example.line. apply reach_AddLink, reach_AddNode, reach_AddNode, reach_New.
  - vm_compute; reflexivity.
  - exists s'. split; [exact Hact|]. split; [exact Hflag|]. split; [exact Hnodes|].
    split; [exact Hlinks|]. rewrite Hinitial. vm_compute; reflexivity.
Defined.

Lemma multiple_links_error_iff_witness :
  exists ok errs,
    IsValid Example.decides Example.grow Example.fan_in = Ret (ok, errs)
    /\ ((exists c, ErrMultipleLinks c Example.C ∈ errs)
        <-> 2 <= inboundLinks Example.fan_in Example.C).
Proof.
  destruct (multiple_links_error_iff Example.decides Example.grow) with
    (s := Example.fan_in) (n := Example.C) as (Hreturns & _ & Hiff).
  - intros oldcap needed. unfold Example.grow. lia.
  - vm_compute. discriminate.
  - vm_compute; reflexivity.
  - destruct (proj2 Hreturns) as (ok & errs & Hvalid).
    + split.
      * intros Hin. vm_compute in Hin.
        repeat (apply elem_of_cons in Hin as [Hin|Hin]; [discriminate|]).
        by apply elem_of_nil in Hin.
      * vm_compute. discriminate.
    + exists ok, errs. split; [exact Hvalid|]. exact (Hiff ok errs Hvalid).
Defined.

Lemma findCycle_terminates_witness :
  (exists r, IsValid Example.decides Example.grow Example.undeclared_cycle = Ret r)
  \/ IsValid Example.decides Example.grow Example.undeclared_cycle = Panic.
Proof.
  apply (findCycle_terminates Example.decides Example.grow).
  intros oldcap needed. unfold Example.grow. lia.
Defined.

Lemma triangle_rejected_witness :
  IsValid Example.decides Example.grow Example.triangle
  = Ret (false, [ErrCycle [newNodeLink Example.A Example.B;
                           newNodeLink Example.B Example.C;
                           newNodeLink Example.C Example.A]])
  /\ Activate Example.decides Example.grow Example.triangle
     = Ret (Example.triangle, Some (errors_New "can't activate a unvalidated node system")).
Proof.
  apply (triangle_rejected Example.decides Example.grow).
  - intros oldcap needed. unfold Example.grow. lia.
  - lia.
  - lia.
  - lia.
  - reflexivity.
  - reflexivity.
  - reflexivity.
Defined.

(** * Where the code departs from the specification *)

(** C2: a node declared three times is reported once, with the count 6:
    the double loop counts the ordered pairs of distinct positions that hold
    the node, k * (k - 1) for k occurrences ([multiple_instances_reported]),
    not the occurrences. *)
Theorem tripled_reports_six :
  length (filter (fun n => n = Example.A) (nodes Example.tripled)) = 3
  /\ IsValid Example.decides Example.grow Example.tripled
     = Ret (false, [ErrMultipleInstances 6 Example.A]).
Proof. split; vm_compute; reflexivity. Qed.

(** With a nil node declared, C has two inbound links and no join mode,
    yet IsValid returns no error at all, because the orphan check calls
    DecideCapability on the nil node and panics. *)
Lemma nil_node_hides_multiple_links :
  JoinModeOfNode Example.fan_in_nil Example.C = JoinNone
  /\ inboundLinks Example.fan_in_nil Example.C = 2
  /\ IsValid Example.decides Example.grow Example.fan_in_nil = Panic
  /\ ~ ((exists ok errs c,
           IsValid Example.decides Example.grow Example.fan_in_nil = Ret (ok, errs)
           /\ ErrMultipleLinks c Example.C ∈ errs)
        <-> 2 <= inboundLinks Example.fan_in_nil Example.C).
Proof.
  split; [vm_compute; reflexivity|]. split; [vm_compute; reflexivity|].
  split; [vm_compute; reflexivity|].
  intros [_ Hback]. destruct Hback as (ok & errs & c & Hvalid & _).
  - vm_compute. lia.
  - vm_compute in Hvalid. discriminate.
Qed.

(** Why IsValid may fail to return although every declared node is non-nil.
    On [shared_path] the walk from A reaches E with three links in a slice of
    capacity four.  The first cycle, closed by [E -> A], is kept as that
    slice extended in place; the walk through [E -> F] then overwrites its
    fourth link, and the kept slice is now a strict part of the second
    cycle.  The comparer answers true one way and false the other, and
    [cmp.Equal] panics.  With a runtime that never leaves spare capacity the
    two cycles are reported. *)
Example shared_path_panics :
  (None ∉ nodes Example.shared_path)
  /\ IsValid Example.decides Example.grow Example.shared_path = Panic
  /\ exists errs, IsValid Example.decides Example.grow_exact Example.shared_path
                  = Ret (false, errs).
Proof.
  split; [|split].
  - intros Hin. vm_compute in Hin.
    repeat (apply elem_of_cons in Hin as [Hin|Hin]; [discriminate|]).
    by apply elem_of_nil in Hin.
  - vm_compute; reflexivity.
  - eexists. vm_compute; reflexivity.
Qed.

(** C6: two systems on which a node without join mode has two inbound
    links, the join-mode check alone reports it, and IsValid returns no
    error for it, because it panics before it returns.  On [shared_path]
    every declared node is non-nil, and the panic comes from the comparison
    of a kept cycle that a later append has overwritten; on [fan_in_nil] it
    comes from the nil node that AddNode accepted, although addLink and the
    check of the endpoints both guard against nil. *)
Theorem multiple_links_lost_to_panic :
  (inboundLinks Example.shared_path Example.A = 2
   /\ JoinModeOfNode Example.shared_path Example.A = JoinNone
   /\ (None ∉ nodes Example.shared_path)
   /\ checkForMultipleLinksToNodeWithoutJoinMode Example.shared_path
      = [ErrMultipleLinks 2 Example.A]
   /\ IsValid Example.decides Example.grow Example.shared_path = Panic)
  /\ (inboundLinks Example.fan_in_nil Example.C = 2
      /\ JoinModeOfNode Example.fan_in_nil Example.C = JoinNone
      /\ checkForMultipleLinksToNodeWithoutJoinMode Example.fan_in_nil
         = [ErrMultipleLinks 2 Example.C]
      /\ IsValid Example.decides Example.grow Example.fan_in_nil = Panic).
Proof.
  split.
  - split; [vm_compute; reflexivity|]. split; [vm_compute; reflexivity|]. split.
    + intros Hin. vm_compute in Hin.
      repeat (apply elem_of_cons in Hin as [Hin|Hin]; [discriminate|]).
      by apply elem_of_nil in Hin.
    + split; vm_compute; reflexivity.
  - split; [vm_compute; reflexivity|]. split; [vm_compute; reflexivity|].
    split; vm_compute; reflexivity.
Qed.

(** Counterexample for C3 as stated, on the branch argument: in the
    activated [diamond] the link from D to A on true was added, and Follow
    finds A with the package's pointer for true; with another pointer to
    true it returns the nil slice. *)
Lemma Follow_misses_other_pointer :
  activated Example.diamond_activated = true
  /\ newNodeLinkOnBranch Example.D Example.A true ∈ links Example.diamond_activated
  /\ pointee (otherPointer 0 true) = Some true
  /\ Follow Example.diamond_activated Example.D (otherPointer 0 true) = (None, None)
  /\ Follow Example.diamond_activated Example.D (boolPointer true) = (Some [Example.A], None).
Proof.
  split; [vm_compute; reflexivity|]. split; [vm_compute; apply list_elem_of_here|].
  split; [reflexivity|]. split; vm_compute; reflexivity.
Qed.

(** Counterexample for C10 as stated, on the bound: with A declared, B not,
    and the links A -> B and B -> A, the walk found from A has two links
    while the system has one node. *)
Lemma walk_longer_than_nodes :
  Example.A ∈ nodes Example.undeclared_cycle
  /\ length (nodes Example.undeclared_cycle) = 1
  /\ exists h v,
       findCycle Example.grow (cycleFuel Example.undeclared_cycle) Example.undeclared_cycle
                 [] Example.A Example.A nil_slice = Some (h, [v])
       /\ s_len v = 2
       /\ ~ s_len v <= length (nodes Example.undeclared_cycle).
Proof.
  split; [vm_compute; by left|]. split; [reflexivity|].
  eexists _, _. split; [vm_compute; reflexivity|]. split; [reflexivity|].
  vm_compute. lia.
Qed.

(** * Further properties on the concrete instance *)

Lemma grow_fits : forall oldcap needed, needed <= Example.grow oldcap needed.
Proof. intros oldcap needed. unfold Example.grow. lia. Defined.

Lemma line_reachable : reachable Example.decides Example.grow Example.line.
Proof. unfold Example.line. apply reach_AddLink, reach_AddNode, reach_AddNode, reach_New. Defined.

Lemma diamond_activated_reachable :
  reachable Example.decides Example.grow Example.diamond_activated.
Proof.
  apply (reach_Activate _ _ Example.diamond _ None); [|vm_compute; reflexivity].
  unfold Example.diamond.
  apply reach_AddLink, reach_AddLink, reach_AddLinkOnBranch, reach_AddLinkOnBranch,
    reach_ConfigureJoinModeOnNode, reach_AddNode, reach_AddNode, reach_AddNode, reach_AddNode,
    reach_New.
Defined.

Lemma addLink_accepts_iff_witness :
  addLink Example.decides NewNodeSystem Example.A Example.B None
  = (set_links NewNodeSystem [mkLink Example.A Example.B None], (true, None)).
Proof.
  destruct (addLink_accepts_iff Example.decides NewNodeSystem Example.A Example.B None)
    as (_ & Hadd & _).
  - reflexivity.
  - apply Hadd. exists 1, 3. repeat split; try reflexivity. lia.
Defined.

Lemma reachable_links_wellFormed_witness :
  exists f t, From (newNodeLink Example.A Example.B) = Some f
              /\ To (newNodeLink Example.A Example.B) = Some t /\ f <> t
              /\ (Branch (newNodeLink Example.A Example.B) = None
                  <-> Example.decides f = false).
Proof.
  apply (reachable_links_wellFormed Example.decides Example.grow Example.line).
  - exact line_reachable.
  - vm_compute. apply list_elem_of_here.
Defined.

Lemma evolves_appends_witness :
  nodes Example.line `prefix_of` nodes (AddNode Example.line Example.C).1
  /\ links Example.line `prefix_of` links (AddNode Example.line Example.C).1.
Proof.
  apply (evolves_appends Example.decides Example.grow).
  apply evolves_AddNode, evolves_refl.
Defined.

Lemma activated_is_final_witness :
  (AddLink Example.decides (AddNode Example.line_activated Example.C).1 Example.B Example.C).1
  = Example.line_activated.
Proof.
  apply (activated_is_final Example.decides Example.grow).
  - vm_compute; reflexivity.
  - apply evolves_AddLink, evolves_AddNode, evolves_refl.
Defined.

Lemma activated_systems_are_valid_witness :
  IsValid Example.decides Example.grow Example.diamond_activated = Ret (true, [])
  /\ checkForUndeclaredNodeInNodeLink Example.diamond_activated = []
  /\ checkForMultipleInstanceOfSameNode Example.diamond_activated = []
  /\ checkForMultipleLinksToNodeWithoutJoinMode Example.diamond_activated = [].
Proof.
  apply (activated_systems_are_valid Example.decides Example.grow).
  - exact diamond_activated_reachable.
  - vm_compute; reflexivity.
Defined.

Lemma Activate_outcome_witness :
  (exists s', Activate Example.decides Example.grow Example.diamond = Ret (s', None))
  <-> IsValid Example.decides Example.grow Example.diamond = Ret (true, []).
Proof.
  destruct (Activate_outcome Example.decides Example.grow grow_fits Example.diamond)
    as (_ & Hverdict & _).
  destruct Hverdict as [Hiff _].
  - vm_compute; reflexivity.
  - exact Hiff.
Defined.

Lemma Ancestors_activated_witness :
  (exists r, Ancestors Example.diamond_activated Example.A (boolPointer true) = (r, None)
             /\ slice_elems r = [Example.D])
  /\ Ancestors Example.diamond_activated Example.A (otherPointer 0 true) = (None, None).
Proof.
  destruct (Ancestors_activated Example.decides Example.grow Example.diamond_activated
              Example.A) as (Hheld & Hother).
  - exact diamond_activated_reachable.
  - vm_compute; reflexivity.
  - split; [|exact (Hother 0 true)].
    destruct (Hheld (Some true)) as (r & Hanc & Helems & _).
    exists r. split; [exact Hanc|]. rewrite Helems. vm_compute; reflexivity.
Defined.

Lemma Follow_Ancestors_dual_witness :
  (Example.A ∈ slice_elems (Follow Example.diamond_activated Example.D (boolPointer true)).1
   <-> Example.D
       ∈ slice_elems (Ancestors Example.diamond_activated Example.A (boolPointer true)).1)
  /\ (Example.A ∈ slice_elems (Follow Example.diamond_activated Example.D (boolPointer true)).1
      <-> exists label, boolPointer true = pointerOf label
                        /\ mkLink Example.D Example.A label ∈ links Example.diamond_activated)
  /\ (forall label,
        Example.A
        ∈ slice_elems (Follow Example.diamond_activated Example.D (pointerOf label)).1
        <-> mkLink Example.D Example.A label ∈ links Example.diamond_activated).
Proof.
  apply (Follow_Ancestors_dual Example.decides Example.grow).
  - exact diamond_activated_reachable.
  - vm_compute; reflexivity.
Defined.

Lemma InitialNodes_no_ancestors_witness :
  (Example.D ∈ InitialNodes Example.diamond_activated
   <-> Example.D ∈ nodes Example.diamond_activated
       /\ forall pointer, Ancestors Example.diamond_activated Example.D pointer = (None, None))
  /\ (Example.D ∈ InitialNodes Example.diamond_activated
      <-> Example.D ∈ nodes Example.diamond_activated
          /\ forall label,
               Ancestors Example.diamond_activated Example.D (pointerOf label) = (None, None)).
Proof.
  apply (InitialNodes_no_ancestors Example.decides Example.grow).
  - exact diamond_activated_reachable.
  - vm_compute; reflexivity.
Defined.

Lemma duplicate_check_exact_witness :
  NoDup (checkForMultipleInstanceOfSameNode Example.tripled)
  /\ (forall c n,
        ErrMultipleInstances c n ∈ checkForMultipleInstanceOfSameNode Example.tripled
        <-> 2 <= instancesOf Example.tripled n
            /\ c = Z.of_nat (instancesOf Example.tripled n * (instancesOf Example.tripled n - 1)))
  /\ (checkForMultipleInstanceOfSameNode Example.tripled = [] <-> NoDup (nodes Example.tripled)).
Proof.
  apply (duplicate_check_exact Example.tripled).
  vm_compute. discriminate.
Defined.

Lemma join_mode_check_exact_witness :
  NoDup (checkForMultipleLinksToNodeWithoutJoinMode Example.fan_in)
  /\ (forall c n,
        ErrMultipleLinks c n ∈ checkForMultipleLinksToNodeWithoutJoinMode Example.fan_in
        <-> 2 <= inboundLinks Example.fan_in n /\ c = Z.of_nat (inboundLinks Example.fan_in n)
            /\ JoinModeOfNode Example.fan_in n = JoinNone)
  /\ (checkForMultipleLinksToNodeWithoutJoinMode Example.fan_in = []
      <-> forall n, 2 <= inboundLinks Example.fan_in n ->
                    JoinModeOfNode Example.fan_in n <> JoinNone).
Proof.
  apply (join_mode_check_exact Example.fan_in).
  vm_compute. discriminate.
Defined.

Lemma cycle_check_verdict_witness :
  (exists e errs,
     checkForCyclicRedundancyInNodeLinks Example.grow Example.triangle = Ret (e :: errs))
  \/ checkForCyclicRedundancyInNodeLinks Example.grow Example.triangle = Panic.
Proof.
  destruct (cycle_check_verdict Example.grow grow_fits Example.triangle) as (_ & _ & Hfinds & _).
  apply (Hfinds Example.A [newNodeLink Example.A Example.B; newNodeLink Example.B Example.C;
                           newNodeLink Example.C Example.A]).
  - vm_compute. apply list_elem_of_here.
  - split; [discriminate|]. split; [vm_compute; tauto|]. split.
    + intros link Hin. vm_compute. vm_compute in Hin. exact Hin.
    + apply (bool_decide_unpack _). vm_compute. exact I.
Defined.

Lemma IsValid_verdict_witness :
  wellBuilt Example.decides Example.diamond
  /\ forall ok errs,
       IsValid Example.decides Example.grow Example.fan_in = Ret (ok, errs) ->
       (ok = true <-> wellBuilt Example.decides Example.fan_in)
       /\ (ok = true <-> errs = []).
Proof.
  split.
  - destruct (IsValid_verdict Example.decides Example.grow grow_fits Example.diamond)
      as (Hiff & _).
    + vm_compute. discriminate.
    + vm_compute. discriminate.
    + apply Hiff. vm_compute; reflexivity.
  - destruct (IsValid_verdict Example.decides Example.grow grow_fits Example.fan_in)
      as (_ & Hret & _).
    + vm_compute. discriminate.
    + vm_compute. discriminate.
    + intros ok errs Hv. destruct (Hret ok errs Hv) as (Hwb & Hnil & _). by split.
Defined.

Lemma defects_are_permanent_witness :
  IsValid Example.decides Example.grow
    (ConfigureJoinModeOnNode Example.fan_in_nil Example.C JoinAnd).1 = Panic
  /\ Activate Example.decides Example.grow
       (ConfigureJoinModeOnNode Example.fan_in_nil Example.C JoinAnd).1 = Panic.
Proof.
  destruct (defects_are_permanent Example.decides Example.grow grow_fits Example.fan_in_nil
              (ConfigureJoinModeOnNode Example.fan_in_nil Example.C JoinAnd).1)
    as (_ & Hnil & _).
  - vm_compute; reflexivity.
  - apply evolves_ConfigureJoinModeOnNode, evolves_refl.
  - apply Hnil. apply (bool_decide_unpack _). vm_compute. exact I.
Defined.

Lemma Follow_returns_declared_witness :
  Example.D ∈ nodes Example.diamond_activated /\ Example.A ∈ nodes Example.diamond_activated
  /\ Example.D <> Example.A
  /\ (exists label, boolPointer true = pointerOf label)
  /\ exists f t, Example.D = Some f /\ Example.A = Some t
                 /\ (boolPointer true = nilPointer <-> Example.decides f = false).
Proof.
  apply (Follow_returns_declared Example.decides Example.grow Example.diamond_activated
           Example.D Example.A (boolPointer true)).
  - exact diamond_activated_reachable.
  - vm_compute; reflexivity.
  - vm_compute. apply list_elem_of_here.
Defined.

Lemma reached_from_initial_witness :
  exists start p,
    start ∈ InitialNodes Example.diamond_activated /\ isPath start p Example.C
    /\ forall link, link ∈ p -> link ∈ links Example.diamond_activated.
Proof.
  apply (reached_from_initial Example.decides Example.grow grow_fits).
  - exact diamond_activated_reachable.
  - vm_compute; reflexivity.
  - apply (bool_decide_unpack _). vm_compute. exact I.
Defined.

Lemma Follow_branch_discipline_witness :
  (Example.decides 2 = true ->
   Follow Example.diamond_activated Example.D nilPointer = (None, None)
   /\ exists b m,
        m ∈ slice_elems (Follow Example.diamond_activated Example.D (boolPointer b)).1)
  /\ (Example.decides 2 = false ->
      forall pointer, pointer <> nilPointer ->
                      Follow Example.diamond_activated Example.D pointer = (None, None)).
Proof.
  apply (Follow_branch_discipline Example.decides Example.grow).
  - exact diamond_activated_reachable.
  - vm_compute; reflexivity.
  - vm_compute. apply list_elem_of_here.
Defined.

Lemma fan_in_has_join_mode_witness :
  length (slice_elems (Ancestors Example.diamond_activated Example.C nilPointer).1)
  + length (slice_elems (Ancestors Example.diamond_activated Example.C (boolPointer true)).1)
  + length (slice_elems (Ancestors Example.diamond_activated Example.C (boolPointer false)).1)
  = inboundLinks Example.diamond_activated Example.C
  /\ (2 <= inboundLinks Example.diamond_activated Example.C ->
      JoinModeOfNode Example.diamond_activated Example.C = JoinAnd
      \/ JoinModeOfNode Example.diamond_activated Example.C = JoinOr).
Proof.
  apply (fan_in_has_join_mode Example.decides Example.grow).
  - exact diamond_activated_reachable.
  - vm_compute; reflexivity.
  - vm_compute. discriminate.
Defined.

Lemma validity_order_independent_witness :
  IsValid Example.decides Example.grow Example.diamond = Ret (true, [])
  <-> IsValid Example.decides Example.grow Example.diamond_reordered = Ret (true, []).
Proof.
  apply (validity_order_independent Example.decides Example.grow grow_fits).
  - vm_compute. discriminate.
  - vm_compute. discriminate.
  - change (nodes Example.diamond_reordered) with (rev (nodes Example.diamond)).
    apply Permutation_rev.
  - change (links Example.diamond_reordered) with (rev (links Example.diamond)).
    apply Permutation_rev.
  - vm_compute; reflexivity.
Defined.

Lemma validity_growth_independent_witness :
  (IsValid Example.decides Example.grow Example.diamond = Ret (true, [])
   <-> IsValid Example.decides Example.grow_exact Example.diamond = Ret (true, []))
  /\ ((exists s', Activate Example.decides Example.grow Example.diamond = Ret (s', None))
      <-> (exists s', Activate Example.decides Example.grow_exact Example.diamond
                      = Ret (s', None))).
Proof.
  apply (validity_growth_independent Example.decides Example.grow Example.grow_exact).
  - exact grow_fits.
  - intros oldcap needed. unfold Example.grow_exact. lia.
  - vm_compute. discriminate.
  - vm_compute. discriminate.
Defined.
